(** * simo981 profile scripts: a shallow embedding and its properties

    Three Node scripts keep a profile README up to date:
    - [scripts/update-recent-prs.mjs]      (module [RecentPRs]),
    - the recent-commits script that follows it in the same source file
      (module [RecentCommits]),
    - [scripts/update-language-badge.mjs]  (module [Badge]).

    The embedding keeps the shape of the JavaScript: an error-and-state monad
    for [await]/[throw], explicit loop states for the [for ... of] loops with
    their [continue]/[return], a [gset] for [new Set()], a [gmap] for the
    commit cache, an insertion-ordered association list for the language
    [Map] (its iteration order is observable), and [string] for JS strings.

    What the model takes from outside the scripts:
    - the configuration read from the environment, after [Number(...)], as
      integers;
    - the JSON of the GitHub API at the shape the scripts read it (fields
      that are strings, [null] or absent are [option string]), answered by
      a remote side that may answer the same request differently over time;
    - [Date] parsing and formatting, as two functions;
    - binary64 arithmetic for the one division of the badge, as an
      operation with an instance on the kernel's floats.

    Request headers and console output do not influence what the scripts
    compute or write and are not part of the model. *)

From Stdlib Require Import ZArith QArith Qround Lia Lqa Ascii String List Bool Sorted.
From Stdlib Require Floats Uint63.
From stdpp Require Import base decidable option list gmap strings pretty.

Local Open Scope Z_scope.

(** ** JavaScript runtime helpers *)
Module JS.

(** A JS string is a sequence of code units; the text operations below work
    on that sequence. (The units held here are bytes; [Utf8] below says how
    text beyond ASCII is held.) *)
Definition chars (s : string) : list ascii := list_ascii_of_string s.
Definition str (l : list ascii) : string := string_of_list_ascii l.

Definition nl : string := String (ascii_of_nat 10) EmptyString.

(** [l.startsWith(p)] on code-unit sequences. *)
Fixpoint starts_with (p l : list ascii) : bool :=
  match p, l with
  | [], _ => true
  | _ :: _, [] => false
  | x :: p', y :: l' => bool_decide (x = y) && starts_with p' l'
  end.

(** First position (counted from [i]) at which [p] occurs in [l], or -1. *)
Fixpoint find_from (p l : list ascii) (i : nat) : Z :=
  if starts_with p l then Z.of_nat i
  else match l with
       | [] => -1
       | _ :: l' => find_from p l' (S i)
       end.

(** [s.indexOf(p)] *)
Definition indexOf (s p : string) : Z := find_from (chars p) (chars s) 0.

(** Index normalisation shared by [String.prototype.slice] and
    [Array.prototype.slice]: negative indices count from the end, and
    everything is clipped to [0, len]. *)
Definition clamp_index (len i : Z) : Z :=
  if i <? 0 then Z.max (len + i) 0 else Z.min i len.

(** [l.slice(start, end)]; [end_ = None] is an omitted second argument. *)
Definition slice_list {A} (l : list A) (start : Z) (end_ : option Z) : list A :=
  let len := Z.of_nat (length l) in
  let from := clamp_index len start in
  let to := match end_ with Some e => clamp_index len e | None => len end in
  take (Z.to_nat (to - from)) (drop (Z.to_nat from) l).

(** [s.slice(start, end)] *)
Definition slice (s : string) (start : Z) (end_ : option Z) : string :=
  str (slice_list (chars s) start end_).

(** [s.split(sep)] for a non-empty separator. [skip] counts the code units of
    a separator occurrence still to be passed over, [cur] is the current
    piece, reversed. *)
Fixpoint split_go (sep : list ascii) (skip : nat) (cur : list ascii)
    (l : list ascii) : list string :=
  match l with
  | [] => [str (rev cur)]
  | c :: l' =>
      match skip with
      | S k => split_go sep k cur l'
      | O =>
          if starts_with sep l
          then str (rev cur) :: split_go sep (length sep - 1) [] l'
          else split_go sep 0 (c :: cur) l'
      end
  end.

Definition split (s sep : string) : list string :=
  split_go (chars sep) 0 [] (chars s).

(** Truthiness of a value that is a string, [null] or [undefined]. *)
Definition truthy (o : option string) : bool :=
  match o with
  | Some s => negb (String.eqb s "")
  | None => false
  end.

(** [a || b] where both sides are string-or-nothing. *)
Definition or_else (a b : option string) : option string :=
  if truthy a then a else b.

(** [a || 'literal'] *)
Definition or_lit (a : option string) (d : string) : string :=
  match a with
  | Some s => if String.eqb s "" then d else s
  | None => d
  end.

(** [Array.prototype.join] *)
Definition join (sep : string) (l : list string) : string := String.concat sep l.

(** Template-literal rendering of an integer-valued number. *)
Definition num (z : Z) : string := pretty z.

(** Rocq string literals cannot hold a double quote, so the markup templates
    below are written with a backtick wherever the JavaScript source has a
    double quote; [tpl] puts the double quotes back. No template of the
    scripts contains a backtick of its own. *)
Definition unquote_char (c : ascii) : ascii :=
  if Ascii.eqb c (ascii_of_nat 96) then ascii_of_nat 34 else c.

Definition tpl (s : string) : string := str (map unquote_char (chars s)).

(** The two [Date] operations the scripts rely on, as the runtime provides
    them: [new Date(s).getTime()] ([None] is NaN, an invalid date) and
    [toISOString] of a valid time value. *)
Record DateApi := {
  Date_parse : string -> option Z;
  Date_toISOString : Z -> string;
}.

(** *** Number arithmetic

    JS numbers are binary64 values. The scripts add and compare integers
    (exact in binary64 up to 2^53; GraphQL sizes are 32-bit), and in one
    place divide and multiply: [(entry.size / total) * k]. That expression
    is the one operation of [Arith]; its result is given as the rational
    number the resulting double denotes. *)
Record Arith := {
  scaled_quotient : Z -> Z -> Z -> Q;
}.

(** The double an integer-valued number is: the integer rounded to nearest,
    ties to even (itself up to 2^53, an infinity from 2^1024 on). *)
Definition f64_of_Z (z : Z) : PrimFloat.float :=
  FloatOps.SF2Prim (SpecFloat.binary_normalize FloatOps.prec FloatOps.emax z 0 false).

(** The rational denoted by a finite double (0 for infinities and NaN, which
    the guarded division of [buildSvg] does not produce from sizes below
    2^1024). *)
Definition Q_of_f64 (x : PrimFloat.float) : Q :=
  match FloatOps.Prim2SF x with
  | SpecFloat.S754_finite s m e =>
      let v := if 0 <=? e then inject_Z (Z.pos m * 2 ^ e)
               else Qmake (Z.pos m) (Pos.pow 2 (Z.to_pos (- e))) in
      if s then Qopp v else v
  | _ => 0%Q
  end.

(** The arithmetic of the JavaScript engine: IEEE 754 binary64, round to
    nearest even, on the kernel's primitive floats. *)
Definition binary64 : Arith :=
  {| scaled_quotient a b k :=
       Q_of_f64 (PrimFloat.mul (PrimFloat.div (f64_of_Z a) (f64_of_Z b)) (f64_of_Z k)) |}.

(** Exact rational arithmetic, for comparison. *)
Definition exact : Arith :=
  {| scaled_quotient a b k := (inject_Z a / inject_Z b * inject_Z k)%Q |}.

(** [Math.round] of the rational [q]: the nearest integer, halves upwards. *)
Definition Math_round (q : Q) : Z := Qfloor (q + (1 # 2)).

End JS.

Notation "a ||| b" := (JS.or_else a b) (at level 50, left associativity).

(** ** Files and text

    [fs.readFile(path, 'utf8')] decodes the bytes of a file as UTF-8, and
    [fs.writeFile(path, text)] encodes the text as UTF-8. Text is held here
    as the bytes of its UTF-8 encoding (the scripts search for and cut at
    ASCII markers only, where bytes and code units go together), so writing
    is the identity and reading is [decode]: well-formed sequences are kept
    and every ill-formed one is replaced by U+FFFD (bytes EF BF BD), one
    replacement per maximal ill-formed prefix, as the decoder of the
    runtime does. A byte order mark is kept. *)
Module Utf8.

(** U+FFFD REPLACEMENT CHARACTER, encoded. *)
Definition replacement : list ascii :=
  [ascii_of_N 239; ascii_of_N 191; ascii_of_N 189].

(** A sequence that has begun: the bytes seen, how many continuation bytes
    are still needed, and the range the next one has to lie in. *)
Record Pending := {
  seen : list ascii;
  need : nat;
  lo : N;
  hi : N;
}.

(** A byte met outside a sequence: (what is emitted, the sequence begun). *)
Definition start (b : ascii) : list ascii * option Pending :=
  let v := N_of_ascii b in
  if (v <=? 127)%N then ([b], None)
  else if (194 <=? v)%N && (v <=? 223)%N then
    ([], Some {| seen := [b]; need := 1; lo := 128; hi := 191 |})
  else if (224 <=? v)%N && (v <=? 239)%N then
    ([], Some {| seen := [b]; need := 2;
                 lo := if (v =? 224)%N then 160 else 128;
                 hi := if (v =? 237)%N then 159 else 191 |})
  else if (240 <=? v)%N && (v <=? 244)%N then
    ([], Some {| seen := [b]; need := 3;
                 lo := if (v =? 240)%N then 144 else 128;
                 hi := if (v =? 244)%N then 143 else 191 |})
  else (replacement, None).

Fixpoint decode_from (st : option Pending) (bytes : list ascii) : list ascii :=
  match bytes with
  | [] => match st with None => [] | Some _ => replacement end
  | b :: rest =>
      match st with
      | None => let '(out, st') := start b in out ++ decode_from st' rest
      | Some p =>
          let v := N_of_ascii b in
          if (lo p <=? v)%N && (v <=? hi p)%N then
            match need p with
            | S (S n) =>
                decode_from (Some {| seen := seen p ++ [b]; need := S n;
                                     lo := 128; hi := 191 |}) rest
            | _ => seen p ++ [b] ++ decode_from None rest
            end
          else
            let '(out, st') := start b in
            replacement ++ out ++ decode_from st' rest
      end
  end.

(** The text of a file with the given bytes. *)
Definition decode (file : string) : string :=
  JS.str (decode_from None (JS.chars file)).

(** A file is valid UTF-8 when decoding replaces nothing. *)
Definition valid (file : string) : Prop := decode file = file.

End Utf8.

(** ** The process and its environment *)

(** What the GitHub API sends back: a rejected [fetch], or an HTTP response
    with its status line, its body text and the body read as JSON ([None]
    when [response.json()] rejects). [J] is the shape the endpoint's JSON is
    read at. *)
Inductive Response (J : Type) :=
| FetchRejected
| Http (ok : bool) (status : Z) (statusText text : string) (json : option J).
Arguments FetchRejected {J}.
Arguments Http {J}.

(** *** Event feed payloads *)
Record Repo := {
  full_name : option string;
  repo_html_url : option string;
}.

Record PullRequest := {
  html_url : option string;
  pr_url : option string;
  title : option string;
  state : option string;
  draft : bool;
  merged_at : option string;
  closed_at : option string;
  pr_created_at : option string;
  head_repo : option Repo;
  base_repo : option Repo;
}.

Record Commit := {
  sha : option string;
  commit_message : option string;
}.

Record Event := {
  type : string;
  created_at : string;
  repo_name : option string;
  payload_pull_request : option PullRequest;
  payload_commits : option (list Commit);
  payload_head : option string;
}.

(** The JSON of an events page: an array of events, or anything else. *)
Inductive EventsJson :=
| NotAnArray
| EventArray (events : list Event).

(** The JSON of [GET /repos/:repo/commits/:sha]. *)
Record CommitData := {
  data_commit_message : option string;
  data_html_url : option string;
  author_date : option string;
  committer_date : option string;
}.

(** What [fetchCommitDetails] resolves a commit to. *)
Record CommitInfo := {
  info_message : string;
  info_url : option string;
  info_date : option string;
}.

(** *** GraphQL payload of the language query *)
Record LanguageEdge := {
  edge_size : option Z;
  node_name : option string;
  node_color : option string;
}.

Record RepoNode := {
  languages_edges : option (list LanguageEdge);
}.

Record GraphQLPayload := {
  errors : option (list string);
  nodes : option (list RepoNode);
}.

Inductive Request :=
| GetEvents (login : string) (page per_page : Z)
| GetCommit (repoName sha : string)
| PostGraphQL (login : string) (repoLimit langLimit : Z).

(** The remote side. Answers may change over time: each endpoint is indexed
    by the number of requests the process has issued before this one. *)
Record Server := {
  events_endpoint : nat -> string -> Z -> Z -> Response EventsJson;
  commit_endpoint : nat -> string -> string -> Response CommitData;
  graphql_endpoint : nat -> string -> Z -> Z -> Response GraphQLPayload;
}.

Inductive File := README | BadgeSvg.

#[global] Instance File_eq_dec : EqDecision File.
Proof. solve_decision. Defined.

(** Everything a run can read or change: the two files as text (for the
    README, what [Utf8.decode] makes of its bytes), the log of
    [fs.writeFile] calls, the log of requests sent, the remote side, and the
    commit script's module-level [commitCache]. *)
Record World := {
  readme : option string;
  badge : option string;
  writes : list (File * string);
  requests : list Request;
  server : Server;
  commitCache : gmap string CommitInfo;
}.

(** A thrown value: [new Error(message)] raised by a script, or a rejection
    coming from the runtime ([fetch], [response.json()], [fs]). *)
Inductive Exn :=
| Error (message : string)
| Rejection.

Inductive Outcome (A : Type) :=
| Ok (a : A)
| Throw (e : Exn).
Arguments Ok {A}.
Arguments Throw {A}.

(** The monad of the async functions: state passing over [World], with
    exceptions. State changes made before a [throw] stay. *)
Definition M (A : Type) : Type := World -> Outcome A * World.

Definition ret {A} (a : A) : M A := fun w => (Ok a, w).

Definition bind {A B} (m : M A) (k : A -> M B) : M B :=
  fun w => match m w with
           | (Ok a, w') => k a w'
           | (Throw e, w') => (Throw e, w')
           end.

Definition throw {A} (e : Exn) : M A := fun w => (Throw e, w).

Notation "'let*' x ':=' m 'in' k" := (bind m (fun x => k))
  (at level 10, x pattern, m at level 100, k at level 200).

Definition log_request (r : Request) (w : World) : World :=
  {| readme := readme w; badge := badge w; writes := writes w;
     requests := requests w ++ [r]; server := server w;
     commitCache := commitCache w |}.

Definition set_cache (k : string) (v : CommitInfo) (w : World) : World :=
  {| readme := readme w; badge := badge w; writes := writes w;
     requests := requests w; server := server w;
     commitCache := <[k := v]> (commitCache w) |}.

Definition write_file (f : File) (content : string) (w : World) : World :=
  {| readme := match f with README => Some content | BadgeSvg => readme w end;
     badge := match f with BadgeSvg => Some content | README => badge w end;
     writes := writes w ++ [(f, content)];
     requests := requests w; server := server w;
     commitCache := commitCache w |}.

(** [await fetch(eventsUrl)] without the rejection turned into a throw yet. *)
Definition fetch_events (login : string) (page per_page : Z) : M (Response EventsJson) :=
  fun w => (Ok (events_endpoint (server w) (length (requests w)) login page per_page),
            log_request (GetEvents login page per_page) w).

Definition fetch_commit (repoName sha : string) : M (Response CommitData) :=
  fun w => (Ok (commit_endpoint (server w) (length (requests w)) repoName sha),
            log_request (GetCommit repoName sha) w).

Definition fetch_graphql (login : string) (repoLimit langLimit : Z) : M (Response GraphQLPayload) :=
  fun w => (Ok (graphql_endpoint (server w) (length (requests w)) login repoLimit langLimit),
            log_request (PostGraphQL login repoLimit langLimit) w).

(** [await fs.readFile(README_PATH, 'utf8')]: the text of the README. *)
Definition readFile_README : M string :=
  fun w => match readme w with
           | Some content => (Ok content, w)
           | None => (Throw Rejection, w)
           end.

(** [await fs.writeFile(path, content)]: the file now holds that text. *)
Definition writeFile (f : File) (content : string) : M unit :=
  fun w => (Ok tt, write_file f content w).

(** Control flow out of a [for ... of] body: fall through to the next
    element ([continue] included), or [return] from the enclosing function. *)
Inductive Flow (S : Type) :=
| Continue (st : S)
| Return (st : S).
Arguments Continue {S}.
Arguments Return {S}.

Definition flow_state {S} (f : Flow S) : S :=
  match f with Continue st | Return st => st end.

(** [for (const x of xs) body] with a pure body. *)
Fixpoint for_of {X S} (body : X -> S -> Flow S) (xs : list X) (st : S) : Flow S :=
  match xs with
  | [] => Continue st
  | x :: xs' =>
      match body x st with
      | Continue st' => for_of body xs' st'
      | Return st' => Return st'
      end
  end.

(** [for (const x of xs) body] with a body that awaits. *)
Fixpoint for_of_M {X S} (body : X -> S -> M (Flow S)) (xs : list X) (st : S) : M (Flow S) :=
  match xs with
  | [] => ret (Continue st)
  | x :: xs' =>
      let* f := body x st in
      match f with
      | Continue st' => for_of_M body xs' st'
      | Return st' => ret (Return st')
      end
  end.

(** *** The README splice shared by both reporters

    The two [updateReadme] functions (lines 111-131 and 303-323) differ in
    their markers and in their error message only. *)
Definition updateReadme_with (START_TAG END_TAG not_found : string)
    (markup : string) : M unit :=
  let* content := readFile_README in
  let startIndex := JS.indexOf content START_TAG in
  let endIndex := JS.indexOf content END_TAG in
  if (startIndex =? -1) || (endIndex =? -1) || (endIndex <=? startIndex)
  then throw (Error not_found)
  else
    let before := JS.slice content 0 (Some (startIndex + Z.of_nat (String.length START_TAG))) in
    let after := JS.slice content endIndex None in
    let nextContent := before +:+ JS.nl +:+ markup +:+ JS.nl +:+ after in
    if decide (nextContent = content)
    then ret tt
    else writeFile README nextContent.

(** ** scripts/update-recent-prs.mjs *)
Module RecentPRs.

Definition START_TAG : string := "<!-- START_RECENT_PRS -->".
Definition END_TAG : string := "<!-- END_RECENT_PRS -->".

(** The module-level constants read from the environment, after [Number(...)],
    and [Date.now()] at start-up. The numbers are taken to be integers, as
    the defaults are: a setting that [Number] turns into a fraction or into
    NaN has no [Config]. *)
Record Config := {
  login : string;
  prLimit : Z;
  lookbackDays : Z;
  eventsPerPage : Z;
  eventMaxPages : Z;
  includeDrafts : bool;
  now : Z;
}.

Record PrRecord := {
  repoName : string;
  repoUrl : string;
  pr_title : string;
  url : string;
  status : string;
  date : option string;
}.

(** The locals [prs] and [seen] of [fetchRecentPRs]. *)
Record Loop := {
  prs : list PrRecord;
  seen : gset string;
}.

(** [formatStatus], lines 34-39. *)
Definition formatStatus (pr : PullRequest) : string :=
  if JS.truthy (merged_at pr) then "Merged"
  else if bool_decide (state pr = Some "closed") then "Closed"
  else if draft pr then "Draft"
  else "Open".

Section Script.
Context (api : JS.DateApi) (cfg : Config).

Definition sinceDate : Z := now cfg - lookbackDays cfg * 24 * 60 * 60 * 1000.

Definition formatDate (dateString : option string) : string :=
  if negb (JS.truthy dateString) then ""
  else match JS.Date_parse api (default "" dateString) with
       | None => ""
       | Some t => JS.slice (JS.Date_toISOString api t) 0 (Some 10)
       end.

(** The object literal pushed onto [prs]; [key] is the truthy [pr.html_url]. *)
Definition mkRecord (event : Event) (pr : PullRequest) (key : string) : PrRecord :=
  {| repoName :=
       JS.or_lit
         ((head_repo pr ≫= full_name)
          ||| repo_name event
          ||| (base_repo pr ≫= full_name)
          ||| (pr_url pr ≫= fun u => JS.split u "/repos/" !! 1%nat))
         "Unknown";
     repoUrl :=
       JS.or_lit (base_repo pr ≫= repo_html_url)
         (if JS.truthy (repo_name event)
          then "https://github.com/" +:+ default "" (repo_name event)
          else default "" (JS.split key "/pull/" !! 0%nat));
     pr_title := JS.or_lit (title pr) "Pull request";
     url := key;
     status := formatStatus pr;
     date := merged_at pr ||| closed_at pr ||| pr_created_at pr ||| Some (created_at event) |}.

(** The body of [for (const event of events)]. *)
Definition eventStep (event : Event) (st : Loop) : Flow Loop :=
  if negb (String.eqb (type event) "PullRequestEvent") then Continue st
  else match JS.Date_parse api (created_at event) with
  | None => Continue st
  | Some eventDate =>
  if eventDate <? sinceDate then Continue st
  else match payload_pull_request event with
  | None => Continue st
  | Some pr =>
  if negb (JS.truthy (html_url pr)) then Continue st
  else if negb (includeDrafts cfg) && draft pr then Continue st
  else
    let key := default "" (html_url pr) in
    if decide (key ∈ seen st) then Continue st
    else
      let st' := {| prs := prs st ++ [mkRecord event pr key];
                    seen := {[ key ]} ∪ seen st |} in
      if prLimit cfg <=? Z.of_nat (length (prs st')) then Return st'
      else Continue st'
  end end.

(** The page loop, [remaining] iterations from page number [page] on. *)
Fixpoint pageLoop (remaining : nat) (page : Z) (st : Loop) : M (list PrRecord) :=
  match remaining with
  | O => ret (prs st)
  | S remaining' =>
      let* response := fetch_events (login cfg) page (eventsPerPage cfg) in
      match response with
      | FetchRejected => throw Rejection
      | Http ok status statusText text json =>
          if negb ok then
            throw (Error ("GitHub events request failed: " +:+ JS.num status +:+ " "
                          +:+ statusText +:+ " — " +:+ text))
          else match json with
          | None => throw Rejection
          | Some NotAnArray => ret (prs st)
          | Some (EventArray []) => ret (prs st)
          | Some (EventArray events) =>
              match for_of eventStep events st with
              | Return st' => ret (prs st')
              | Continue st' => pageLoop remaining' (page + 1) st'
              end
          end
      end
  end.

(** [fetchRecentPRs], lines 41-92. *)
Definition fetchRecentPRs : M (list PrRecord) :=
  pageLoop (Z.to_nat (eventMaxPages cfg)) 1 {| prs := []; seen := ∅ |}.

Definition prRow (pr : PrRecord) : string :=
  JS.tpl "  <tr>
    <td><code>" +:+ formatDate (date pr) +:+ JS.tpl "</code></td>
    <td><a href=`" +:+ url pr +:+ JS.tpl "` target=`_blank` rel=`noopener noreferrer`>" +:+ pr_title pr +:+ JS.tpl "</a></td>
    <td>" +:+ status pr +:+ JS.tpl "</td>
    <td><a href=`" +:+ repoUrl pr +:+ JS.tpl "` target=`_blank` rel=`noopener noreferrer`>" +:+ repoName pr +:+ JS.tpl "</a></td>
  </tr>".

(** [buildPrMarkup], lines 94-109. *)
Definition buildPrMarkup (prs : list PrRecord) : string :=
  match prs with
  | [] => JS.tpl "<div align=`center`>
  <!-- No recent pull requests available -->
</div>"
  | _ =>
      let rows := JS.join JS.nl (map prRow prs) in
      JS.tpl "<div align=`center`>
  <table style=`width:90%;max-width:720px;border-collapse:collapse;font-family:'Segoe UI', Ubuntu, sans-serif;font-size:14px;color:#c9d1d9;`>
    <thead>
      <tr style=`text-align:left;color:#8b949e;font-size:13px;`>
        <th style=`padding:6px 8px;`>Date</th>
        <th style=`padding:6px 8px;`>Pull Request</th>
        <th style=`padding:6px 8px;`>Status</th>
        <th style=`padding:6px 8px;`>Repository</th>
      </tr>
    </thead>
    <tbody>
" +:+ rows +:+ JS.tpl "
    </tbody>
  </table>
</div>"
  end.

Definition updateReadme : string -> M unit :=
  updateReadme_with START_TAG END_TAG "Recent PR markers not found in README.".

(** The top-level [try]/[catch]: the exit code of the process. *)
Definition main : World -> Z * World :=
  fun w =>
    match (let* prs := fetchRecentPRs in updateReadme (buildPrMarkup prs)) w with
    | (Ok _, w') => (0, w')
    | (Throw _, w') => (1, w')
    end.

End Script.
End RecentPRs.

(** ** The recent-commits script (second script of the same source file) *)
Module RecentCommits.

Definition START_TAG : string := "<!-- START_RECENT_COMMITS -->".
Definition END_TAG : string := "<!-- END_RECENT_COMMITS -->".

(** The module-level constants, with integer numbers as in [RecentPRs]. *)
Record Config := {
  login : string;
  commitLimit : Z;
  lookbackDays : Z;
  eventsPerPage : Z;
  eventMaxPages : Z;
  now : Z;
}.

Record CommitRecord := {
  repoName : string;
  repoUrl : string;
  message : string;
  url : string;
  oid : string;
  occurredAt : string;
}.

(** The locals [commits] and [seen] of [fetchRecentCommits]. Each element of
    [commits] is paired with the SHA it was pushed for: the first component
    is bookkeeping of the model (the value tested against and added to
    [seen]), the second is the JavaScript object. *)
Record Loop := {
  commits : list (string * CommitRecord);
  seen : gset string;
}.

Section Script.
Context (api : JS.DateApi) (cfg : Config).

Definition sinceDate : Z := now cfg - lookbackDays cfg * 24 * 60 * 60 * 1000.

Definition mkInfo (data : CommitData) : CommitInfo :=
  {| info_message :=
       JS.or_lit (data_commit_message data ≫= fun m => JS.split m JS.nl !! 0%nat) "Update";
     info_url := data_html_url data;
     info_date := author_date data ||| committer_date data ||| None |}.

(** [fetchCommitDetails], lines 167-193: a cache hit, or one request whose
    failures (rejection, status, unreadable body) all come back as [null]
    without touching the cache. *)
Definition fetchCommitDetails (repoName sha : string) : M (option CommitInfo) :=
  let cacheKey := repoName +:+ "@" +:+ sha in
  fun w =>
    match commitCache w !! cacheKey with
    | Some info => (Ok (Some info), w)
    | None =>
        (let* response := fetch_commit repoName sha in
         match response with
         | FetchRejected => ret None
         | Http ok _ _ _ json =>
             if negb ok then ret None
             else match json with
                  | None => ret None
                  | Some data =>
                      let info := mkInfo data in
                      fun w' => (Ok (Some info), set_cache cacheKey info w')
                  end
         end) w
    end.

(** The body of [for (const commit of commitsInEvent)]. *)
Definition inlineStep (repoName repoUrl : string) (eventDate : Z)
    (commit : Commit) (st : Loop) : Flow Loop :=
  if negb (JS.truthy (sha commit)) then Continue st
  else
    let sha := default "" (sha commit) in
    if decide (sha ∈ seen st) then Continue st
    else
      let message := default "" (JS.split (JS.or_lit (commit_message commit) "Update") JS.nl !! 0%nat) in
      let commitUrl := "https://github.com/" +:+ repoName +:+ "/commit/" +:+ sha in
      let st' :=
        {| commits := commits st ++
             [(sha, {| repoName := repoName; repoUrl := repoUrl; message := message;
                       url := commitUrl; oid := JS.slice sha 0 (Some 7);
                       occurredAt := JS.Date_toISOString api eventDate |})];
           seen := {[ sha ]} ∪ seen st |} in
      if commitLimit cfg <=? Z.of_nat (length (commits st')) then Return st'
      else Continue st'.

(** The head-reference branch of the event body. *)
Definition headStep (repoName repoUrl : string) (eventDate : Z)
    (event : Event) (st : Loop) : M (Flow Loop) :=
  if JS.truthy (payload_head event)
     && negb (bool_decide (default "" (payload_head event) ∈ seen st))
  then
    let headSha := default "" (payload_head event) in
    let* details := fetchCommitDetails repoName headSha in
    match details with
    | None => ret (Continue st)
    | Some details =>
        let st' :=
          {| commits := commits st ++
               [(headSha,
                 {| repoName := repoName; repoUrl := repoUrl;
                    message := info_message details;
                    url := JS.or_lit (info_url details)
                             ("https://github.com/" +:+ repoName +:+ "/commit/" +:+ headSha);
                    oid := JS.slice headSha 0 (Some 7);
                    occurredAt := JS.or_lit (info_date details)
                                    (JS.Date_toISOString api eventDate) |})];
             seen := {[ headSha ]} ∪ seen st |} in
        if commitLimit cfg <=? Z.of_nat (length (commits st')) then ret (Return st')
        else ret (Continue st')
    end
  else ret (Continue st).

(** The body of [for (const event of events)]. *)
Definition eventStep (event : Event) (st : Loop) : M (Flow Loop) :=
  if negb (String.eqb (type event) "PushEvent") then ret (Continue st)
  else match JS.Date_parse api (created_at event) with
  | None => ret (Continue st)
  | Some eventDate =>
  if eventDate <? sinceDate then ret (Continue st)
  else
    if negb (JS.truthy (repo_name event)) then ret (Continue st)
    else
      let repoName := default "" (repo_name event) in
      let repoUrl := "https://github.com/" +:+ repoName in
      match payload_commits event with
      | Some (c :: cs) =>
          ret (for_of (inlineStep repoName repoUrl eventDate) (c :: cs) st)
      | _ => headStep repoName repoUrl eventDate event st
      end
  end.

(** The page loop, [remaining] iterations from page number [page] on. *)
Fixpoint pageLoop (remaining : nat) (page : Z) (st : Loop)
    : M (list (string * CommitRecord)) :=
  match remaining with
  | O => ret (commits st)
  | S remaining' =>
      let* response := fetch_events (login cfg) page (eventsPerPage cfg) in
      match response with
      | FetchRejected => throw Rejection
      | Http ok status statusText text json =>
          if negb ok then
            throw (Error ("GitHub events request failed: " +:+ JS.num status +:+ " "
                          +:+ statusText +:+ " — " +:+ text))
          else match json with
          | None => throw Rejection
          | Some NotAnArray => ret (commits st)
          | Some (EventArray []) => ret (commits st)
          | Some (EventArray events) =>
              let* f := for_of_M eventStep events st in
              match f with
              | Return st' => ret (commits st')
              | Continue st' => pageLoop remaining' (page + 1) st'
              end
          end
      end
  end.

(** [fetchRecentCommits] with each record next to the SHA it stands for. *)
Definition fetchRecentCommits_keyed : M (list (string * CommitRecord)) :=
  pageLoop (Z.to_nat (eventMaxPages cfg)) 1 {| commits := []; seen := ∅ |}.

Definition fetchRecentCommits : M (list CommitRecord) :=
  let* keyed := fetchRecentCommits_keyed in ret (map snd keyed).

Definition formatDate (dateString : option string) : string :=
  if negb (JS.truthy dateString) then ""
  else match JS.Date_parse api (default "" dateString) with
       | None => ""
       | Some t => JS.slice (JS.Date_toISOString api t) 0 (Some 10)
       end.

Definition commitRow (commit : CommitRecord) : string :=
  let date := formatDate (Some (occurredAt commit)) in
  JS.tpl "  <tr>
    <td><code>" +:+ date +:+ JS.tpl "</code></td>
    <td><a href=`" +:+ url commit +:+ JS.tpl "` target=`_blank` rel=`noopener noreferrer`>" +:+ message commit +:+ JS.tpl "</a></td>
    <td><a href=`" +:+ repoUrl commit +:+ JS.tpl "` target=`_blank` rel=`noopener noreferrer`>" +:+ repoName commit +:+ JS.tpl "</a></td>
  </tr>".

(** [buildCommitMarkup], lines 284-301. *)
Definition buildCommitMarkup (commits : list CommitRecord) : string :=
  match commits with
  | [] => JS.tpl "<div align=`center`>
  <!-- No recent commits available -->
</div>"
  | _ =>
      let rows := JS.join JS.nl (map commitRow commits) in
      JS.tpl "<div align=`center`>
  <table style=`width:90%;max-width:720px;border-collapse:collapse;font-family:'Segoe UI', Ubuntu, sans-serif;font-size:14px;color:#c9d1d9;`>
    <thead>
      <tr style=`text-align:left;color:#8b949e;font-size:13px;`>
        <th style=`padding:6px 8px;`>Date</th>
        <th style=`padding:6px 8px;`>Commit</th>
        <th style=`padding:6px 8px;`>Repository</th>
      </tr>
    </thead>
    <tbody>
" +:+ rows +:+ JS.tpl "
    </tbody>
  </table>
</div>"
  end.

Definition updateReadme : string -> M unit :=
  updateReadme_with START_TAG END_TAG "Recent commit markers not found in README.".

(** The top-level [try]/[catch]: the exit code of the process. *)
Definition main : World -> Z * World :=
  fun w =>
    match (let* commits := fetchRecentCommits in
           updateReadme (buildCommitMarkup commits)) w with
    | (Ok _, w') => (0, w')
    | (Throw _, w') => (1, w')
    end.

End Script.
End RecentCommits.

(** ** scripts/update-language-badge.mjs *)
Module Badge.

Record Config := {
  login : string;
  repoLimit : Z;
  perRepoLanguageLimit : Z;
  topLanguagesLimit : Z;
  token : option string;
}.

Record LangInfo := {
  size : Z;
  color : string;
}.

(** [languageMap]: a JS [Map] iterates in insertion order, and [buildSvg]
    observes that order, so the map is an association list with one entry
    per key, new keys appended. *)
Definition LanguageMap := list (string * LangInfo).

Fixpoint map_has (m : LanguageMap) (name : string) : bool :=
  match m with
  | [] => false
  | (k, _) :: m' => String.eqb k name || map_has m' name
  end.

(** [languageMap.set(name, info)] for a key that is absent. *)
Definition map_set_new (m : LanguageMap) (name : string) (info : LangInfo) : LanguageMap :=
  m ++ [(name, info)].

(** In-place update of the entry object stored under [name]. *)
Fixpoint map_update (m : LanguageMap) (name : string) (f : LangInfo -> LangInfo) : LanguageMap :=
  match m with
  | [] => []
  | (k, v) :: m' =>
      if String.eqb k name then (k, f v) :: m'
      else (k, v) :: map_update m' name f
  end.

(** The body of [for (const edge of edges)]. *)
Definition edgeStep (languageMap : LanguageMap) (edge : LanguageEdge) : LanguageMap :=
  let size_ := default 0 (edge_size edge) in
  if negb (JS.truthy (node_name edge)) || (size_ =? 0) then languageMap
  else
    let name := default "" (node_name edge) in
    let color_ := JS.or_lit (node_color edge) "#58a6ff" in
    let languageMap :=
      if negb (map_has languageMap name)
      then map_set_new languageMap name {| size := 0; color := color_ |}
      else languageMap in
    map_update languageMap name
      (fun entry =>
         let entry := {| size := size entry + size_; color := color entry |} in
         if String.eqb (color entry) "" && negb (String.eqb color_ "")
         then {| size := size entry; color := color_ |}
         else entry).

(** The body of [for (const repo of repos)]. *)
Definition repoStep (languageMap : LanguageMap) (repo : RepoNode) : LanguageMap :=
  match languages_edges repo with
  | None => languageMap
  | Some edges => fold_left edgeStep edges languageMap
  end.

(** The accumulation loop of [fetchLanguages]. *)
Definition accumulate (repos : list RepoNode) : LanguageMap :=
  fold_left repoStep repos [].

(** [JSON.stringify] of an array whose elements are given by their JSON text. *)
Definition stringify_array (items : list string) : string :=
  "[" +:+ JS.join "," items +:+ "]".

Section Script.
Context (fp : JS.Arith) (cfg : Config).

(** [fetchLanguages], lines 45-91. *)
Definition fetchLanguages : M LanguageMap :=
  let* response := fetch_graphql (login cfg) (repoLimit cfg) (perRepoLanguageLimit cfg) in
  match response with
  | FetchRejected => throw Rejection
  | Http ok status statusText text json =>
      if negb ok then
        throw (Error ("GitHub GraphQL request failed: " +:+ JS.num status +:+ " "
                      +:+ statusText +:+ " — " +:+ text))
      else match json with
      | None => throw Rejection
      | Some payload =>
          match errors payload with
          | Some (e :: es) =>
              throw (Error ("GraphQL returned errors: " +:+ stringify_array (e :: es)))
          | _ => ret (accumulate (default [] (nodes payload)))
          end
      end
  end.

(** [Array.prototype.sort(cmp)] is stable; for a comparator that orders its
    arguments consistently the result is the stable sorted arrangement,
    computed here by insertion from the right: [x] goes in front of the
    first [y] with [cmp x y <= 0]. *)
Fixpoint sort_insert {A} (cmp : A -> A -> Z) (x : A) (l : list A) : list A :=
  match l with
  | [] => [x]
  | y :: l' => if cmp x y <=? 0 then x :: y :: l' else y :: sort_insert cmp x l'
  end.

Definition sort {A} (cmp : A -> A -> Z) (l : list A) : list A :=
  foldr (sort_insert cmp) [] l.

(** The [entries] array of [buildSvg]: name next to the spread [info]. *)
Definition entriesOf (languageMap : LanguageMap) : list (string * LangInfo) :=
  JS.slice_list
    (sort (fun a b => size (snd b) - size (snd a)) languageMap)
    0 (Some (topLanguagesLimit cfg)).

Definition totalOf (entries : list (string * LangInfo)) : Z :=
  fold_left (fun sum lang => sum + size (snd lang)) entries 0.

(** The numbers computed for one entry inside [entries.map]. *)
Record Row := {
  row_name : string;
  percent : Z;
  y : Z;
  barX : Z;
  barWidth : Z;
  valueWidth : Z;
  row_color : string;
}.

Definition rowOf (total : Z) (index : nat) (entry : string * LangInfo) : Row :=
  {| row_name := fst entry;
     percent := Z.max 1 (JS.Math_round (JS.scaled_quotient fp (size (snd entry)) total 100));
     y := 80 + Z.of_nat index * 40;
     barX := 170;
     barWidth := 250;
     valueWidth := JS.Math_round (JS.scaled_quotient fp (size (snd entry)) total 250);
     row_color := JS.or_lit (Some (color (snd entry))) "#58a6ff" |}.

Definition renderRow (r : Row) : string :=
  JS.tpl "
      <g>
        <circle cx=`40` cy=`" +:+ JS.num (y r - 8) +:+ JS.tpl "` r=`6` fill=`" +:+ row_color r +:+ JS.tpl "` />
        <text class=`label` x=`60` y=`" +:+ JS.num (y r - 4) +:+ JS.tpl "`>" +:+ row_name r +:+ JS.tpl "</text>
        <rect class=`track` x=`" +:+ JS.num (barX r) +:+ JS.tpl "` y=`" +:+ JS.num (y r - 20) +:+ JS.tpl "` width=`" +:+ JS.num (barWidth r) +:+ JS.tpl "` height=`18` rx=`9` />
        <rect class=`bar` x=`" +:+ JS.num (barX r) +:+ JS.tpl "` y=`" +:+ JS.num (y r - 20) +:+ JS.tpl "` width=`" +:+ JS.num (Z.max 4 (valueWidth r)) +:+ JS.tpl "` height=`18` rx=`9` fill=`" +:+ row_color r +:+ JS.tpl "` />
        <text class=`value` x=`" +:+ JS.num (barX r + barWidth r + 15) +:+ JS.tpl "` y=`" +:+ JS.num (y r - 5) +:+ JS.tpl "`>" +:+ JS.num (percent r) +:+ JS.tpl "%</text>
      </g>".

(** The rows of the rendered badge, [None] on the placeholder path
    ([!entries.length || !total]). *)
Definition rowsOf (languageMap : LanguageMap) : option (list Row) :=
  let entries := entriesOf languageMap in
  let total := totalOf entries in
  if bool_decide (entries = []) || (total =? 0) then None
  else Some (imap (rowOf total) entries).

(** [buildSvg], lines 93-144. *)
Definition buildSvg (languageMap : LanguageMap) : string :=
  match rowsOf languageMap with
  | None => JS.tpl "<svg xmlns=`http://www.w3.org/2000/svg` width=`520` height=`140` role=`img` aria-label=`No language data`>
  <style>
    text { font-family: 'Segoe UI', Ubuntu, sans-serif; fill: #c9d1d9; }
    .title { font-size: 20px; font-weight: 600; }
  </style>
  <rect width=`100%` height=`100%` rx=`16` fill=`#0d1117` />
  <text class=`title` x=`260` y=`70` text-anchor=`middle`>Languages</text>
</svg>"
  | Some rows_ =>
      let rows := JS.join JS.nl (map renderRow rows_) in
      let height := 110 + Z.of_nat (length rows_) * 40 in
      JS.tpl "<svg xmlns=`http://www.w3.org/2000/svg` width=`520` height=`" +:+ JS.num height +:+ JS.tpl "` role=`img` aria-label=`Languages across contributions`>
  <style>
    text { font-family: 'Segoe UI', Ubuntu, sans-serif; fill: #c9d1d9; }
    .title { font-size: 20px; font-weight: 600; }
    .label { font-size: 14px; font-weight: 500; }
    .value { font-size: 14px; fill: #8b949e; }
    .track { fill: #21262d; }
  </style>
  <rect width=`100%` height=`100%` rx=`16` fill=`#0d1117` />
  <text class=`title` x=`40` y=`40`>Languages across contributions</text>
  " +:+ rows +:+ JS.tpl "
</svg>"
  end.

(** The percentage labels printed by [buildSvg], in display order. *)
Definition percentLabels (languageMap : LanguageMap) : list Z :=
  match rowsOf languageMap with
  | None => []
  | Some rows => map percent rows
  end.

(** The script from its token check on: the exit code of the process. *)
Definition main : World -> Z * World :=
  fun w =>
    if negb (JS.truthy (token cfg)) then (0, w)
    else
      match (let* languageMap := fetchLanguages in
             writeFile BadgeSvg (buildSvg languageMap)) w with
      | (Ok _, w') => (0, w')
      | (Throw _, w') => (1, w')
      end.

End Script.
End Badge.

(** * Properties *)

(** ** Facts about the string helpers *)
Module JSFacts.
Import JS.

Lemma chars_str (l : list ascii) : chars (str l) = l.
Proof. apply list_ascii_of_string_of_list_ascii. Qed.

Lemma str_chars (s : string) : str (chars s) = s.
Proof. apply string_of_list_ascii_of_string. Qed.

Lemma chars_inj (s t : string) : chars s = chars t -> s = t.
Proof. intros H. rewrite <- (str_chars s), <- (str_chars t). now rewrite H. Qed.

Lemma chars_app (s t : string) : chars (s +:+ t) = chars s ++ chars t.
Proof.
  induction s as [|c s IH]; [reflexivity|].
  change (String c s +:+ t) with (String c (s +:+ t)).
  unfold chars in *. simpl. now rewrite IH.
Qed.

Lemma chars_length (s : string) : length (chars s) = String.length s.
Proof. induction s as [|c s IH]; simpl; [reflexivity|]. unfold chars in *. simpl. now rewrite IH. Qed.

Lemma chars_nl : chars nl = [ascii_of_nat 10].
Proof. reflexivity. Qed.

Example split_pull :
  split "https://github.com/o/r/pull/7" "/pull/" = ["https://github.com/o/r"; "7"].
Proof. reflexivity. Qed.

Example split_trailing : split "a/pull/" "/pull/" = ["a"; ""].
Proof. reflexivity. Qed.

Example split_first_line : split ("subject" +:+ nl +:+ nl +:+ "body") nl !! 0%nat = Some "subject".
Proof. reflexivity. Qed.

Example indexOf_missing : indexOf "abc" "x" = -1.
Proof. reflexivity. Qed.

Example indexOf_found : indexOf "abcabc" "ca" = 2.
Proof. reflexivity. Qed.

Example slice_prefix : slice "0123456789abcdef" 0 (Some 7) = "0123456".
Proof. reflexivity. Qed.

Example slice_negative : slice "abcdef" (-2) None = "ef".
Proof. reflexivity. Qed.

Example num_negative : num (-12) = "-12".
Proof. vm_compute. reflexivity. Qed.

(** [occ p l j]: the pattern [p] occurs in [l] at position [j]. *)
Definition occ (p l : list ascii) (j : nat) : Prop :=
  forall i x, p !! i = Some x -> l !! (j + i)%nat = Some x.

Lemma occ_cons p x l j : occ p (x :: l) (S j) <-> occ p l j.
Proof. unfold occ. split; intros H i y Hp; specialize (H i y Hp); exact H. Qed.

Lemma starts_with_occ p l : starts_with p l = true <-> occ p l 0.
Proof.
  revert l. induction p as [|x p IH]; intros l.
  - split; [|reflexivity]. intros _ i y Hp. destruct i; discriminate.
  - destruct l as [|y l]; simpl.
    + split; [discriminate|]. intros H. specialize (H 0%nat x eq_refl). discriminate.
    + rewrite andb_true_iff, bool_decide_eq_true, IH. split.
      * intros [-> H] [|i] z Hp; simpl in *; [congruence|]. apply (H i z Hp).
      * intros H. split.
        -- specialize (H 0%nat x eq_refl). simpl in H. congruence.
        -- intros i z Hp. apply (H (S i) z). exact Hp.
Qed.

(** What [find_from] returns: -1 when the pattern occurs nowhere, and
    otherwise the first position at which it occurs. *)
Lemma find_from_spec p l i :
  (find_from p l i = -1 /\ forall j, ~ occ p l j) \/
  (exists k, find_from p l i = Z.of_nat (i + k) /\ occ p l k /\
             forall j, (j < k)%nat -> ~ occ p l j).
Proof.
  revert i. induction l as [|x l IH]; intros i; simpl.
  - destruct (starts_with p []) eqn:E.
    + right. exists 0%nat. rewrite Nat.add_0_r. apply starts_with_occ in E.
      repeat split; [exact E|]. intros j Hj. lia.
    + left. split; [reflexivity|]. intros j Hj.
      destruct p as [|y p]; [discriminate|].
      specialize (Hj 0%nat y eq_refl). rewrite lookup_nil in Hj. discriminate.
  - destruct (starts_with p (x :: l)) eqn:E.
    + right. exists 0%nat. rewrite Nat.add_0_r. apply starts_with_occ in E.
      repeat split; [exact E|]. intros j Hj. lia.
    + assert (H0 : ~ occ p (x :: l) 0).
      { intros H. apply starts_with_occ in H. congruence. }
      destruct (IH (S i)) as [[Hr Hn]|(k & Hr & Hk & Hn)].
      * left. split; [exact Hr|]. intros [|j]; [exact H0|].
        rewrite occ_cons. apply Hn.
      * right. exists (S k). split; [rewrite Hr; f_equal; lia|]. split.
        -- now apply occ_cons.
        -- intros [|j] Hj; [exact H0|]. rewrite occ_cons. apply Hn. lia.
Qed.

Lemma find_from_first p l k :
  occ p l k -> (forall j, (j < k)%nat -> ~ occ p l j) -> find_from p l 0 = Z.of_nat k.
Proof.
  intros Hk Hn. destruct (find_from_spec p l 0) as [[_ Hno]|(k' & -> & Hk' & Hn')].
  - destruct (Hno k Hk).
  - simpl. f_equal. destruct (lt_eq_lt_dec k k') as [[Hlt|Heq]|Hgt]; [|exact (eq_sym Heq)|].
    + destruct (Hn' k Hlt Hk).
    + destruct (Hn k' Hgt Hk').
Qed.

Lemma find_from_found p l z :
  find_from p l 0 = z -> z <> -1 ->
  exists k, z = Z.of_nat k /\ occ p l k /\ forall j, (j < k)%nat -> ~ occ p l j.
Proof.
  intros Hz Hne. destruct (find_from_spec p l 0) as [[Hr _]|(k & Hr & Hk)]; [congruence|].
  exists k. split; [|exact Hk]. rewrite <- Hz, Hr. reflexivity.
Qed.

Lemma find_from_none p l : find_from p l 0 = -1 -> forall j, ~ occ p l j.
Proof.
  intros Hz. destruct (find_from_spec p l 0) as [[_ Hn]|(k & Hr & _)]; [exact Hn|].
  rewrite Hz in Hr. lia.
Qed.

Lemma slice_list_to {A} (l : list A) (a : Z) :
  0 <= a -> slice_list l 0 (Some a) = take (Z.to_nat a) l.
Proof.
  intros Ha. unfold slice_list, clamp_index.
  change (0 <? 0) with false. cbv iota.
  replace (a <? 0) with false by lia.
  replace (Z.min 0 (Z.of_nat (length l))) with 0 by lia.
  change (Z.to_nat 0) with 0%nat. rewrite drop_0, Z.sub_0_r.
  destruct (Z.min_spec a (Z.of_nat (length l))) as [[Hlt ->]|[Hge ->]]; [reflexivity|].
  rewrite Nat2Z.id. rewrite !firstn_all2 by lia. reflexivity.
Qed.

Lemma slice_list_from {A} (l : list A) (e : Z) :
  0 <= e -> slice_list l e None = drop (Z.to_nat e) l.
Proof.
  intros He. unfold slice_list, clamp_index.
  replace (e <? 0) with false by lia.
  destruct (Z.min_spec e (Z.of_nat (length l))) as [[Hlt ->]|[Hge ->]].
  - apply firstn_all2. rewrite length_drop. lia.
  - rewrite Nat2Z.id, Z.sub_diag. change (Z.to_nat 0) with 0%nat.
    rewrite take_0. rewrite !skipn_all2 by lia. reflexivity.
Qed.

Lemma occ_bound p l j : occ p l j -> p <> [] -> (j + length p <= length l)%nat.
Proof.
  intros H Hp.
  destruct (lookup_lt_is_Some_2 p (length p - 1)) as [x Hx].
  { destruct p; [congruence|simpl; lia]. }
  apply H in Hx. apply lookup_lt_Some in Hx. lia.
Qed.

Lemma occ_local p l l' j :
  (forall i, (i < j + length p)%nat -> l !! i = l' !! i) -> occ p l j -> occ p l' j.
Proof.
  intros Heq H i x Hp. rewrite <- Heq; [now apply H|].
  apply lookup_lt_Some in Hp. lia.
Qed.

Lemma occ_nil l j : occ [] l j.
Proof. intros i x H. rewrite lookup_nil in H. discriminate. Qed.

(** Two occurrences cannot overlap when the first code unit of the second
    pattern does not occur in the first pattern after its first position. *)
Lemma occ_apart p q x q' l s e :
  q = x :: q' -> x ∉ tail p ->
  occ p l s -> occ q l e -> (s < e)%nat -> (s + length p <= e)%nat.
Proof.
  intros -> Hx Hp Hq Hlt.
  destruct (le_lt_dec (s + length p) e) as [Hle|Hgt]; [exact Hle|exfalso].
  destruct (lookup_lt_is_Some_2 p (e - s)) as [y Hy]; [lia|].
  pose proof (Hp _ _ Hy) as H1. replace (s + (e - s))%nat with e in H1 by lia.
  pose proof (Hq 0%nat x eq_refl) as H2. rewrite Nat.add_0_r in H2.
  assert (y = x) by congruence. subst y.
  apply Hx. apply (list_elem_of_lookup_2 _ (e - s - 1)).
  destruct p as [|z p]; [rewrite lookup_nil in Hy; discriminate|]. simpl.
  rewrite lookup_cons_ne_0 in Hy by lia.
  replace (e - s - 1)%nat with (pred (e - s)) by lia. exact Hy.
Qed.

(** *** The spliced document, as a sequence of code units *)
Section Spliced.
Variables (c m : list ascii) (a e : nat).
Hypothesis a_le : (a <= length c)%nat.

Definition nlc : ascii := ascii_of_nat 10.

Definition spliced : list ascii := take a c ++ [nlc] ++ m ++ [nlc] ++ drop e c.

Lemma spliced_before i : (i < a)%nat -> spliced !! i = c !! i.
Proof.
  intros Hi. unfold spliced. rewrite lookup_app_l by (rewrite length_take; lia).
  now apply lookup_take_lt.
Qed.

Lemma spliced_nl1 : spliced !! a = Some nlc.
Proof.
  unfold spliced. rewrite lookup_app_r by (rewrite length_take; lia).
  rewrite length_take. replace (a - a `min` length c)%nat with 0%nat by lia. reflexivity.
Qed.

Lemma spliced_markup i : (i < length m)%nat -> spliced !! (a + 1 + i)%nat = m !! i.
Proof.
  intros Hi. unfold spliced. rewrite lookup_app_r by (rewrite length_take; lia).
  rewrite length_take. replace (a + 1 + i - a `min` length c)%nat with (S i) by lia.
  simpl. now rewrite lookup_app_l.
Qed.

Lemma spliced_nl2 : spliced !! (a + 1 + length m)%nat = Some nlc.
Proof.
  unfold spliced. rewrite lookup_app_r by (rewrite length_take; lia).
  rewrite length_take. replace (a + 1 + length m - a `min` length c)%nat with (S (length m)) by lia.
  simpl. rewrite lookup_app_r by lia. now rewrite Nat.sub_diag.
Qed.

Lemma spliced_after i : spliced !! (a + 2 + length m + i)%nat = c !! (e + i)%nat.
Proof.
  unfold spliced. rewrite lookup_app_r by (rewrite length_take; lia).
  rewrite length_take.
  replace (a + 2 + length m + i - a `min` length c)%nat with (S (length m + S i)) by lia.
  simpl. rewrite lookup_app_r by lia.
  replace (length m + S i - length m)%nat with (S i) by lia. simpl.
  apply lookup_drop.
Qed.

Lemma take_spliced : take a spliced = take a c.
Proof.
  unfold spliced. rewrite take_app_le by (rewrite length_take; lia).
  rewrite take_take. f_equal. lia.
Qed.

Lemma drop_spliced : drop (a + 2 + length m) spliced = drop e c.
Proof.
  unfold spliced.
  rewrite drop_app_ge by (rewrite length_take; lia). rewrite length_take.
  replace (a + 2 + length m - a `min` length c)%nat with (S (length m + 1)) by lia.
  simpl. rewrite drop_app_ge by lia.
  replace (length m + 1 - length m)%nat with 1%nat by lia. reflexivity.
Qed.

End Spliced.

(** First occurrences of the two markers in a spliced document. *)
Section Resplice.
Variables (S E c m : list ascii) (s e : nat).
Hypothesis S_at : occ S c s.
Hypothesis S_first : forall j, (j < s)%nat -> ~ occ S c j.
Hypothesis E_at : occ E c e.
Hypothesis E_first : forall j, (j < e)%nat -> ~ occ E c j.
Hypothesis in_order : (s < e)%nat.

Lemma E_nonempty : E <> [].
Proof. intros ->. apply (E_first 0%nat); [lia|apply occ_nil]. Qed.

Lemma before_fits : (s + length S <= length c)%nat.
Proof.
  destruct S as [|x S'] eqn:HS.
  - pose proof (occ_bound _ _ _ E_at E_nonempty). simpl. lia.
  - rewrite <- HS. apply occ_bound; [rewrite HS; exact S_at|rewrite HS; discriminate].
Qed.

Let next := spliced c m (s + length S) e.

Lemma start_kept : find_from S next 0 = Z.of_nat s.
Proof.
  pose proof before_fits as Hfit.
  apply find_from_first.
  - apply (occ_local S c); [|exact S_at].
    intros i Hi. symmetry. now apply spliced_before.
  - intros j Hj Hocc. apply (S_first j Hj).
    apply (occ_local S next); [|exact Hocc].
    intros i Hi. apply spliced_before; [exact Hfit|lia].
Qed.

Hypothesis E_no_nl : nlc ∉ E.
Hypothesis E_head : forall x E', E = x :: E' -> x ∉ tail S.
Hypothesis markup_clean : forall j, ~ occ E m j.

Lemma end_moved : find_from E next 0 = Z.of_nat (s + length S + 2 + length m).
Proof.
  pose proof before_fits as Hfit. pose proof E_nonempty as HE.
  set (a := (s + length S)%nat) in *.
  assert (Hwin : forall j i, occ E next j -> (j <= i < j + length E)%nat ->
                        next !! i <> Some nlc).
  { intros j i Hocc Hi Hnl.
    destruct (lookup_lt_is_Some_2 E (i - j)) as [x Hx]; [lia|].
    pose proof (Hocc _ _ Hx) as H1. replace (j + (i - j))%nat with i in H1 by lia.
    assert (x = nlc) by congruence. subst x.
    apply E_no_nl. now apply (list_elem_of_lookup_2 _ (i - j)). }
  apply find_from_first.
  - intros i x Hx. unfold next. fold a. rewrite spliced_after by exact Hfit.
    now apply E_at.
  - intros j Hj Hocc.
    assert (HlenE : (0 < length E)%nat) by (destruct E; [congruence|simpl; lia]).
    destruct (le_lt_dec (j + length E) a) as [Hin|Hout].
    + (* the occurrence lies in the kept prefix *)
      assert (Hc : occ E c j).
      { apply (occ_local E next); [|exact Hocc].
        intros i Hi. apply spliced_before; [exact Hfit|lia]. }
      assert (Hej : (e <= j)%nat).
      { destruct (le_lt_dec e j) as [H|H]; [exact H|]. destruct (E_first j H Hc). }
      destruct E as [|x E'] eqn:HEq; [congruence|].
      pose proof (occ_apart S (x :: E') x E' c s j eq_refl (E_head x E' eq_refl)
                    S_at Hc ltac:(lia)) as Hap.
      simpl in Hin. unfold a in Hin. lia.
    + destruct (le_lt_dec j a) as [Hja|Hja].
      * (* the window covers the first newline *)
        apply (Hwin j a Hocc); [lia|]. apply spliced_nl1. exact Hfit.
      * destruct (le_lt_dec (j + length E) (a + 1 + length m)) as [Hm|Hm].
        -- (* the occurrence lies in the markup *)
           apply (markup_clean (j - (a + 1))).
           intros i x Hx. pose proof (Hocc _ _ Hx) as H1.
           pose proof (lookup_lt_Some _ _ _ Hx) as Hi.
           replace (j + i)%nat with (a + 1 + (j - (a + 1) + i))%nat in H1 by lia.
           unfold next in H1. fold a in H1.
           rewrite spliced_markup in H1 by (try exact Hfit; lia). exact H1.
        -- (* the window covers the second newline *)
           apply (Hwin j (a + 1 + length m)%nat Hocc); [lia|].
           apply spliced_nl2. exact Hfit.
Qed.

End Resplice.

End JSFacts.

(** ** The README splice *)
Module ReadmeFacts.
Import JS JSFacts.

(** The two reporters share [updateReadme] up to their constants. *)
Inductive Reporter := PRs | Commits.

Definition START_TAG_of (r : Reporter) : string :=
  match r with PRs => RecentPRs.START_TAG | Commits => RecentCommits.START_TAG end.

Definition END_TAG_of (r : Reporter) : string :=
  match r with PRs => RecentPRs.END_TAG | Commits => RecentCommits.END_TAG end.

Definition updateReadme_of (r : Reporter) : string -> M unit :=
  match r with PRs => RecentPRs.updateReadme | Commits => RecentCommits.updateReadme end.

(** Both markers occur in the document, the end marker after the start
    marker: the negation of the guard of [updateReadme]. *)
Definition markers_in_order (r : Reporter) (content : string) : Prop :=
  indexOf content (START_TAG_of r) <> -1 /\
  indexOf content (END_TAG_of r) <> -1 /\
  indexOf content (START_TAG_of r) < indexOf content (END_TAG_of r).

(** The message of a thrown error mentions missing markers. *)
Definition is_markers_not_found (e : Exn) : Prop :=
  exists pre post, e = Error (pre +:+ "markers not found" +:+ post).

Lemma updateReadme_of_unfold r :
  exists msg, is_markers_not_found (Error msg) /\
    updateReadme_of r = updateReadme_with (START_TAG_of r) (END_TAG_of r) msg.
Proof.
  destruct r.
  - exists "Recent PR markers not found in README.". split; [|reflexivity].
    exists "Recent PR ", " in README.". reflexivity.
  - exists "Recent commit markers not found in README.". split; [|reflexivity].
    exists "Recent commit ", " in README.". reflexivity.
Qed.

Lemma occ_split p l j :
  occ p l j -> (j <= length l)%nat -> l = take j l ++ p ++ drop (j + length p) l.
Proof.
  intros H Hj.
  assert (Hp : take (length p) (drop j l) = p).
  { apply list_eq. intros i. destruct (le_lt_dec (length p) i) as [Hi|Hi].
    - rewrite lookup_take_ge by lia. symmetry. now apply lookup_ge_None_2.
    - rewrite lookup_take_lt by lia. rewrite lookup_drop.
      destruct (lookup_lt_is_Some_2 p i Hi) as [x Hx]. rewrite Hx. now apply H. }
  rewrite <- (take_drop j l) at 1. f_equal.
  rewrite <- (take_drop (length p) (drop j l)) at 1. rewrite Hp. f_equal.
  rewrite drop_drop. reflexivity.
Qed.

Lemma occ_drop p l j :
  occ p l j -> (j + length p <= length l)%nat -> drop j l = p ++ drop (j + length p) l.
Proof.
  intros H Hj.
  transitivity (drop j (take j l ++ p ++ drop (j + length p) l)).
  - f_equal. apply occ_split; [exact H|lia].
  - apply drop_app_length'. rewrite length_take. lia.
Qed.

Lemma occ_take p l j :
  occ p l j -> (j + length p <= length l)%nat -> take (j + length p) l = take j l ++ p.
Proof.
  intros H Hj.
  transitivity (take (j + length p) ((take j l ++ p) ++ drop (j + length p) l)).
  - f_equal. rewrite <- app_assoc. apply occ_split; [exact H|lia].
  - apply take_app_length'. rewrite length_app, length_take. lia.
Qed.

(** The success path of [updateReadme], with the new content spelled out. *)
Lemma updateReadme_with_ok S E msg markup w content :
  readme w = Some content ->
  indexOf content S <> -1 -> indexOf content E <> -1 ->
  indexOf content S < indexOf content E ->
  exists s e,
    indexOf content S = Z.of_nat s /\ indexOf content E = Z.of_nat e /\
    occ (chars S) (chars content) s /\ (forall j, (j < s)%nat -> ~ occ (chars S) (chars content) j) /\
    occ (chars E) (chars content) e /\ (forall j, (j < e)%nat -> ~ occ (chars E) (chars content) j) /\
    (s < e)%nat /\
    let next := str (spliced (chars content) (chars markup) (s + length (chars S)) e) in
    updateReadme_with S E msg markup w =
      (Ok tt, if decide (next = content) then w else write_file README next w).
Proof.
  intros Hr HS HE Hlt.
  destruct (find_from_found _ _ _ eq_refl HS) as (s & Hs & Hs1 & Hs2).
  destruct (find_from_found _ _ _ eq_refl HE) as (e & He & He1 & He2).
  fold (indexOf content S) in Hs. fold (indexOf content E) in He.
  exists s, e. repeat split; try assumption; [lia|].
  intros next. unfold updateReadme_with, bind, readFile_README. rewrite Hr.
  replace (indexOf content S =? -1) with false by lia.
  replace (indexOf content E =? -1) with false by lia.
  replace (indexOf content E <=? indexOf content S) with false by lia.
  cbv [orb].
  assert (Hnext : slice content 0 (Some (indexOf content S + Z.of_nat (String.length S)))
            +:+ nl +:+ markup +:+ nl +:+ slice content (indexOf content E) None = next).
  { apply chars_inj. unfold next. rewrite chars_str.
    rewrite !chars_app. unfold slice. rewrite !chars_str, chars_nl.
    rewrite slice_list_to by lia. rewrite slice_list_from by lia.
    rewrite Hs, He, <- chars_length, <- Nat2Z.inj_add, !Nat2Z.id. reflexivity. }
  rewrite Hnext. destruct (decide (next = content)); reflexivity.
Qed.

(** The first code unit of either end marker does not occur in the start
    marker after its first position, and no end marker holds a newline. *)
Lemma tags_apart r x E' : chars (END_TAG_of r) = x :: E' -> x ∉ tail (chars (START_TAG_of r)).
Proof.
  destruct r; intros H; vm_compute in H; injection H as <- _;
    apply (bool_decide_unpack _); vm_compute; exact I.
Qed.

Lemma end_tag_no_nl r : nlc ∉ chars (END_TAG_of r).
Proof. destruct r; apply (bool_decide_unpack _); vm_compute; exact I. Qed.

(** A remote side that rejects every request, and a process that has not
    done anything yet next to a README with the given content. *)
Definition offline : Server :=
  {| events_endpoint _ _ _ _ := FetchRejected;
     commit_endpoint _ _ _ := FetchRejected;
     graphql_endpoint _ _ _ _ := FetchRejected |}.

Definition fresh_world (sv : Server) (content : option string) : World :=
  {| readme := content; badge := None; writes := []; requests := [];
     server := sv; commitCache := ∅ |}.

(** C6. If the start marker or the end marker is absent from the README, or
    the end marker's first occurrence is at or before the start marker's,
    [updateReadme] (of either reporter) throws an error whose message says
    "markers not found", and nothing is written: the world, README and write
    log included, is the one it started from. *)
Theorem updateReadme_markers_missing r markup w content :
  readme w = Some content ->
  indexOf content (START_TAG_of r) = -1 \/
  indexOf content (END_TAG_of r) = -1 \/
  indexOf content (END_TAG_of r) <= indexOf content (START_TAG_of r) ->
  exists e, is_markers_not_found e /\ updateReadme_of r markup w = (Throw e, w).
Proof.
  intros Hr Hbad. destruct (updateReadme_of_unfold r) as (msg & Hmsg & ->).
  exists (Error msg). split; [exact Hmsg|].
  unfold updateReadme_with, bind, readFile_README. rewrite Hr.
  assert (Hg : (indexOf content (START_TAG_of r) =? -1)
               || (indexOf content (END_TAG_of r) =? -1)
               || (indexOf content (END_TAG_of r) <=? indexOf content (START_TAG_of r)) = true).
  { rewrite !orb_true_iff, !Z.eqb_eq, Z.leb_le. tauto. }
  rewrite Hg. reflexivity.
Qed.

Lemma updateReadme_markers_missing_witness :
  exists e, is_markers_not_found e /\
    updateReadme_of Commits "<p>rows</p>"
      (fresh_world offline (Some "# Profile <!-- START_RECENT_COMMITS --> text")) =
    (Throw e, fresh_world offline (Some "# Profile <!-- START_RECENT_COMMITS --> text")).
Proof.
  apply (updateReadme_markers_missing Commits "<p>rows</p>" _
           "# Profile <!-- START_RECENT_COMMITS --> text").
  - reflexivity.
  - right. left. vm_compute. reflexivity.
Defined.

(** The splice on the text of the README: with both markers in order,
    [updateReadme] (of either reporter) succeeds, the text reads
    [pre ++ START ++ interior ++ END ++ post] with [START] and [END] the
    first occurrences of the markers, and afterwards it reads
    [pre ++ START ++ newline ++ markup ++ newline ++ END ++ post]. *)
Lemma splice_frame r markup w content :
  readme w = Some content ->
  markers_in_order r content ->
  exists pre interior post w',
    content = pre +:+ START_TAG_of r +:+ interior +:+ END_TAG_of r +:+ post /\
    Z.of_nat (String.length pre) = indexOf content (START_TAG_of r) /\
    Z.of_nat (String.length (pre +:+ START_TAG_of r +:+ interior)) =
      indexOf content (END_TAG_of r) /\
    updateReadme_of r markup w = (Ok tt, w') /\
    readme w' = Some (pre +:+ START_TAG_of r +:+ nl +:+ markup +:+ nl
                      +:+ END_TAG_of r +:+ post) /\
    badge w' = badge w.
Proof.
  intros Hr (HS & HE & Hlt). destruct (updateReadme_of_unfold r) as (msg & _ & ->).
  destruct (updateReadme_with_ok _ _ msg markup w content Hr HS HE Hlt)
    as (s & e & Hs & He & Hs1 & Hs2 & He1 & He2 & Hse & Hrun).
  set (S := chars (START_TAG_of r)) in *. set (E := chars (END_TAG_of r)) in *.
  set (c := chars content) in *.
  pose proof (E_nonempty E c s e He1 He2 Hse) as HEne.
  pose proof (before_fits S E c s e Hs1 Hs2 He1 He2 Hse) as Hfit.
  assert (Hap : (s + length S <= e)%nat).
  { destruct E as [|x E'] eqn:HEq; [congruence|].
    apply (occ_apart S (x :: E') x E' c s e eq_refl); try assumption.
    apply (tags_apart r x E'). exact HEq. }
  pose proof (occ_bound _ _ _ He1 HEne) as Hefit.
  exists (str (take s c)), (str (drop (s + length S) (take e c))),
         (str (drop (e + length E) c)).
  eexists. split; [|split; [|split; [|split; [exact Hrun|split]]]].
  - apply chars_inj. rewrite !chars_app, !chars_str. fold S E c.
    rewrite (occ_split E c e He1) at 1 by lia.
    rewrite (occ_split S (take e c) s) at 1.
    + rewrite take_take. replace (s `min` e)%nat with s by lia.
      rewrite <- !app_assoc. reflexivity.
    + intros i x Hx. rewrite lookup_take_lt; [now apply Hs1|].
      apply lookup_lt_Some in Hx. lia.
    + rewrite length_take. lia.
  - rewrite <- chars_length, chars_str. rewrite length_take_le by lia.
    symmetry. exact Hs.
  - rewrite <- chars_length, !chars_app, !chars_str, !length_app, length_drop.
    rewrite !length_take_le by lia. rewrite He. f_equal. subst S E c. clear -Hap. lia.
  - assert (Hnext : str (spliced c (chars markup) (s + length S) e) =
              str (take s c) +:+ START_TAG_of r +:+ nl +:+ markup +:+ nl
              +:+ END_TAG_of r +:+ str (drop (e + length E) c)).
    { apply chars_inj. rewrite !chars_app, !chars_str, chars_nl. fold S E.
      unfold spliced. fold nlc.
      rewrite (occ_take S c s Hs1 Hfit), (occ_drop E c e He1 Hefit).
      rewrite <- !app_assoc. reflexivity. }
    cbv zeta. rewrite Hnext.
    match goal with |- context [decide ?P] => destruct (decide P) as [Heq|Hne] end.
    + rewrite Hr, Heq. reflexivity.
    + reflexivity.
  - cbv zeta.
    match goal with |- context [decide ?P] => destruct (decide P) end; reflexivity.
Qed.

(** C7 (as amended). On a README that is valid UTF-8 and holds both markers
    in order, [updateReadme] (of either reporter) succeeds and changes
    nothing but what lies between the markers: the file reads
    [pre ++ START ++ interior ++ END ++ post], and the file written reads
    [pre ++ START ++ newline ++ markup ++ newline ++ END ++ post], with
    [START] the first occurrence of the start marker and [END] the first
    occurrence of the end marker. The badge file is not touched. *)
Theorem updateReadme_frame r markup w file :
  Utf8.valid file ->
  readme w = Some (Utf8.decode file) ->
  markers_in_order r file ->
  exists pre interior post w',
    file = pre +:+ START_TAG_of r +:+ interior +:+ END_TAG_of r +:+ post /\
    Z.of_nat (String.length pre) = indexOf file (START_TAG_of r) /\
    Z.of_nat (String.length (pre +:+ START_TAG_of r +:+ interior)) =
      indexOf file (END_TAG_of r) /\
    updateReadme_of r markup w = (Ok tt, w') /\
    readme w' = Some (pre +:+ START_TAG_of r +:+ nl +:+ markup +:+ nl
                      +:+ END_TAG_of r +:+ post) /\
    badge w' = badge w.
Proof.
  intros Hvalid Hr Hm. unfold Utf8.valid in Hvalid. rewrite Hvalid in Hr.
  exact (splice_frame r markup w file Hr Hm).
Qed.

(** A README with an accented word, in UTF-8. *)
Definition accented_readme : string :=
  "# Caf" +:+ str [ascii_of_N 195; ascii_of_N 169]
  +:+ " <!-- START_RECENT_PRS -->old<!-- END_RECENT_PRS --> bye".

Lemma updateReadme_frame_witness :
  exists pre interior post w',
    accented_readme =
      pre +:+ START_TAG_of PRs +:+ interior +:+ END_TAG_of PRs +:+ post /\
    Z.of_nat (String.length pre) = indexOf accented_readme (START_TAG_of PRs) /\
    Z.of_nat (String.length (pre +:+ START_TAG_of PRs +:+ interior)) =
      indexOf accented_readme (END_TAG_of PRs) /\
    updateReadme_of PRs "new"
      (fresh_world offline (Some (Utf8.decode accented_readme))) = (Ok tt, w') /\
    readme w' = Some (pre +:+ START_TAG_of PRs +:+ nl +:+ "new" +:+ nl
                      +:+ END_TAG_of PRs +:+ post) /\
    badge w' = badge (fresh_world offline (Some (Utf8.decode accented_readme))).
Proof.
  apply (updateReadme_frame PRs "new" _ accented_readme).
  - vm_compute. reflexivity.
  - reflexivity.
  - unfold markers_in_order. vm_compute. repeat split; discriminate.
Defined.

(** The same README in Latin-1: the accented letter is the single byte E9,
    which is not valid UTF-8. *)
Definition latin1_readme : string :=
  "# Caf" +:+ str [ascii_of_N 233]
  +:+ " <!-- START_RECENT_PRS -->old<!-- END_RECENT_PRS --> bye".

(** What the splice writes for it. *)
Definition latin1_written : string :=
  "# Caf" +:+ str Utf8.replacement +:+ " <!-- START_RECENT_PRS -->"
  +:+ nl +:+ "new" +:+ nl +:+ "<!-- END_RECENT_PRS --> bye".

(** C7 (as stated) fails. On a README that is not valid UTF-8 the splice
    succeeds, but the file written differs from the file read before the
    start marker: reading has replaced the byte E9 by U+FFFD, and the three
    bytes EF BF BD are written in its place. No way of cutting the file
    read into [pre ++ START ++ post] makes the file written
    [pre ++ START ++ middle]. *)
Lemma updateReadme_frame_invalid_utf8 :
  let w := fresh_world offline (Some (Utf8.decode latin1_readme)) in
  markers_in_order PRs latin1_readme /\
  fst (updateReadme_of PRs "new" w) = Ok tt /\
  readme (snd (updateReadme_of PRs "new" w)) = Some latin1_written /\
  ~ (exists pre middle post,
       latin1_readme = pre +:+ START_TAG_of PRs +:+ post /\
       latin1_written = pre +:+ START_TAG_of PRs +:+ middle).
Proof.
  cbv zeta. split; [|split; [|split]].
  - unfold markers_in_order. vm_compute. repeat split; discriminate.
  - vm_compute. reflexivity.
  - vm_compute. reflexivity.
  - intros (pre & middle & post & Hfile & Hcut).
    apply (f_equal chars) in Hfile. apply (f_equal chars) in Hcut.
    rewrite !chars_app in Hfile, Hcut.
    assert (HF : chars latin1_readme !! 5%nat = Some (ascii_of_N 233))
      by (vm_compute; reflexivity).
    assert (HW : chars latin1_written !! 5%nat = Some (ascii_of_N 239))
      by (vm_compute; reflexivity).
    destruct (le_lt_dec 6 (length (chars pre))) as [Hlong|Hshort].
    + rewrite Hfile, lookup_app_l in HF by lia.
      rewrite Hcut, lookup_app_l in HW by lia.
      rewrite HF in HW. vm_compute in HW. discriminate HW.
    + assert (Hfirst : chars latin1_readme !! length (chars pre) = Some "<"%char).
      { rewrite Hfile, lookup_app_r by lia. rewrite Nat.sub_diag. reflexivity. }
      clear Hfile Hcut HF HW.
      destruct (length (chars pre)) as [|[|[|[|[|[|n]]]]]];
        try (vm_compute in Hfirst; discriminate Hfirst).
      lia.
Qed.

(** C5 (as amended). On a README that holds both markers in order, and for
    a markup in which the end marker does not occur, [updateReadme] (of
    either reporter) is idempotent: the first application succeeds, and a
    second application with the same markup succeeds and leaves the world it
    finds, README and write log included, as it is: the composed content
    equals the current content and nothing is written. *)
Theorem updateReadme_idempotent r markup w content :
  readme w = Some content ->
  markers_in_order r content ->
  indexOf markup (END_TAG_of r) = -1 ->
  exists w1,
    updateReadme_of r markup w = (Ok tt, w1) /\
    updateReadme_of r markup w1 = (Ok tt, w1).
Proof.
  intros Hr (HS & HE & Hlt) Hclean.
  destruct (updateReadme_of_unfold r) as (msg & _ & ->).
  destruct (updateReadme_with_ok _ _ msg markup w content Hr HS HE Hlt)
    as (s & e & Hs & He & Hs1 & Hs2 & He1 & He2 & Hse & Hrun).
  cbv zeta in Hrun.
  set (S := chars (START_TAG_of r)) in *. set (E := chars (END_TAG_of r)) in *.
  set (c := chars content) in *. set (m := chars markup) in *.
  set (next := str (spliced c m (s + length S) e)) in *.
  set (w1 := if decide (next = content) then w else write_file README next w) in *.
  exists w1. split; [exact Hrun|].
  assert (Hr1 : readme w1 = Some next).
  { unfold w1. destruct (decide (next = content)) as [->|]; [exact Hr|reflexivity]. }
  pose proof (before_fits S E c s e Hs1 Hs2 He1 He2 Hse) as Hfit.
  pose proof (start_kept S E c m s e Hs1 Hs2 He1 He2 Hse) as Hstart.
  pose proof (end_moved S E c m s e Hs1 Hs2 He1 He2 Hse (end_tag_no_nl r)
                (tags_apart r) (find_from_none _ _ Hclean)) as Hend.
  assert (HS1 : indexOf next (START_TAG_of r) = Z.of_nat s).
  { unfold indexOf, next. rewrite chars_str. exact Hstart. }
  assert (HE1 : indexOf next (END_TAG_of r) = Z.of_nat (s + length S + 2 + length m)).
  { unfold indexOf, next. rewrite chars_str. exact Hend. }
  destruct (updateReadme_with_ok (START_TAG_of r) (END_TAG_of r) msg markup w1 next Hr1)
    as (s' & e' & Hs' & He' & _ & _ & _ & _ & _ & Hrun'); [lia|lia|lia|].
  cbv zeta in Hrun'. rewrite Hrun'.
  assert (s' = s) by lia. assert (e' = (s + length S + 2 + length m)%nat) by lia.
  subst s' e'. fold S m.
  assert (Hsame : str (spliced (chars next) m (s + length S) (s + length S + 2 + length m))
                  = next).
  { unfold next at 2. f_equal. unfold next. rewrite chars_str.
    unfold spliced at 1. rewrite take_spliced by exact Hfit.
    rewrite drop_spliced by exact Hfit. reflexivity. }
  rewrite Hsame. destruct (decide (next = next)); [reflexivity|congruence].
Qed.

Lemma updateReadme_idempotent_witness :
  exists w1,
    updateReadme_of Commits "<p>rows</p>"
      (fresh_world offline
         (Some "a<!-- START_RECENT_COMMITS -->b<!-- END_RECENT_COMMITS -->c")) = (Ok tt, w1) /\
    updateReadme_of Commits "<p>rows</p>" w1 = (Ok tt, w1).
Proof.
  apply (updateReadme_idempotent Commits "<p>rows</p>" _
           "a<!-- START_RECENT_COMMITS -->b<!-- END_RECENT_COMMITS -->c").
  - reflexivity.
  - unfold markers_in_order. vm_compute. repeat split; discriminate.
  - vm_compute. reflexivity.
Defined.

(** A pull request whose title quotes the end marker, and the markup
    [buildPrMarkup] renders for it. *)
Definition marker_in_title : PullRequest :=
  {| html_url := Some "https://github.com/o/r/pull/1"; pr_url := None;
     title := Some "Keep <!-- END_RECENT_PRS --> intact";
     state := Some "open"; draft := false; merged_at := None; closed_at := None;
     pr_created_at := None; head_repo := None; base_repo := None |}.

Definition marker_in_title_event : Event :=
  {| type := "PullRequestEvent"; created_at := "2026-01-01T00:00:00Z";
     repo_name := Some "o/r"; payload_pull_request := Some marker_in_title;
     payload_commits := None; payload_head := None |}.

Definition no_dates : DateApi :=
  {| Date_parse _ := None; Date_toISOString _ := "" |}.

Definition marker_markup : string :=
  RecentPRs.buildPrMarkup no_dates
    [RecentPRs.mkRecord marker_in_title_event marker_in_title
       "https://github.com/o/r/pull/1"].

(** C5 (as stated) fails. A pull request whose title holds the end marker
    is rendered into a markup that holds it too; spliced twice into a README
    with both markers in order, that markup makes the second application
    find the end marker inside the first application's output, compose a
    different document and write it. *)
Lemma updateReadme_not_idempotent :
  let content := "<!-- START_RECENT_PRS --><!-- END_RECENT_PRS -->" in
  let w := fresh_world offline (Some content) in
  let w1 := snd (updateReadme_of PRs marker_markup w) in
  let w2 := snd (updateReadme_of PRs marker_markup w1) in
  markers_in_order PRs content /\
  fst (updateReadme_of PRs marker_markup w) = Ok tt /\
  fst (updateReadme_of PRs marker_markup w1) = Ok tt /\
  readme w2 <> readme w1 /\
  length (writes w1) = 1%nat /\ length (writes w2) = 2%nat.
Proof.
  cbv zeta. split; [|split; [|split; [|split; [|split]]]].
  - unfold markers_in_order. vm_compute. repeat split; discriminate.
  - vm_compute. reflexivity.
  - vm_compute. reflexivity.
  - refine (proj1 (bool_decide_eq_false _) _). vm_compute. reflexivity.
  - vm_compute. reflexivity.
  - vm_compute. reflexivity.
Qed.

End ReadmeFacts.

(** ** Loop invariants *)
Module LoopFacts.

(** What a run handed back: the array it returned, or nothing when it threw. *)
Definition produced {A} (r : Outcome (list A) * World) : list A :=
  match fst r with
  | Ok l => l
  | Throw _ => []
  end.

(** An invariant [P] of the fall-through states and a property [Q] of the
    returned state carry over from the body to the whole loop. *)
Lemma for_of_inv {X S} (P Q : S -> Prop) (body : X -> S -> Flow S) xs st :
  (forall x st, P st ->
     match body x st with Continue st' => P st' | Return st' => Q st' end) ->
  P st ->
  match for_of body xs st with Continue st' => P st' | Return st' => Q st' end.
Proof.
  intros Hbody. revert st. induction xs as [|x xs IH]; intros st HP; simpl.
  - exact HP.
  - specialize (Hbody x st HP). destruct (body x st) as [st'|st'].
    + now apply IH.
    + exact Hbody.
Qed.

Lemma for_of_M_inv {X S} (P Q : S -> Prop) (body : X -> S -> M (Flow S)) xs st w :
  (forall x st w, P st ->
     match fst (body x st w) with
     | Ok (Continue st') => P st'
     | Ok (Return st') => Q st'
     | Throw _ => True
     end) ->
  P st ->
  match fst (for_of_M body xs st w) with
  | Ok (Continue st') => P st'
  | Ok (Return st') => Q st'
  | Throw _ => True
  end.
Proof.
  intros Hbody. revert st w. induction xs as [|x xs IH]; intros st w HP; simpl.
  - exact HP.
  - unfold bind. specialize (Hbody x st w HP).
    destruct (body x st w) as [[[st'|st']|e] w']; simpl in *.
    + now apply IH.
    + exact Hbody.
    + exact I.
Qed.

(** An element on which the body falls through without changing the state
    can be dropped from the array without changing what the loop does. *)
Lemma for_of_skip {X S} (body : X -> S -> Flow S) x pre post st :
  (forall st, body x st = Continue st) ->
  for_of body (pre ++ x :: post) st = for_of body (pre ++ post) st.
Proof.
  intros Hx. revert st. induction pre as [|y pre IH]; intros st; simpl.
  - rewrite Hx. reflexivity.
  - destruct (body y st); [apply IH|reflexivity].
Qed.

Lemma for_of_M_skip {X S} (body : X -> S -> M (Flow S)) x pre post st w :
  (forall st w, body x st w = (Ok (Continue st), w)) ->
  for_of_M body (pre ++ x :: post) st w = for_of_M body (pre ++ post) st w.
Proof.
  intros Hx. revert st w. induction pre as [|y pre IH]; intros st w; simpl.
  - unfold bind. rewrite Hx. reflexivity.
  - unfold bind. destruct (body y st w) as [[[st'|st']|e] w']; [apply IH|reflexivity|reflexivity].
Qed.

End LoopFacts.

(** ** The pull-request reporter *)
Module RecentPRsFacts.
Import JS LoopFacts RecentPRs.

(** C2. [formatStatus] is a total function with four possible results,
    decided in priority order: a truthy [merged_at] gives "Merged" whatever
    the other fields hold; otherwise a [state] equal to "closed" gives
    "Closed"; otherwise a set [draft] flag gives "Draft"; otherwise the
    status is "Open". *)
Theorem formatStatus_priority (pr : PullRequest) :
  (truthy (merged_at pr) = true -> formatStatus pr = "Merged") /\
  (truthy (merged_at pr) = false -> state pr = Some "closed" ->
   formatStatus pr = "Closed") /\
  (truthy (merged_at pr) = false -> state pr <> Some "closed" -> draft pr = true ->
   formatStatus pr = "Draft") /\
  (truthy (merged_at pr) = false -> state pr <> Some "closed" -> draft pr = false ->
   formatStatus pr = "Open") /\
  formatStatus pr ∈ ["Merged"; "Closed"; "Draft"; "Open"].
Proof.
  unfold formatStatus.
  destruct (truthy (merged_at pr)) eqn:Hm;
    [|destruct (bool_decide (state pr = Some "closed")) eqn:Hs;
      [apply bool_decide_eq_true in Hs|apply bool_decide_eq_false in Hs;
       destruct (draft pr) eqn:Hd]];
    repeat split; intros; try congruence; set_solver.
Qed.

Definition pr_with (merged : option string) (st : option string) (dr : bool) : PullRequest :=
  {| html_url := Some "https://github.com/o/r/pull/1"; pr_url := None;
     title := Some "A change"; state := st; draft := dr; merged_at := merged;
     closed_at := None; pr_created_at := None; head_repo := None; base_repo := None |}.

Lemma formatStatus_priority_witness :
  formatStatus (pr_with (Some "2026-01-01T00:00:00Z") (Some "closed") true) = "Merged" /\
  formatStatus (pr_with None (Some "closed") true) = "Closed" /\
  formatStatus (pr_with None (Some "open") true) = "Draft" /\
  formatStatus (pr_with None (Some "open") false) = "Open".
Proof.
  split; [|split; [|split]].
  - apply (proj1 (formatStatus_priority _)). reflexivity.
  - apply (proj1 (proj2 (formatStatus_priority _))); reflexivity.
  - apply (proj1 (proj2 (proj2 (formatStatus_priority _)))); [reflexivity|discriminate|reflexivity].
  - apply (proj1 (proj2 (proj2 (proj2 (formatStatus_priority _))))); [reflexivity|discriminate|reflexivity].
Defined.

Section Script.
Context (api : DateApi) (cfg : Config).

(** The bookkeeping invariant of [fetchRecentPRs]: the URLs of the records
    pushed so far are pairwise distinct and all in [seen]. *)
Definition keyed (st : Loop) : Prop :=
  NoDup (map url (prs st)) /\ forall r, r ∈ prs st -> url r ∈ seen st.

Lemma pr_keyed_init : keyed {| prs := []; seen := ∅ |}.
Proof. split; [constructor|]. intros r Hr. simpl in Hr. set_solver. Qed.

(** The two ways through the loop body: the event is skipped and nothing
    changes, or a record for a pull request of a recent enough event, with a
    URL not seen before, is pushed. *)
Lemma pr_eventStep_cases event st :
  eventStep api cfg event st = Continue st \/
  exists pr key eventDate,
    type event = "PullRequestEvent" /\
    Date_parse api (created_at event) = Some eventDate /\
    sinceDate cfg <= eventDate /\
    payload_pull_request event = Some pr /\
    html_url pr = Some key /\ (key ∉ seen st) /\
    (let st' := {| prs := prs st ++ [mkRecord event pr key];
                   seen := ({[ key ]} ∪ seen st) |} in
     eventStep api cfg event st =
       if prLimit cfg <=? Z.of_nat (length (prs st')) then Return st' else Continue st').
Proof.
  unfold eventStep.
  destruct (String.eqb (type event) "PullRequestEvent") eqn:Ht; [|now left].
  apply String.eqb_eq in Ht. simpl.
  destruct (Date_parse api (created_at event)) as [eventDate|] eqn:Hd; [|now left].
  destruct (eventDate <? sinceDate cfg) eqn:Hs; [now left|].
  destruct (payload_pull_request event) as [pr|] eqn:Hp; [|now left].
  destruct (truthy (html_url pr)) eqn:Hu; [|now left]. simpl.
  destruct (negb (includeDrafts cfg) && draft pr); [now left|].
  destruct (html_url pr) as [key|] eqn:Hk; [|discriminate]. simpl.
  destruct (decide (key ∈ seen st)) as [Hin|Hin]; [now left|].
  right. exists pr, key, eventDate.
  split; [exact Ht|]. split; [first [exact Hd|reflexivity]|]. split; [lia|].
  split; [first [exact Hp|reflexivity]|]. split; [first [exact Hk|reflexivity]|].
  split; [exact Hin|]. reflexivity.
Qed.

Lemma pr_keyed_push st r :
  keyed st -> url r ∉ seen st ->
  keyed {| prs := prs st ++ [r]; seen := {[ url r ]} ∪ seen st |}.
Proof.
  intros [Hnd Hseen] Hnew. split; simpl.
  - rewrite map_app. apply NoDup_app. split; [exact Hnd|]. split.
    + intros u Hu Hin. simpl in Hin. apply list_elem_of_singleton in Hin. subst u.
      apply list_elem_of_fmap in Hu. destruct Hu as (r' & Heq & Hr').
      apply Hseen in Hr'. rewrite <- Heq in Hr'. contradiction.
    + apply NoDup_singleton.
  - intros r' Hr'. apply elem_of_app in Hr'. destruct Hr' as [H|H].
    + apply Hseen in H. set_solver.
    + apply list_elem_of_singleton in H. subst r'. set_solver.
Qed.

Lemma eventStep_keyed event st :
  keyed st -> keyed (flow_state (eventStep api cfg event st)).
Proof.
  intros Hst.
  destruct (pr_eventStep_cases event st)
    as [->|(pr & key & t & _ & _ & _ & _ & _ & Hkey & ->)]; [exact Hst|].
  cbv zeta.
  assert (Hpush := pr_keyed_push st (mkRecord event pr key) Hst Hkey).
  match goal with |- context [if ?b then _ else _] => destruct b end; exact Hpush.
Qed.

Lemma events_keyed events st :
  keyed st -> keyed (flow_state (for_of (eventStep api cfg) events st)).
Proof.
  intros H.
  pose proof (for_of_inv keyed keyed (eventStep api cfg) events st) as Hinv.
  destruct (for_of (eventStep api cfg) events st); apply Hinv; try exact H.
  all: intros x st1 H1; pose proof (eventStep_keyed x st1 H1) as H2;
       destruct (eventStep api cfg x st1); exact H2.
Qed.

Lemma pr_pageLoop_keyed remaining page st w :
  keyed st -> NoDup (map url (produced (pageLoop api cfg remaining page st w))).
Proof.
  revert page st w. induction remaining as [|n IH]; intros page st w Hst.
  - exact (proj1 Hst).
  - simpl. unfold bind, fetch_events.
    destruct (events_endpoint _ _ _ _ _) as [|ok status statusText text json]; [constructor|].
    destruct ok; simpl; [|constructor].
    destruct json as [[|[|ev evs]]|]; try exact (proj1 Hst); [|constructor].
    pose proof (events_keyed (ev :: evs) st Hst) as Hk.
    destruct (for_of (eventStep api cfg) (ev :: evs) st) as [st'|st'].
    + apply IH. exact Hk.
    + exact (proj1 Hk).
Qed.

(** The length bound kept by the loop when the limit is at least 1: below
    the limit while the loop goes on, at most the limit when it returns. *)
Lemma eventStep_bound event st :
  1 <= prLimit cfg ->
  Z.of_nat (length (prs st)) < prLimit cfg ->
  match eventStep api cfg event st with
  | Continue st' => Z.of_nat (length (prs st')) < prLimit cfg
  | Return st' => Z.of_nat (length (prs st')) <= prLimit cfg
  end.
Proof.
  intros Hlim Hlen.
  destruct (pr_eventStep_cases event st)
    as [->|(pr & key & t & _ & _ & _ & _ & _ & _ & ->)]; [exact Hlen|].
  cbv zeta. cbn [prs]. rewrite length_app. cbn [length].
  destruct (Z.leb_spec (prLimit cfg) (Z.of_nat (length (prs st) + 1)));
    cbn [prs]; rewrite length_app; cbn [length]; lia.
Qed.

Lemma pr_pageLoop_bound remaining page st w :
  1 <= prLimit cfg ->
  Z.of_nat (length (prs st)) < prLimit cfg ->
  Z.of_nat (length (produced (pageLoop api cfg remaining page st w))) <= prLimit cfg.
Proof.
  intros Hlim. revert page st w. induction remaining as [|n IH]; intros page st w Hst.
  - simpl. unfold produced. simpl. lia.
  - simpl. unfold bind, fetch_events.
    destruct (events_endpoint _ _ _ _ _) as [|ok status statusText text json];
      [unfold produced; simpl; lia|].
    destruct ok; simpl; [|unfold produced; simpl; lia].
    destruct json as [[|[|ev evs]]|]; try (unfold produced; simpl; lia).
    pose proof (for_of_inv (fun st => Z.of_nat (length (prs st)) < prLimit cfg)
                  (fun st => Z.of_nat (length (prs st)) <= prLimit cfg)
                  (eventStep api cfg) (ev :: evs) st
                  (fun x st0 H0 => eventStep_bound x st0 Hlim H0) Hst) as Hk.
    destruct (for_of (eventStep api cfg) (ev :: evs) st) as [st'|st'].
    + apply IH. exact Hk.
    + unfold produced. simpl. exact Hk.
Qed.

(** With a limit of at least 1, [fetchRecentPRs] never returns more records
    than the limit. *)
Lemma fetchRecentPRs_bound w :
  1 <= prLimit cfg ->
  Z.of_nat (length (produced (fetchRecentPRs api cfg w))) <= prLimit cfg.
Proof. intros H. apply pr_pageLoop_bound; [exact H|simpl; lia]. Qed.

End Script.
End RecentPRsFacts.

(** ** The commit reporter *)
Module RecentCommitsFacts.
Import JS LoopFacts RecentCommits.

Section Script.
Context (api : DateApi) (cfg : Config).

(** Pushing a record for [key] and adding [key] to [seen]. *)
Definition push (key : string) (r : CommitRecord) (st : Loop) : Loop :=
  {| commits := commits st ++ [(key, r)]; seen := {[ key ]} ∪ seen st |}.

(** The limit check that follows every push. *)
Definition after_push (st' : Loop) : Flow Loop :=
  if commitLimit cfg <=? Z.of_nat (length (commits st')) then Return st' else Continue st'.

(** The bookkeeping invariant of [fetchRecentCommits]: the SHAs records were
    pushed for are pairwise distinct and all in [seen]. *)
Definition keyed (st : Loop) : Prop :=
  NoDup (map fst (commits st)) /\ forall p, p ∈ commits st -> fst p ∈ seen st.

Lemma commit_keyed_init : keyed {| commits := []; seen := ∅ |}.
Proof. split; [constructor|]. intros p Hp. simpl in Hp. set_solver. Qed.

Lemma commit_keyed_push st key r : keyed st -> key ∉ seen st -> keyed (push key r st).
Proof.
  intros [Hnd Hseen] Hnew. split; simpl.
  - rewrite map_app. apply NoDup_app. split; [exact Hnd|]. split.
    + intros u Hu Hin. simpl in Hin. apply list_elem_of_singleton in Hin. subst u.
      apply list_elem_of_fmap in Hu. destruct Hu as (p & Heq & Hp).
      apply Hseen in Hp. rewrite <- Heq in Hp. contradiction.
    + apply NoDup_singleton.
  - intros p Hp. apply elem_of_app in Hp. destruct Hp as [H|H].
    + apply Hseen in H. set_solver.
    + apply list_elem_of_singleton in H. subst p. simpl. set_solver.
Qed.

(** The inline path either skips the commit or pushes a record for a SHA
    that was not in [seen]. *)
Lemma inlineStep_cases repoName repoUrl eventDate commit st :
  inlineStep api cfg repoName repoUrl eventDate commit st = Continue st \/
  exists key r,
    sha commit = Some key /\ (key ∉ seen st) /\
    inlineStep api cfg repoName repoUrl eventDate commit st = after_push (push key r st).
Proof.
  unfold inlineStep.
  destruct (truthy (sha commit)) eqn:Hs; [|now left]. simpl.
  destruct (sha commit) as [key|] eqn:Hk; [|discriminate]. simpl.
  destruct (decide (key ∈ seen st)) as [Hin|Hin]; [now left|].
  right. eexists key, _. split; [reflexivity|]. split; [exact Hin|]. reflexivity.
Qed.

(** [fetchCommitDetails] never throws: failures come back as [null]. *)
Lemma fetchCommitDetails_total repoName sha w :
  exists details w', fetchCommitDetails repoName sha w = (Ok details, w').
Proof.
  unfold fetchCommitDetails.
  destruct (commitCache w !! _) as [info|]; [eauto|].
  unfold bind, fetch_commit.
  destruct (commit_endpoint _ _ _ _) as [|ok status statusText text json]; [unfold ret; eauto|].
  destruct ok; simpl; [|unfold ret; eauto].
  destruct json; unfold ret; eauto.
Qed.

(** The head-reference path either leaves the loop state alone or pushes a
    record for a head SHA that was not in [seen]. *)
Lemma headStep_cases repoName repoUrl eventDate event st w :
  (exists w', headStep api cfg repoName repoUrl eventDate event st w = (Ok (Continue st), w')) \/
  exists key r w',
    payload_head event = Some key /\ (key ∉ seen st) /\
    headStep api cfg repoName repoUrl eventDate event st w
      = (Ok (after_push (push key r st)), w').
Proof.
  unfold headStep.
  destruct (truthy (payload_head event)) eqn:Ht; [|left; eexists; reflexivity]. simpl.
  destruct (payload_head event) as [key|] eqn:Hk; [|discriminate]. simpl.
  destruct (bool_decide (key ∈ seen st)) eqn:Hin; [left; eexists; reflexivity|]. simpl.
  apply bool_decide_eq_false in Hin.
  unfold bind.
  destruct (fetchCommitDetails_total repoName key w) as (details & w' & ->).
  destruct details as [details|]; [|left; eexists; reflexivity].
  right.
  match goal with |- context [commits st ++ [(key, ?r)]] => exists key, r, w' end.
  split; [reflexivity|]. split; [exact Hin|].
  unfold after_push, push. simpl.
  match goal with |- context [if ?b then _ else _] => destruct b end; reflexivity.
Qed.

(** The event body never throws; it leaves the loop state alone, or runs
    the inline loop, or takes the head-reference path. *)
Lemma commit_eventStep_cases event st w :
  (exists w', eventStep api cfg event st w = (Ok (Continue st), w')) \/
  exists eventDate repoName,
    type event = "PushEvent" /\
    Date_parse api (created_at event) = Some eventDate /\
    sinceDate cfg <= eventDate /\
    repo_name event = Some repoName /\
    ((exists c cs, payload_commits event = Some (c :: cs) /\
        eventStep api cfg event st w =
          (Ok (for_of (inlineStep api cfg repoName ("https://github.com/" +:+ repoName)
                         eventDate) (c :: cs) st), w)) \/
     eventStep api cfg event st w =
       headStep api cfg repoName ("https://github.com/" +:+ repoName) eventDate event st w).
Proof.
  unfold eventStep.
  destruct (String.eqb (type event) "PushEvent") eqn:Ht; [|left; eexists; reflexivity].
  apply String.eqb_eq in Ht. simpl.
  destruct (Date_parse api (created_at event)) as [eventDate|] eqn:Hd;
    [|left; eexists; reflexivity].
  destruct (eventDate <? sinceDate cfg) eqn:Hs; [left; eexists; reflexivity|].
  destruct (truthy (repo_name event)) eqn:Hr; [|left; eexists; reflexivity]. simpl.
  destruct (repo_name event) as [repoName|] eqn:Hn; [|discriminate]. simpl.
  right. exists eventDate, repoName.
  split; [exact Ht|]. split; [reflexivity|]. split; [lia|]. split; [reflexivity|].
  destruct (payload_commits event) as [[|c cs]|]; [right; reflexivity| |right; reflexivity].
  left. exists c, cs. split; reflexivity.
Qed.

(** Invariants of the commit loops: [P] holds of the state while a loop
    goes on, [Q] of the state a [return] leaves with. Both pushes are
    followed by the same limit check, so it is enough to look at a push. *)
Section Invariant.
Variables P Q : Loop -> Prop.
Hypothesis push_ok : forall st key r, P st -> key ∉ seen st ->
  match after_push (push key r st) with Continue st' => P st' | Return st' => Q st' end.

Lemma inlineStep_inv repoName repoUrl eventDate commit st :
  P st ->
  match inlineStep api cfg repoName repoUrl eventDate commit st with
  | Continue st' => P st'
  | Return st' => Q st'
  end.
Proof.
  intros HP.
  destruct (inlineStep_cases repoName repoUrl eventDate commit st)
    as [->|(key & r & _ & Hkey & ->)]; [exact HP|].
  now apply push_ok.
Qed.

Lemma eventStep_inv event st w :
  P st ->
  match fst (eventStep api cfg event st w) with
  | Ok (Continue st') => P st'
  | Ok (Return st') => Q st'
  | Throw _ => True
  end.
Proof.
  intros HP.
  destruct (commit_eventStep_cases event st w)
    as [[w' ->]|(t & repoName & _ & _ & _ & _ & [(c & cs & _ & ->)| ->])].
  - exact HP.
  - cbn [fst]. apply (for_of_inv P Q); [|exact HP].
    intros x st1 H1. now apply inlineStep_inv.
  - destruct (headStep_cases repoName ("https://github.com/" +:+ repoName) t event st w)
      as [[w' ->]|(key & r & w' & _ & Hkey & ->)]; simpl.
    + exact HP.
    + now apply push_ok.
Qed.

Variable R : list (string * CommitRecord) -> Prop.
Hypothesis R_nil : R [].
Hypothesis R_P : forall st, P st -> R (commits st).
Hypothesis R_Q : forall st, Q st -> R (commits st).

Lemma pageLoop_inv remaining page st w :
  P st -> R (produced (pageLoop api cfg remaining page st w)).
Proof.
  revert page st w. induction remaining as [|n IH]; intros page st w Hst.
  - now apply R_P.
  - simpl. unfold bind at 1, fetch_events.
    destruct (events_endpoint _ _ _ _ _) as [|ok status statusText text json]; [exact R_nil|].
    destruct ok; simpl; [|exact R_nil].
    destruct json as [[|[|ev evs]]|]; try (now apply R_P); [|exact R_nil].
    unfold bind.
    pose proof (for_of_M_inv P Q (eventStep api cfg) (ev :: evs) st
                  (log_request (GetEvents (login cfg) page (eventsPerPage cfg)) w)
                  (fun x st1 w1 H1 => eventStep_inv x st1 w1 H1) Hst) as Hk.
    destruct (for_of_M (eventStep api cfg) (ev :: evs) st _) as [[[st'|st']|e] w'];
      simpl in Hk.
    + now apply IH.
    + now apply R_Q.
    + exact R_nil.
Qed.

End Invariant.

Lemma commit_pageLoop_keyed remaining page st w :
  keyed st -> NoDup (map fst (produced (pageLoop api cfg remaining page st w))).
Proof.
  intros Hst.
  apply (fun H => pageLoop_inv keyed keyed H (fun l => NoDup (map fst l)));
    [| | | |exact Hst].
  - intros st1 key r H1 Hkey. pose proof (commit_keyed_push st1 key r H1 Hkey) as H2.
    unfold after_push. destruct (commitLimit cfg <=? _); exact H2.
  - constructor.
  - intros st1 H1. exact (proj1 H1).
  - intros st1 H1. exact (proj1 H1).
Qed.

(** With a limit of at least 1, [fetchRecentCommits] never returns more
    records than the limit. *)
Lemma commit_pageLoop_bound remaining page st w :
  1 <= commitLimit cfg ->
  Z.of_nat (length (commits st)) < commitLimit cfg ->
  Z.of_nat (length (produced (pageLoop api cfg remaining page st w))) <= commitLimit cfg.
Proof.
  intros Hlim Hst.
  apply (fun H =>
           pageLoop_inv (fun st => Z.of_nat (length (commits st)) < commitLimit cfg)
             (fun st => Z.of_nat (length (commits st)) <= commitLimit cfg) H
             (fun l => Z.of_nat (length l) <= commitLimit cfg)); [| | | |exact Hst].
  - intros st1 key r H1 _. unfold after_push, push. cbn [commits].
    rewrite length_app. cbn [length].
    destruct (Z.leb_spec (commitLimit cfg) (Z.of_nat (length (commits st1) + 1)));
      cbn [commits]; rewrite length_app; cbn [length]; lia.
  - simpl. lia.
  - intros st1 H1. lia.
  - intros st1 H1. exact H1.
Qed.

Lemma fetchRecentCommits_bound w :
  1 <= commitLimit cfg ->
  Z.of_nat (length (produced (fetchRecentCommits api cfg w))) <= commitLimit cfg.
Proof.
  intros H. unfold fetchRecentCommits, fetchRecentCommits_keyed, bind.
  pose proof (commit_pageLoop_bound (Z.to_nat (eventMaxPages cfg)) 1
                {| commits := []; seen := ∅ |} w H ltac:(simpl; lia)) as Hb.
  unfold produced in *.
  destruct (pageLoop api cfg _ 1 _ w) as [[l|e] w']; simpl in *; [|lia].
  rewrite length_map. exact Hb.
Qed.

End Script.
End RecentCommitsFacts.

(** ** Properties of both reporters *)
Module ReporterFacts.
Import JS LoopFacts.

(** C3. In one run, no two records share their deduplication key: the PR
    records returned by [fetchRecentPRs] have pairwise distinct URLs (the
    [html_url] they were tested against [seen] with), and the records
    returned by [fetchRecentCommits] were pushed for pairwise distinct SHAs,
    whichever of the two paths (inline commits, head reference) pushed them:
    both test and extend the one [seen] set of the loop state. *)
Theorem no_duplicate_keys (api : DateApi) (cfgP : RecentPRs.Config)
    (cfgC : RecentCommits.Config) (w : World) :
  NoDup (map RecentPRs.url (produced (RecentPRs.fetchRecentPRs api cfgP w))) /\
  NoDup (map fst (produced (RecentCommits.fetchRecentCommits_keyed api cfgC w))) /\
  produced (RecentCommits.fetchRecentCommits api cfgC w) =
    map snd (produced (RecentCommits.fetchRecentCommits_keyed api cfgC w)).
Proof.
  split; [|split].
  - apply RecentPRsFacts.pr_pageLoop_keyed, RecentPRsFacts.pr_keyed_init.
  - apply RecentCommitsFacts.commit_pageLoop_keyed, RecentCommitsFacts.commit_keyed_init.
  - unfold RecentCommits.fetchRecentCommits, bind, produced.
    destruct (RecentCommits.fetchRecentCommits_keyed api cfgC w) as [[l|e] w'];
      reflexivity.
Qed.

(** An event is stale for a reporter when its timestamp does not parse or
    lies strictly before the reporter's [sinceDate]. *)
Definition stale (api : DateApi) (since : Z) (event : Event) : Prop :=
  match Date_parse api (created_at event) with
  | None => True
  | Some t => t < since
  end.

(** C8. An event whose timestamp is unparseable or strictly before
    [now - lookbackDays] days produces no record: the body of the PR loop
    and the body of the commit loop both fall through with the loop state
    (records and [seen]) unchanged, and the commit loop sends no request.
    Hence the loop over a page does the same with or without that event. *)
Theorem stale_event_skipped (api : DateApi) (event : Event) :
  (forall cfg st,
     stale api (RecentPRs.now cfg - RecentPRs.lookbackDays cfg * 86400000) event ->
     RecentPRs.eventStep api cfg event st = Continue st) /\
  (forall cfg st w,
     stale api (RecentCommits.now cfg - RecentCommits.lookbackDays cfg * 86400000) event ->
     RecentCommits.eventStep api cfg event st w = (Ok (Continue st), w)) /\
  (forall cfg pre post st,
     stale api (RecentPRs.now cfg - RecentPRs.lookbackDays cfg * 86400000) event ->
     for_of (RecentPRs.eventStep api cfg) (pre ++ event :: post) st =
     for_of (RecentPRs.eventStep api cfg) (pre ++ post) st) /\
  (forall cfg pre post st w,
     stale api (RecentCommits.now cfg - RecentCommits.lookbackDays cfg * 86400000) event ->
     for_of_M (RecentCommits.eventStep api cfg) (pre ++ event :: post) st w =
     for_of_M (RecentCommits.eventStep api cfg) (pre ++ post) st w).
Proof.
  assert (HP : forall cfg st,
            stale api (RecentPRs.now cfg - RecentPRs.lookbackDays cfg * 86400000) event ->
            RecentPRs.eventStep api cfg event st = Continue st).
  { unfold stale. intros cfg st H. unfold RecentPRs.eventStep, RecentPRs.sinceDate.
    destruct (String.eqb (type event) "PullRequestEvent"); [|reflexivity]. simpl.
    destruct (Date_parse api (created_at event)) as [t|]; [|reflexivity].
    replace (t <? _) with true by lia. reflexivity. }
  assert (HC : forall cfg st w,
            stale api (RecentCommits.now cfg - RecentCommits.lookbackDays cfg * 86400000)
              event ->
            RecentCommits.eventStep api cfg event st w = (Ok (Continue st), w)).
  { unfold stale. intros cfg st w H.
    unfold RecentCommits.eventStep, RecentCommits.sinceDate.
    destruct (String.eqb (type event) "PushEvent"); [|reflexivity]. simpl.
    destruct (Date_parse api (created_at event)) as [t|]; [|reflexivity].
    replace (t <? _) with true by lia. reflexivity. }
  split; [exact HP|]. split; [exact HC|]. split.
  - intros cfg pre post st H. apply for_of_skip. intros st'. now apply HP.
  - intros cfg pre post st w H. apply for_of_M_skip. intros st' w'. now apply HC.
Qed.

(** *** Concrete runs *)

(** A [Date] that knows the two timestamps used below. *)
Definition clock : DateApi :=
  {| Date_parse s :=
       if String.eqb s "2026-01-01T00:00:00Z" then Some 1767225600000
       else if String.eqb s "2025-01-01T00:00:00Z" then Some 1735689600000
       else None;
     Date_toISOString t :=
       if t =? 1767225600000 then "2026-01-01T00:00:00.000Z"
       else if t =? 1735689600000 then "2025-01-01T00:00:00.000Z"
       else "" |}.

(** The defaults of the scripts, on 2026-01-02, with the given limit. *)
Definition pr_config (limit : Z) : RecentPRs.Config :=
  {| RecentPRs.login := "simo981"; RecentPRs.prLimit := limit;
     RecentPRs.lookbackDays := 60; RecentPRs.eventsPerPage := 50;
     RecentPRs.eventMaxPages := 3; RecentPRs.includeDrafts := false;
     RecentPRs.now := 1767312000000 |}.

Definition commit_config (limit : Z) : RecentCommits.Config :=
  {| RecentCommits.login := "simo981"; RecentCommits.commitLimit := limit;
     RecentCommits.lookbackDays := 45; RecentCommits.eventsPerPage := 50;
     RecentCommits.eventMaxPages := 2; RecentCommits.now := 1767312000000 |}.

Definition open_pr (n : string) : PullRequest :=
  {| html_url := Some ("https://github.com/o/r/pull/" +:+ n); pr_url := None;
     title := Some "A change"; state := Some "open"; draft := false;
     merged_at := None; closed_at := None;
     pr_created_at := Some "2026-01-01T00:00:00Z";
     head_repo := None; base_repo := None |}.

Definition pr_event (created : string) (n : string) : Event :=
  {| type := "PullRequestEvent"; created_at := created; repo_name := Some "o/r";
     payload_pull_request := Some (open_pr n);
     payload_commits := None; payload_head := None |}.

Definition inline_push (created : string) (shas : list string) : Event :=
  {| type := "PushEvent"; created_at := created; repo_name := Some "o/r";
     payload_pull_request := None;
     payload_commits :=
       Some (map (fun s => {| sha := Some s; commit_message := Some "msg" |}) shas);
     payload_head := None |}.

Definition head_push (created : string) (head : string) : Event :=
  {| type := "PushEvent"; created_at := created; repo_name := Some "o/r";
     payload_pull_request := None; payload_commits := None;
     payload_head := Some head |}.

(** A remote side whose first events page holds [events], whose later pages
    are empty, and which answers the [n]-th request of the run, when it is a
    commit lookup, with [lookups n]. *)
Definition feed (events : list Event) (lookups : nat -> Response CommitData) : Server :=
  {| events_endpoint _ _ page _ :=
       Http true 200 "OK" "" (Some (EventArray (if page =? 1 then events else [])));
     commit_endpoint n _ _ := lookups n;
     graphql_endpoint _ _ _ _ := FetchRejected |}.

Definition start (sv : Server) : World :=
  {| readme := None; badge := None; writes := []; requests := [];
     server := sv; commitCache := ∅ |}.

Lemma stale_event_skipped_witness :
  RecentPRs.eventStep clock (pr_config 3) (pr_event "2025-01-01T00:00:00Z" "1")
    {| RecentPRs.prs := []; RecentPRs.seen := ∅ |}
  = Continue {| RecentPRs.prs := []; RecentPRs.seen := ∅ |} /\
  RecentCommits.eventStep clock (commit_config 3)
    (inline_push "not a date" ["0123456789abcdef"])
    {| RecentCommits.commits := []; RecentCommits.seen := ∅ |}
    (start (feed [] (fun _ => FetchRejected)))
  = (Ok (Continue {| RecentCommits.commits := []; RecentCommits.seen := ∅ |}),
     start (feed [] (fun _ => FetchRejected))).
Proof.
  split.
  - apply (proj1 (stale_event_skipped clock (pr_event "2025-01-01T00:00:00Z" "1"))).
    vm_compute. reflexivity.
  - apply (proj1 (proj2 (stale_event_skipped clock
                             (inline_push "not a date" ["0123456789abcdef"])))).
    vm_compute. exact I.
Defined.

(** C4 fails for a limit below 1. The limit is tested only after a record
    has been pushed, so with [PR_LIMIT=0] (or [COMMIT_LIMIT=0]) one event
    that qualifies yields one record, which is more than the limit. *)
Theorem limit_zero_exceeded :
  RecentPRs.prLimit (pr_config 0) = 0 /\
  length (produced (RecentPRs.fetchRecentPRs clock (pr_config 0)
                      (start (feed [pr_event "2026-01-01T00:00:00Z" "1";
                                    pr_event "2026-01-01T00:00:00Z" "2"]
                                (fun _ => FetchRejected))))) = 1%nat /\
  RecentCommits.commitLimit (commit_config 0) = 0 /\
  length (produced (RecentCommits.fetchRecentCommits clock (commit_config 0)
                      (start (feed [inline_push "2026-01-01T00:00:00Z"
                                      ["0123456789abcdef"; "fedcba9876543210"]]
                                (fun _ => FetchRejected))))) = 1%nat.
Proof. repeat split; vm_compute; reflexivity. Qed.

(** For every limit of at least 1 the bound of C4 holds, for both builders. *)
Lemma limit_respected (api : DateApi) (cfgP : RecentPRs.Config)
    (cfgC : RecentCommits.Config) (w : World) :
  (1 <= RecentPRs.prLimit cfgP ->
   Z.of_nat (length (produced (RecentPRs.fetchRecentPRs api cfgP w)))
     <= RecentPRs.prLimit cfgP) /\
  (1 <= RecentCommits.commitLimit cfgC ->
   Z.of_nat (length (produced (RecentCommits.fetchRecentCommits api cfgC w)))
     <= RecentCommits.commitLimit cfgC).
Proof.
  split.
  - apply RecentPRsFacts.fetchRecentPRs_bound.
  - apply RecentCommitsFacts.fetchRecentCommits_bound.
Qed.

(** A merged pull request from yesterday and an open one from a year ago,
    with a lookback of 60 days and a limit of 3: one record, "Merged". *)
Example one_recent_merged_pr :
  map (fun r => (RecentPRs.url r, RecentPRs.status r))
    (produced (RecentPRs.fetchRecentPRs clock (pr_config 3)
       (start (feed
          [ {| type := "PullRequestEvent"; created_at := "2026-01-01T00:00:00Z";
               repo_name := Some "o/r";
               payload_pull_request :=
                 Some {| html_url := Some "https://github.com/o/r/pull/8"; pr_url := None;
                         title := Some "Merged work"; state := Some "closed";
                         draft := false; merged_at := Some "2026-01-01T00:00:00Z";
                         closed_at := Some "2026-01-01T00:00:00Z";
                         pr_created_at := None; head_repo := None; base_repo := None |};
               payload_commits := None; payload_head := None |};
            pr_event "2025-01-01T00:00:00Z" "9" ]
          (fun _ => FetchRejected)))))
  = [("https://github.com/o/r/pull/8", "Merged")].
Proof. vm_compute. reflexivity. Qed.

(** A push event with two inline commits and a limit of 3: two records, in
    feed order. *)
Example two_inline_commits :
  map RecentCommits.oid
    (produced (RecentCommits.fetchRecentCommits clock (commit_config 3)
       (start (feed [inline_push "2026-01-01T00:00:00Z"
                       ["0123456789abcdef"; "fedcba9876543210"]]
                 (fun _ => FetchRejected)))))
  = ["0123456"; "fedcba9"].
Proof. vm_compute. reflexivity. Qed.

(** One [seen] set for both paths: a head reference whose SHA was already
    pushed from an inline list is skipped without a lookup. *)
Example head_seen_inline :
  let run := RecentCommits.fetchRecentCommits_keyed clock (commit_config 3)
               (start (feed [inline_push "2026-01-01T00:00:00Z" ["0123456789abcdef"];
                             head_push "2026-01-01T00:00:00Z" "0123456789abcdef"]
                         (fun _ => Http true 200 "OK" "" None))) in
  map fst (produced run) = ["0123456789abcdef"] /\
  requests (snd run) = [GetEvents "simo981" 1 50; GetEvents "simo981" 2 50].
Proof. vm_compute. split; reflexivity. Qed.

(** *** Failed head-reference lookups *)

(** A push event inside the window that carries no inline commits, only the
    head reference [headSha] of repository [repoName]. *)
Definition head_reference (api : DateApi) (cfg : RecentCommits.Config)
    (event : Event) (repoName headSha : string) (eventDate : Z) : Prop :=
  type event = "PushEvent" /\
  Date_parse api (created_at event) = Some eventDate /\
  RecentCommits.sinceDate cfg <= eventDate /\
  repo_name event = Some repoName /\ repoName <> "" /\
  (payload_commits event = None \/ payload_commits event = Some []) /\
  payload_head event = Some headSha /\ headSha <> "".

(** The lookup failures the claim names: a rejected [fetch], or a response
    whose status is not a success. *)
Definition lookup_fails (r : Response CommitData) : Prop :=
  match r with
  | FetchRejected => True
  | Http ok _ _ _ _ => ok = false
  end.

(** The record the head-reference path pushes for resolved details. *)
Definition head_record (api : DateApi) (repoName headSha : string) (eventDate : Z)
    (details : CommitInfo) : RecentCommits.CommitRecord :=
  {| RecentCommits.repoName := repoName;
     RecentCommits.repoUrl := "https://github.com/" +:+ repoName;
     RecentCommits.message := info_message details;
     RecentCommits.url :=
       or_lit (info_url details)
         ("https://github.com/" +:+ repoName +:+ "/commit/" +:+ headSha);
     RecentCommits.oid := slice headSha 0 (Some 7);
     RecentCommits.occurredAt :=
       or_lit (info_date details) (Date_toISOString api eventDate) |}.

Lemma truthy_Some s : s <> "" -> truthy (Some s) = true.
Proof.
  intros H. simpl. destruct (String.eqb s "") eqn:E; [|reflexivity].
  apply String.eqb_eq in E. contradiction.
Qed.

Lemma eventStep_head api cfg event repoName headSha eventDate st :
  head_reference api cfg event repoName headSha eventDate ->
  RecentCommits.eventStep api cfg event st =
  RecentCommits.headStep api cfg repoName ("https://github.com/" +:+ repoName)
    eventDate event st.
Proof.
  intros (Ht & Hd & Hs & Hr & Hrn & Hc & _).
  unfold RecentCommits.eventStep. rewrite Ht, Hd, Hr, (truthy_Some _ Hrn).
  replace (eventDate <? RecentCommits.sinceDate cfg) with false by lia.
  simpl. destruct Hc as [-> | ->]; reflexivity.
Qed.

(** C10. Take a push event that carries only a head reference not yet in
    [seen] and not in the commit cache, and let the commit lookup fail (the
    fetch is rejected, or the status is not a success). Then the event body
    falls through with [seen] and the records unchanged, and the world
    differs only by the logged request: the cache holds no entry for the
    commit. A later push event with the same head reference therefore sends
    the lookup again, and when that one succeeds a record for the SHA is
    pushed, the SHA enters [seen] and the details enter the cache. *)
Theorem failed_lookup_retried (api : DateApi) (cfg : RecentCommits.Config)
    (event1 event2 : Event) (repoName headSha : string) (date1 date2 : Z)
    (st : RecentCommits.Loop) (w : World)
    (status : Z) (statusText text : string) (data : CommitData) :
  head_reference api cfg event1 repoName headSha date1 ->
  head_reference api cfg event2 repoName headSha date2 ->
  headSha ∉ RecentCommits.seen st ->
  commitCache w !! (repoName +:+ "@" +:+ headSha) = None ->
  lookup_fails (commit_endpoint (server w) (length (requests w)) repoName headSha) ->
  commit_endpoint (server w) (S (length (requests w))) repoName headSha
    = Http true status statusText text (Some data) ->
  exists w1 w2,
    RecentCommits.eventStep api cfg event1 st w = (Ok (Continue st), w1) /\
    commitCache w1 = commitCache w /\
    requests w1 = requests w ++ [GetCommit repoName headSha] /\
    RecentCommits.eventStep api cfg event2 st w1 =
      (Ok (RecentCommitsFacts.after_push cfg
             (RecentCommitsFacts.push headSha
                (head_record api repoName headSha date2 (RecentCommits.mkInfo data)) st)),
       w2) /\
    requests w2 = requests w ++ [GetCommit repoName headSha; GetCommit repoName headSha] /\
    commitCache w2 !! (repoName +:+ "@" +:+ headSha) = Some (RecentCommits.mkInfo data).
Proof.
  intros H1 H2 Hseen Hcache Hfail Hok.
  pose proof H1 as (_ & _ & _ & _ & _ & _ & Hh1 & Hne).
  pose proof H2 as (_ & _ & _ & _ & _ & _ & Hh2 & _).
  exists (log_request (GetCommit repoName headSha) w).
  exists (set_cache (repoName +:+ "@" +:+ headSha) (RecentCommits.mkInfo data)
            (log_request (GetCommit repoName headSha)
               (log_request (GetCommit repoName headSha) w))).
  assert (Hguard : forall ev, payload_head ev = Some headSha ->
            truthy (payload_head ev)
            && negb (bool_decide (default "" (payload_head ev) ∈ RecentCommits.seen st))
            = true).
  { intros ev Hev. rewrite Hev, (truthy_Some _ Hne). simpl.
    rewrite bool_decide_eq_false_2 by exact Hseen. reflexivity. }
  split; [|split; [reflexivity|split; [reflexivity|split; [|split]]]].
  - rewrite (eventStep_head _ _ _ _ _ _ st H1).
    unfold RecentCommits.headStep. rewrite (Hguard _ Hh1), Hh1. simpl.
    unfold bind, RecentCommits.fetchCommitDetails. rewrite Hcache.
    unfold bind, fetch_commit.
    destruct (commit_endpoint (server w) (length (requests w)) repoName headSha)
      as [|ok ? ? ? json]; [reflexivity|].
    simpl in Hfail. subst ok. reflexivity.
  - rewrite (eventStep_head _ _ _ _ _ _ st H2).
    unfold RecentCommits.headStep. rewrite (Hguard _ Hh2), Hh2. simpl.
    unfold bind, RecentCommits.fetchCommitDetails. simpl. rewrite Hcache.
    unfold bind, fetch_commit. simpl. rewrite length_app. simpl.
    replace (length (requests w) + 1)%nat with (S (length (requests w))) by lia.
    rewrite Hok. simpl.
    unfold RecentCommitsFacts.after_push, RecentCommitsFacts.push, head_record. simpl.
    match goal with |- context [if ?b then _ else _] => destruct b end; reflexivity.
  - simpl. rewrite <- app_assoc. reflexivity.
  - simpl. apply lookup_insert_eq.
Qed.

Definition retry_data : CommitData :=
  {| data_commit_message := Some "Fix the build"; data_html_url := None;
     author_date := Some "2025-12-31T12:00:00Z"; committer_date := None |}.

(** The first commit lookup of the run is rejected, later ones succeed. *)
Definition flaky : Server :=
  feed [] (fun n => match n with
                    | O => FetchRejected
                    | S _ => Http true 200 "OK" "" (Some retry_data)
                    end).

Lemma failed_lookup_retried_witness :
  exists w1 w2,
    RecentCommits.eventStep clock (commit_config 3)
      (head_push "2026-01-01T00:00:00Z" "0123456789abcdef")
      {| RecentCommits.commits := []; RecentCommits.seen := ∅ |} (start flaky)
    = (Ok (Continue {| RecentCommits.commits := []; RecentCommits.seen := ∅ |}), w1) /\
    commitCache w1 = commitCache (start flaky) /\
    requests w1 = requests (start flaky) ++ [GetCommit "o/r" "0123456789abcdef"] /\
    RecentCommits.eventStep clock (commit_config 3)
      (head_push "2026-01-01T00:00:00Z" "0123456789abcdef")
      {| RecentCommits.commits := []; RecentCommits.seen := ∅ |} w1
    = (Ok (RecentCommitsFacts.after_push (commit_config 3)
             (RecentCommitsFacts.push "0123456789abcdef"
                (head_record clock "o/r" "0123456789abcdef" 1767225600000
                   (RecentCommits.mkInfo retry_data))
                {| RecentCommits.commits := []; RecentCommits.seen := ∅ |})),
       w2) /\
    requests w2 = requests (start flaky) ++
      [GetCommit "o/r" "0123456789abcdef"; GetCommit "o/r" "0123456789abcdef"] /\
    commitCache w2 !! ("o/r" +:+ "@" +:+ "0123456789abcdef")
      = Some (RecentCommits.mkInfo retry_data).
Proof.
  apply (failed_lookup_retried clock (commit_config 3)
           (head_push "2026-01-01T00:00:00Z" "0123456789abcdef")
           (head_push "2026-01-01T00:00:00Z" "0123456789abcdef")
           "o/r" "0123456789abcdef" 1767225600000 1767225600000
           {| RecentCommits.commits := []; RecentCommits.seen := ∅ |}
           (start flaky) 200 "OK" "" retry_data).
  - repeat split; try discriminate; try (now left); vm_compute; discriminate.
  - repeat split; try discriminate; try (now left); vm_compute; discriminate.
  - apply not_elem_of_empty.
  - reflexivity.
  - exact I.
  - reflexivity.
Defined.

End ReporterFacts.

(** ** The language badge *)
(** ** binary64 on the kernel's floats *)
Module Float64Facts.
Import SpecFloat FloatOps FloatAxioms JS.

Lemma digits_bounds (p : positive) :
  2 ^ (Z.pos (digits2_pos p) - 1) <= Z.pos p < 2 ^ Z.pos (digits2_pos p).
Proof.
  induction p as [p IH|p IH|]; simpl digits2_pos.
  - rewrite Pos2Z.inj_succ. replace (Z.succ (Z.pos (digits2_pos p)) - 1)
      with (Z.succ (Z.pos (digits2_pos p) - 1)) by lia.
    rewrite !Z.pow_succ_r by lia. lia.
  - rewrite Pos2Z.inj_succ. replace (Z.succ (Z.pos (digits2_pos p)) - 1)
      with (Z.succ (Z.pos (digits2_pos p) - 1)) by lia.
    rewrite !Z.pow_succ_r by lia. lia.
  - simpl. lia.
Qed.

Lemma digits_unique (p : positive) (d : Z) :
  2 ^ (d - 1) <= Z.pos p < 2 ^ d -> Z.pos (digits2_pos p) = d.
Proof.
  intros [Hlo Hhi]. pose proof (digits_bounds p) as [Hl Hh].
  set (k := Z.pos (digits2_pos p)) in *.
  assert (0 < d).
  { destruct (Z_lt_le_dec 0 d); [assumption|].
    rewrite (Z.pow_neg_r 2 (d - 1)) in Hlo by lia.
    destruct (Z.eq_dec d 0) as [->|]; [simpl in Hhi; lia|].
    rewrite Z.pow_neg_r in Hhi by lia. lia. }
  destruct (Z.lt_trichotomy k d) as [Hlt|[Heq|Hgt]]; [|exact Heq|].
  - assert (2 ^ k <= 2 ^ (d - 1)) by (apply Z.pow_le_mono_r; lia). lia.
  - assert (2 ^ d <= 2 ^ (k - 1)) by (apply Z.pow_le_mono_r; lia). lia.
Qed.

Lemma shr_1_m (mrs : shr_record) :
  0 <= shr_m mrs -> shr_m (shr_1 mrs) = shr_m mrs / 2.
Proof.
  destruct mrs as [m r s]. simpl. intros Hm.
  destruct m as [|[p|p|]|p]; simpl; try reflexivity; try lia.
  - rewrite Pos2Z.inj_xI. apply Z.div_unique with 1; lia.
  - rewrite Pos2Z.inj_xO. apply Z.div_unique with 0; lia.
Qed.

Lemma iter_shr_m (p : positive) (mrs : shr_record) :
  0 <= shr_m mrs ->
  shr_m (iter_pos shr_1 p mrs) = shr_m mrs / 2 ^ Z.pos p.
Proof.
  revert mrs. induction p as [p IH|p IH|]; intros mrs Hm; simpl iter_pos.
  - assert (H1 : 0 <= shr_m (shr_1 mrs)).
    { rewrite shr_1_m by exact Hm. apply Z.div_pos; lia. }
    assert (H2 : 0 <= shr_m (iter_pos shr_1 p (shr_1 mrs))).
    { rewrite IH by exact H1. apply Z.div_pos; [exact H1|]. apply Z.pow_pos_nonneg; lia. }
    assert (Hp : 0 < 2 ^ Z.pos p) by (apply Z.pow_pos_nonneg; lia).
    assert (E : 2 ^ Z.pos p~1 = 2 * (2 ^ Z.pos p * 2 ^ Z.pos p)).
    { change (Z.pos p~1) with (2 * Z.pos p + 1).
      replace (2 * Z.pos p + 1) with (1 + (Z.pos p + Z.pos p)) by lia.
      rewrite !Z.pow_add_r by lia. reflexivity. }
    rewrite IH by exact H2. rewrite IH by exact H1. rewrite shr_1_m by exact Hm.
    rewrite E. rewrite !Z.div_div by lia. reflexivity.
  - assert (H2 : 0 <= shr_m (iter_pos shr_1 p mrs)).
    { rewrite IH by exact Hm. apply Z.div_pos; [exact Hm|]. apply Z.pow_pos_nonneg; lia. }
    assert (Hp : 0 < 2 ^ Z.pos p) by (apply Z.pow_pos_nonneg; lia).
    assert (E : 2 ^ Z.pos p~0 = 2 ^ Z.pos p * 2 ^ Z.pos p).
    { change (Z.pos p~0) with (2 * Z.pos p).
      replace (2 * Z.pos p) with (Z.pos p + Z.pos p) by lia.
      rewrite !Z.pow_add_r by lia. reflexivity. }
    rewrite IH by exact H2. rewrite IH by exact Hm.
    rewrite E. rewrite !Z.div_div by lia. reflexivity.
  - rewrite shr_1_m by exact Hm. reflexivity.
Qed.

Lemma shr_record_of_loc_m m l : shr_m (shr_record_of_loc m l) = m.
Proof. destruct l as [|[ | | ]]; reflexivity. Qed.

Lemma loc_of_shr_record_of_loc m l : loc_of_shr_record (shr_record_of_loc m l) = l.
Proof. destruct l as [|[ | | ]]; reflexivity. Qed.

Lemma round_nearest_even_range m l :
  m <= round_nearest_even m l <= m + 1.
Proof.
  destruct l as [|[ | | ]]; simpl; try lia. destruct (Z.even m); lia.
Qed.

Lemma fexp_normal e : -1074 <= e - 53 -> fexp prec emax e = e - 53.
Proof. unfold fexp, emin, prec, emax. lia. Qed.

Lemma shr_fexp_keep m e l :
  fexp prec emax (Zdigits2 m + e) - e <= 0 ->
  shr_fexp prec emax m e l = (shr_record_of_loc m l, e).
Proof.
  intros Hn. unfold shr_fexp, shr.
  destruct (fexp prec emax (Zdigits2 m + e) - e) as [|p|p]; try reflexivity. lia.
Qed.

Lemma shr_fexp_shift m e l n :
  0 <= m -> fexp prec emax (Zdigits2 m + e) - e = n -> 0 < n ->
  exists mrs, shr_fexp prec emax m e l = (mrs, e + n) /\ shr_m mrs = m / 2 ^ n.
Proof.
  intros Hm Hn Hpos. unfold shr_fexp, shr. rewrite Hn.
  destruct n as [|p|p]; try lia.
  eexists. split; [reflexivity|].
  rewrite iter_shr_m; rewrite shr_record_of_loc_m; [reflexivity|exact Hm].
Qed.

(** Rounding a mantissa of at least 53 bits, in the normal range: the result
    is a normal number that lies less than one unit in its last place below
    the number rounded. *)
Lemma binary_round_aux_normal sx (mx : positive) ex lx :
  53 <= Z.pos (digits2_pos mx) ->
  -1074 <= Z.pos (digits2_pos mx) + ex - 53 ->
  Z.pos (digits2_pos mx) + ex - 53 + 1 <= 971 ->
  exists (m : positive) (k : Z),
    binary_round_aux prec emax sx (Z.pos mx) ex lx = S754_finite sx m (ex + k) /\
    0 <= k <= Z.pos (digits2_pos mx) - 52 /\ 2 ^ 52 <= Z.pos m < 2 ^ 53 /\
    Z.pos mx + 1 <= (Z.pos m + 1) * 2 ^ k.
Proof.
  intros Hd Hlo Hhi. pose proof (digits_bounds mx) as [Hb1 Hb2].
  remember (Z.pos (digits2_pos mx)) as d eqn:Hdd.
  remember (d - 53) as n eqn:Hn.
  assert (Hn0 : 0 <= n) by lia.
  assert (Hpn : 0 < 2 ^ n) by (apply Z.pow_pos_nonneg; lia).
  assert (Hfe : fexp prec emax (Zdigits2 (Z.pos mx) + ex) - ex = n).
  { simpl Zdigits2. rewrite <- Hdd. rewrite fexp_normal by lia. lia. }
  assert (H1 : exists mrs, shr_fexp prec emax (Z.pos mx) ex lx = (mrs, ex + n) /\
                           shr_m mrs = Z.pos mx / 2 ^ n).
  { destruct (Z.eq_dec n 0) as [E|E].
    - exists (shr_record_of_loc (Z.pos mx) lx). rewrite shr_fexp_keep by lia.
      rewrite E, Z.add_0_r, shr_record_of_loc_m. simpl. rewrite Z.div_1_r. split; reflexivity.
    - apply shr_fexp_shift; lia. }
  destruct H1 as (mrs & Hshr & Hm).
  remember (Z.pos mx / 2 ^ n) as m' eqn:Hm'.
  assert (Hd1 : 2 ^ (d - 1) = 2 ^ 52 * 2 ^ n).
  { replace (d - 1) with (52 + n) by lia. apply Z.pow_add_r; lia. }
  assert (Hd2 : 2 ^ d = 2 ^ 53 * 2 ^ n).
  { replace d with (53 + n) at 1 by lia. apply Z.pow_add_r; lia. }
  assert (Hm1 : 2 ^ 52 <= m').
  { rewrite Hm'. apply Z.div_le_lower_bound; lia. }
  assert (Hm2 : m' < 2 ^ 53).
  { rewrite Hm'. apply Z.div_lt_upper_bound; lia. }
  assert (Hm3 : Z.pos mx < (m' + 1) * 2 ^ n).
  { pose proof (Z.div_mod (Z.pos mx) (2 ^ n) ltac:(lia)) as Hdm.
    pose proof (Z.mod_pos_bound (Z.pos mx) (2 ^ n) Hpn) as Hmod.
    rewrite <- Hm' in Hdm. lia. }
  pose proof (round_nearest_even_range m' (loc_of_shr_record mrs)) as Hr.
  remember (round_nearest_even m' (loc_of_shr_record mrs)) as r1 eqn:Hr1.
  unfold binary_round_aux. rewrite Hshr. rewrite Hm, <- Hr1.
  assert (Hr1pos : 0 < r1) by lia.
  destruct r1 as [|rp|rp]; try lia.
  destruct (Z_lt_le_dec (Z.pos rp) (2 ^ 53)) as [Hlt|Hge].
  - assert (Hdig : Z.pos (digits2_pos rp) = 53).
    { apply digits_unique. change (53 - 1) with 52. lia. }
    rewrite shr_fexp_keep.
    + rewrite shr_record_of_loc_m.
      replace (ex + n <=? emax - prec) with true
        by (symmetry; apply Z.leb_le; unfold emax, prec; lia).
      exists rp, n. split; [reflexivity|]. split; [lia|]. split; [lia|]. nia.
    + simpl Zdigits2. rewrite Hdig. rewrite fexp_normal by lia. lia.
  - assert (Heq : Z.pos rp = 2 ^ 53) by lia.
    assert (Hdig : Z.pos (digits2_pos rp) = 54).
    { apply digits_unique. change (54 - 1) with 53. rewrite Heq.
      split; [lia|]. apply Z.pow_lt_mono_r; lia. }
    destruct (shr_fexp_shift (Z.pos rp) (ex + n) loc_Exact 1) as (mrs2 & Hshr2 & Hm2');
      [lia| |lia|].
    { simpl Zdigits2. rewrite Hdig. rewrite fexp_normal by lia. lia. }
    rewrite Hshr2, Hm2', Heq.
    change (2 ^ 53 / 2 ^ 1) with (Z.pos (2 ^ 52)%positive).
    replace (ex + n + 1 <=? emax - prec) with true
      by (symmetry; apply Z.leb_le; unfold emax, prec; lia).
    exists (2 ^ 52)%positive, (n + 1). split; [f_equal; lia|]. split; [lia|].
    split; [change (Z.pos (2 ^ 52)) with (2 ^ 52); lia|].
    change (Z.pos (2 ^ 52)) with (2 ^ 52). rewrite Z.pow_add_r by lia.
    change (2 ^ 1) with 2. lia.
Qed.

Lemma binary_round_aux_exact sx (m : positive) e :
  Z.pos (digits2_pos m) = 53 -> -1074 <= e <= 971 ->
  binary_round_aux prec emax sx (Z.pos m) e loc_Exact = S754_finite sx m e.
Proof.
  intros Hd He.
  assert (Hfe : fexp prec emax (Zdigits2 (Z.pos m) + e) - e <= 0).
  { simpl Zdigits2. rewrite Hd. rewrite fexp_normal by lia. lia. }
  unfold binary_round_aux. rewrite shr_fexp_keep by exact Hfe.
  cbn [shr_record_of_loc shr_m loc_of_shr_record round_nearest_even].
  rewrite shr_fexp_keep by exact Hfe.
  cbn [shr_record_of_loc shr_m].
  replace (e <=? emax - prec) with true
    by (symmetry; apply Z.leb_le; unfold emax, prec; lia).
  reflexivity.
Qed.

Lemma iter_xO (p q : positive) : Z.pos (Pos.iter xO p q) = Z.pos p * 2 ^ Z.pos q.
Proof.
  induction q as [|q IH] using Pos.peano_ind.
  - simpl. lia.
  - rewrite Pos.iter_succ, Pos2Z.inj_succ, Z.pow_succ_r by lia.
    change (Z.pos (Pos.iter xO p q)~0) with (2 * Z.pos (Pos.iter xO p q)).
    rewrite IH. lia.
Qed.

(** A positive integer below 2^53 is a double: normalised to 53 bits, the
    mantissa times two to the exponent is the integer. *)
Lemma normalize_int (z : Z) :
  0 < z < 2 ^ 53 ->
  exists (m : positive) (k : Z),
    binary_normalize prec emax z 0 false = S754_finite false m (- k) /\
    0 <= k <= 52 /\ Z.pos m = z * 2 ^ k /\ Z.pos (digits2_pos m) = 53.
Proof.
  intros [Hz1 Hz2]. destruct z as [|p|p]; try lia.
  pose proof (digits_bounds p) as [Hb1 Hb2].
  remember (Z.pos (digits2_pos p)) as d eqn:Hd.
  assert (Hd1 : 1 <= d) by (rewrite Hd; lia).
  assert (Hd53 : d <= 53).
  { destruct (Z_lt_le_dec 53 d) as [H|H]; [|exact H].
    assert (2 ^ 53 <= 2 ^ (d - 1)) by (apply Z.pow_le_mono_r; lia). lia. }
  unfold binary_normalize, binary_round.
  rewrite Z.add_0_r, <- Hd. rewrite fexp_normal by lia.
  unfold shl_align. rewrite Z.sub_0_r.
  destruct (d - 53) as [|q|q] eqn:Hq; try lia.
  - exists p, 0. rewrite binary_round_aux_exact by lia.
    split; [reflexivity|]. split; [lia|]. split; [lia|]. lia.
  - assert (Hk : Z.pos q = 53 - d) by lia.
    assert (Hm : Z.pos (Pos.iter xO p q) = Z.pos p * 2 ^ Z.pos q) by apply iter_xO.
    assert (Hpq : 0 < 2 ^ Z.pos q) by (apply Z.pow_pos_nonneg; lia).
    assert (Hdig : Z.pos (digits2_pos (Pos.iter xO p q)) = 53).
    { assert (E1 : 2 ^ 52 = 2 ^ (d - 1) * 2 ^ Z.pos q).
      { rewrite <- Z.pow_add_r by lia. f_equal. lia. }
      assert (E2 : 2 ^ 53 = 2 ^ d * 2 ^ Z.pos q).
      { rewrite <- Z.pow_add_r by lia. f_equal. lia. }
      apply digits_unique. rewrite Hm. change (53 - 1) with 52.
      rewrite E1, E2. nia. }
    exists (Pos.iter xO p q), (Z.pos q).
    rewrite binary_round_aux_exact by (try exact Hdig; lia).
    split; [reflexivity|]. split; [lia|]. split; [exact Hm|exact Hdig].
Qed.

Lemma valid_normal (s : bool) (m : positive) (e : Z) :
  Z.pos (digits2_pos m) = 53 -> -1074 <= e <= 971 ->
  valid_binary (S754_finite s m e) = true.
Proof.
  intros Hd He. unfold SpecFloat.valid_binary, bounded, canonical_mantissa.
  rewrite Hd, fexp_normal by lia. apply andb_true_intro. split.
  - apply Z.eqb_eq. lia.
  - apply Z.leb_le. unfold emax, prec. lia.
Qed.

Lemma digits_53 (m : positive) : 2 ^ 52 <= Z.pos m < 2 ^ 53 -> Z.pos (digits2_pos m) = 53.
Proof. intros H. apply digits_unique. exact H. Qed.

(** Division of two normal numbers whose quotient is in the normal range:
    the result lies less than one unit in its last place below the exact
    quotient. *)
Lemma SFdiv_normal (m1 m2 : positive) (e1 e2 : Z) :
  Z.pos (digits2_pos m1) = 53 -> Z.pos (digits2_pos m2) = 53 ->
  -1000 <= e1 - e2 <= 900 ->
  exists (m : positive) (k : Z),
    SFdiv prec emax (S754_finite false m1 e1) (S754_finite false m2 e2)
    = S754_finite false m (e1 - e2 - 53 + k) /\
    0 <= k <= 2 /\ 2 ^ 52 <= Z.pos m < 2 ^ 53 /\
    Z.pos m1 * 2 ^ 53 < (Z.pos m + 1) * 2 ^ k * Z.pos m2.
Proof.
  intros H1 H2 He.
  pose proof (digits_bounds m1) as [Ha1 Ha2]. rewrite H1 in Ha1, Ha2.
  pose proof (digits_bounds m2) as [Hb1 Hb2]. rewrite H2 in Hb1, Hb2.
  change (53 - 1) with 52 in *.
  unfold SFdiv, SFdiv_core_binary. cbv zeta. simpl Zdigits2. rewrite H1, H2.
  assert (He' : Z.min (fexp prec emax (53 + e1 - (53 + e2))) (e1 - e2) = e1 - e2 - 53).
  { rewrite fexp_normal by lia. lia. }
  rewrite He'. replace (e1 - e2 - (e1 - e2 - 53)) with 53 by lia.
  rewrite Z.shiftl_mul_pow2 by lia.
  pose proof (Z_div_mod (Z.pos m1 * 2 ^ 53) (Z.pos m2) ltac:(lia)) as Hdm.
  destruct (Z.div_eucl (Z.pos m1 * 2 ^ 53) (Z.pos m2)) as [q r].
  destruct Hdm as [Hdm Hr].
  assert (Hq1 : 2 ^ 52 <= q).
  { assert (2 ^ 52 * 2 ^ 53 <= Z.pos m2 * q + r) by nia.
    assert (Z.pos m2 * (2 ^ 52 - 1) + r < 2 ^ 52 * 2 ^ 53) by nia.
    nia. }
  assert (Hq2 : q < 2 ^ 54).
  { assert (Z.pos m2 * q < 2 ^ 53 * 2 ^ 53) by nia.
    change (2 ^ 54) with (2 * 2 ^ 53). nia. }
  destruct q as [|qp|qp]; try lia.
  assert (Hdq : 53 <= Z.pos (digits2_pos qp) <= 54).
  { pose proof (digits_bounds qp) as [Hc1 Hc2].
    remember (Z.pos (digits2_pos qp)) as dq. split.
    - destruct (Z_lt_le_dec dq 53) as [H|H]; [|exact H].
      assert (2 ^ dq <= 2 ^ 52) by (apply Z.pow_le_mono_r; lia). lia.
    - destruct (Z_lt_le_dec 54 dq) as [H|H]; [|exact H].
      assert (2 ^ 54 <= 2 ^ (dq - 1)) by (apply Z.pow_le_mono_r; lia). lia. }
  destruct (binary_round_aux_normal false qp (e1 - e2 - 53) (new_location (Z.pos m2) r))
    as (m & k & Hres & Hk & Hm & Hle); try lia.
  exists m, k. cbn [xorb]. rewrite Hres. split; [reflexivity|]. split; [lia|].
  split; [exact Hm|].
  assert (Hp : 0 < 2 ^ k) by (apply Z.pow_pos_nonneg; lia).
  nia.
Qed.

(** Multiplication of two normal numbers whose product is in the normal
    range: the result lies less than one unit in its last place below the
    exact product. *)
Lemma SFmul_normal (m1 m2 : positive) (e1 e2 : Z) :
  Z.pos (digits2_pos m1) = 53 -> Z.pos (digits2_pos m2) = 53 ->
  -1000 <= e1 + e2 <= 800 ->
  exists (m : positive) (k : Z),
    SFmul prec emax (S754_finite false m1 e1) (S754_finite false m2 e2)
    = S754_finite false m (e1 + e2 + k) /\
    0 <= k <= 54 /\ 2 ^ 52 <= Z.pos m < 2 ^ 53 /\
    Z.pos m1 * Z.pos m2 + 1 <= (Z.pos m + 1) * 2 ^ k.
Proof.
  intros H1 H2 He.
  pose proof (digits_bounds m1) as [Ha1 Ha2]. rewrite H1 in Ha1, Ha2.
  pose proof (digits_bounds m2) as [Hb1 Hb2]. rewrite H2 in Hb1, Hb2.
  change (53 - 1) with 52 in *.
  unfold SFmul.
  assert (Hd : 105 <= Z.pos (digits2_pos (m1 * m2)) <= 106).
  { pose proof (digits_bounds (m1 * m2)) as [Hc1 Hc2].
    rewrite Pos2Z.inj_mul in Hc1, Hc2.
    remember (Z.pos (digits2_pos (m1 * m2))) as dp. split.
    - destruct (Z_lt_le_dec dp 105) as [H|H]; [|exact H].
      assert (2 ^ dp <= 2 ^ 104) by (apply Z.pow_le_mono_r; lia).
      change (2 ^ 104) with (2 ^ 52 * 2 ^ 52) in *. nia.
    - destruct (Z_lt_le_dec 106 dp) as [H|H]; [|exact H].
      assert (2 ^ 106 <= 2 ^ (dp - 1)) by (apply Z.pow_le_mono_r; lia).
      change (2 ^ 106) with (2 ^ 53 * 2 ^ 53) in *. nia. }
  destruct (binary_round_aux_normal false (m1 * m2) (e1 + e2) loc_Exact)
    as (m & k & Hres & Hk & Hm & Hle); try lia.
  exists m, k. cbn [xorb]. rewrite Hres. split; [reflexivity|]. split; [lia|].
  split; [exact Hm|]. rewrite Pos2Z.inj_mul in Hle. exact Hle.
Qed.

(** The double of a positive integer below 2^53. *)
Lemma f64_of_Z_int (z : Z) :
  0 < z < 2 ^ 53 ->
  exists (m : positive) (k : Z),
    Prim2SF (f64_of_Z z) = S754_finite false m (- k) /\
    0 <= k <= 52 /\ Z.pos m = z * 2 ^ k /\ Z.pos (digits2_pos m) = 53.
Proof.
  intros Hz. destruct (normalize_int z Hz) as (m & k & Hn & Hk & Hm & Hd).
  exists m, k. unfold f64_of_Z. rewrite Hn.
  rewrite Prim2SF_SF2Prim by (apply valid_normal; [exact Hd|lia]).
  repeat split; try assumption; lia.
Qed.

(** The rational a finite positive double denotes, scaled to an integer. *)
Lemma finite_value_scaled (m : positive) (e n : Z) :
  0 <= n -> 0 <= e + n ->
  ((if 0 <=? e then inject_Z (Z.pos m * 2 ^ e)
    else Qmake (Z.pos m) (Pos.pow 2 (Z.to_pos (- e)))) * inject_Z (2 ^ n)
   == inject_Z (Z.pos m * 2 ^ (e + n)))%Q.
Proof.
  intros Hn Hen. destruct (Z.leb_spec 0 e) as [He|He].
  - rewrite <- inject_Z_mult. rewrite Z.pow_add_r by lia.
    rewrite Z.mul_assoc. reflexivity.
  - unfold Qeq, Qmult, inject_Z. cbn [Qnum Qden].
    rewrite Pos2Z.inj_mul, Pos2Z.inj_pow. rewrite Z2Pos.id by lia.
    change (Z.pos 1) with 1. rewrite !Z.mul_1_r.
    replace n with ((e + n) + (- e)) at 1 by lia.
    rewrite Z.pow_add_r by lia. ring.
Qed.

Lemma two_roundings (mD mR : Z) :
  2 ^ 52 <= mD -> 2 ^ 52 <= mR ->
  (mD + 1) * (mR + 1) * (2 ^ 51 - 1) <= mD * mR * 2 ^ 51.
Proof.
  intros HD HR.
  assert (H1 : 0 <= (mD - 2 ^ 52) * (mR - 2 ^ 52)) by (apply Z.mul_nonneg_nonneg; lia).
  change (2 ^ 52) with (2 * 2 ^ 51) in *.
  remember (2 ^ 51) as U eqn:HU.
  assert (HUpos : 0 < U) by (rewrite HU; reflexivity).
  nia.
Qed.

(** The share computation of [buildSvg] on binary64: for positive integers
    below 2^53 the double [(a / b) * c] lies at most a relative 2^-51 below
    the exact value (each of the two operations loses less than one unit in
    the last place of its result). *)
Lemma scaled_quotient_lower (a b c : Z) :
  0 < a < 2 ^ 53 -> 0 < b < 2 ^ 53 -> 0 < c < 2 ^ 53 ->
  (inject_Z a / inject_Z b * inject_Z c * (1 - (1 # 2251799813685248))
   <= scaled_quotient binary64 a b c)%Q.
Proof.
  intros Ha Hb Hc.
  destruct (f64_of_Z_int a Ha) as (m1 & k1 & E1 & Hk1 & Hm1 & Hd1).
  destruct (f64_of_Z_int b Hb) as (m2 & k2 & E2 & Hk2 & Hm2 & Hd2).
  destruct (f64_of_Z_int c Hc) as (m3 & k3 & E3 & Hk3 & Hm3 & Hd3).
  destruct (SFdiv_normal m1 m2 (- k1) (- k2) Hd1 Hd2 ltac:(lia))
    as (mD & kd & ED & Hkd & HmD & HA).
  destruct (SFmul_normal mD m3 (- k1 - - k2 - 53 + kd) (- k3)
              (digits_53 mD HmD) Hd3 ltac:(lia))
    as (mR & kr & ER & Hkr & HmR & HB).
  cbn [scaled_quotient binary64]. unfold Q_of_f64.
  rewrite mul_spec, div_spec, E1, E2, E3. unfold SF64mul, SF64div.
  rewrite ED, ER.
  remember (- k1 - - k2 - 53 + kd + - k3 + kr) as eR eqn:HeR.
  remember (k1 + 53 + k3) as n eqn:Hn.
  assert (Hn0 : 0 <= n) by lia.
  assert (Hen : eR + n = k2 + kd + kr) by lia.
  pose proof (finite_value_scaled mR eR n Hn0 ltac:(lia)) as Hval.
  remember (if 0 <=? eR then inject_Z (Z.pos mR * 2 ^ eR)
            else Qmake (Z.pos mR) (Pos.pow 2 (Z.to_pos (- eR)))) as v eqn:Hv.
  assert (Hpn : 0 < 2 ^ n) by (apply Z.pow_pos_nonneg; lia).
  assert (HP : (0 < inject_Z (2 ^ n))%Q).
  { change 0%Q with (inject_Z 0). rewrite <- Zlt_Qlt. exact Hpn. }
  apply (Qmult_le_r _ _ _ HP). rewrite Hval, Hen.
  assert (Hb0 : ~ (inject_Z b == 0)%Q).
  { intros H. unfold Qeq in H. simpl in H. lia. }
  assert (HX : (inject_Z a / inject_Z b * inject_Z c * (1 - (1 # 2251799813685248))
                * inject_Z (2 ^ n)
                == inject_Z (a * c * (2 ^ 51 - 1) * 2 ^ n) / inject_Z (b * 2 ^ 51))%Q).
  { rewrite !inject_Z_mult. change (inject_Z (2 ^ 51 - 1)) with (2251799813685247 # 1)%Q.
    change (inject_Z (2 ^ 51)) with (2251799813685248 # 1)%Q.
    field. exact Hb0. }
  rewrite HX. apply Qle_shift_div_r.
  { change 0%Q with (inject_Z 0). rewrite <- Zlt_Qlt. lia. }
  rewrite <- inject_Z_mult, <- Zle_Qle.
  (* the integer inequality *)
  rewrite Hn, !Z.pow_add_r by lia.
  assert (P1 : 0 < 2 ^ k1) by (apply Z.pow_pos_nonneg; lia).
  assert (P2 : 0 < 2 ^ k2) by (apply Z.pow_pos_nonneg; lia).
  assert (P3 : 0 < 2 ^ k3) by (apply Z.pow_pos_nonneg; lia).
  assert (Pd : 0 < 2 ^ kd) by (apply Z.pow_pos_nonneg; lia).
  assert (Pr : 0 < 2 ^ kr) by (apply Z.pow_pos_nonneg; lia).
  remember (2 ^ k1) as A1. remember (2 ^ k2) as A2. remember (2 ^ k3) as A3.
  remember (2 ^ kd) as Kd. remember (2 ^ kr) as Kr.
  remember (Z.pos m1) as M1. remember (Z.pos m2) as M2. remember (Z.pos m3) as M3.
  remember (Z.pos mD) as MD. remember (Z.pos mR) as MR.
  pose proof (two_roundings MD MR ltac:(lia) ltac:(lia)) as HC.
  assert (Q1 : 0 < M1) by (subst M1; lia).
  assert (Q2 : 0 < M2) by (subst M2; lia).
  assert (Q3 : 0 < M3) by (subst M3; lia).
  assert (QD : 0 < MD) by lia.
  assert (QR : 0 < MR) by lia.
  remember (2 ^ 51) as U. remember (2 ^ 53) as S.
  assert (HU : 1 < U) by (subst U; reflexivity).
  assert (HS : 0 < S) by (subst S; reflexivity).
  clear HeqA1 HeqA2 HeqA3 HeqKd HeqKr HeqM1 HeqM2 HeqM3 HeqMD HeqMR HeqU HeqS
        E1 E2 E3 ED ER Hval Hv HX HP Hd1 Hd2 Hd3.
  assert (HW : (M1 * S) * (MD * M3) <= ((MD + 1) * Kd * M2) * ((MR + 1) * Kr)).
  { apply Z.mul_le_mono_nonneg.
    - apply Z.mul_nonneg_nonneg; lia.
    - lia.
    - apply Z.mul_nonneg_nonneg; lia.
    - lia. }
  assert (H2 : MD * (M1 * S * M3 * (U - 1)) <= MD * (MR * U * (Kd * M2 * Kr))).
  { transitivity ((MD + 1) * (MR + 1) * (U - 1) * (Kd * M2 * Kr)).
    - replace (MD * (M1 * S * M3 * (U - 1))) with ((M1 * S) * (MD * M3) * (U - 1)) by ring.
      replace ((MD + 1) * (MR + 1) * (U - 1) * (Kd * M2 * Kr))
        with (((MD + 1) * Kd * M2) * ((MR + 1) * Kr) * (U - 1)) by ring.
      apply Z.mul_le_mono_nonneg_r; [lia|exact HW].
    - replace (MD * (MR * U * (Kd * M2 * Kr))) with (MD * MR * U * (Kd * M2 * Kr)) by ring.
      apply Z.mul_le_mono_nonneg_r; [|exact HC].
      apply Z.mul_nonneg_nonneg; [apply Z.mul_nonneg_nonneg|]; lia. }
  apply Z.mul_le_mono_pos_l in H2; [|lia].
  rewrite Hm1, Hm2, Hm3 in H2.
  replace (a * c * (U - 1) * (A1 * S * A3)) with (a * A1 * S * (c * A3) * (U - 1)) by ring.
  replace (MR * (A2 * Kd * Kr) * (b * U)) with (MR * U * (Kd * (b * A2) * Kr)) by ring.
  exact H2.
Qed.

End Float64Facts.

Module BadgeFacts.
Import JS Badge.

Definition edge (name : string) (size : Z) (color : option string) : LanguageEdge :=
  {| edge_size := Some size; node_name := Some name; node_color := color |}.

(** *** Sorting and truncation *)

Lemma sort_insert_Forall {A} (P : A -> Prop) cmp x l :
  P x -> Forall P l -> Forall P (sort_insert cmp x l).
Proof.
  intros Hx Hl. induction Hl as [|y l Hy Hl IH]; simpl.
  - repeat constructor. exact Hx.
  - destruct (cmp x y <=? 0); repeat constructor; assumption.
Qed.

Lemma sort_Forall {A} (P : A -> Prop) cmp l : Forall P l -> Forall P (sort cmp l).
Proof.
  intros Hl. induction Hl as [|y l Hy Hl IH]; simpl; [constructor|].
  now apply sort_insert_Forall.
Qed.

Lemma slice_list_Forall {A} (P : A -> Prop) l a b :
  Forall P l -> Forall P (slice_list l a b).
Proof. intros H. unfold slice_list. now apply Forall_take, Forall_drop. Qed.

Lemma sort_insert_perm {A} cmp (x : A) l : sort_insert cmp x l ≡ₚ x :: l.
Proof.
  induction l as [|y l IH]; simpl; [reflexivity|].
  destruct (cmp x y <=? 0); [reflexivity|]. rewrite IH. apply Permutation_swap.
Qed.

(** The sorted array holds the same entries as the map. *)
Lemma sort_perm {A} cmp (l : list A) : sort cmp l ≡ₚ l.
Proof.
  induction l as [|y l IH]; simpl; [reflexivity|].
  rewrite sort_insert_perm. now rewrite IH.
Qed.

(** Sizes descend along the sorted array. *)
Lemma sort_descending (l : list (string * LangInfo)) :
  Sorted (fun a b => size (snd b) <= size (snd a))
    (sort (fun a b => size (snd b) - size (snd a)) l).
Proof.
  induction l as [|x l IH]; simpl; [constructor|].
  set (cmp := fun a b : string * LangInfo => size (snd b) - size (snd a)) in *.
  induction IH as [|y l' Hs IH' Hhd]; simpl.
  - repeat constructor.
  - destruct (Z.leb_spec (cmp x y) 0) as [Hle|Hgt].
    + constructor; [now constructor|]. constructor. unfold cmp in Hle. lia.
    + constructor; [exact IH'|].
      destruct l' as [|z l'']; simpl.
      * constructor. unfold cmp in Hgt. lia.
      * destruct (cmp x z <=? 0).
        -- constructor. unfold cmp in Hgt. lia.
        -- inversion Hhd; subst. now constructor.
Qed.

(** At most [topLanguagesLimit] entries are displayed when the limit is not
    negative. *)
Lemma entriesOf_length cfg languageMap :
  0 <= topLanguagesLimit cfg ->
  Z.of_nat (length (entriesOf cfg languageMap)) <= topLanguagesLimit cfg.
Proof.
  intros H. unfold entriesOf. rewrite JSFacts.slice_list_to by exact H.
  rewrite length_take. lia.
Qed.

(** *** Percentage labels *)

Definition sumZ (l : list Z) : Z := foldr Z.add 0 l.

Definition sizes (entries : list (string * LangInfo)) : list Z :=
  map (fun e => size (snd e)) entries.

(** The label computed for an entry of the given size. *)
Definition label (fp : Arith) (total s : Z) : Z :=
  Z.max 1 (Math_round (scaled_quotient fp s total 100)).

Lemma totalOf_sum entries : totalOf entries = sumZ (sizes entries).
Proof.
  unfold totalOf.
  assert (H : forall acc, fold_left (fun sum lang => sum + size (snd lang)) entries acc
                          = acc + sumZ (sizes entries)).
  { induction entries as [|e l IH]; intros acc; simpl; [lia|]. rewrite IH.
    change (sumZ (size (snd e) :: sizes l)) with (size (snd e) + sumZ (sizes l)). lia. }
  rewrite H. lia.
Qed.

Lemma imap_percent fp total entries :
  map percent (imap (rowOf fp total) entries) = map (label fp total) (sizes entries).
Proof.
  unfold sizes. rewrite map_map.
  assert (H : forall (f : nat -> string * LangInfo -> Row) g l,
             (forall i e, percent (f i e) = g e) -> map percent (imap f l) = map g l).
  { intros f g l. revert f. induction l as [|e l IH]; intros f Hf; simpl; [reflexivity|].
    rewrite Hf. f_equal. apply IH. intros i e'. apply Hf. }
  apply H. intros i e. reflexivity.
Qed.

(** Rounding to the nearest integer loses less than one half. *)
Lemma Math_round_lower (q : Q) : (2 * q <= inject_Z (2 * Math_round q + 1))%Q.
Proof.
  unfold Math_round.
  pose proof (Qlt_floor (q + (1 # 2))) as H.
  rewrite inject_Z_plus in H.
  rewrite inject_Z_plus, inject_Z_mult.
  change (inject_Z 2) with (2 # 1)%Q. change (inject_Z 1) with (1 # 1)%Q in *.
  lra.
Qed.

(** The share of [s] in [total] is computed accurately: at most a relative
    2^-51 below the exact share. *)
Definition accurate_at (fp : Arith) (total s : Z) : Prop :=
  (inject_Z s / inject_Z total * inject_Z 100 * (1 - (1 # 2251799813685248))
   <= scaled_quotient fp s total 100)%Q.

(** Twice a label plus one is at least [200 * (1 - 2^-51)] times the
    entry's exact share. *)
Lemma label_lower fp total s :
  accurate_at fp total s ->
  ((200 # 1) * (1 - (1 # 2251799813685248)) * (inject_Z s / inject_Z total)
   <= inject_Z (2 * label fp total s + 1))%Q.
Proof.
  intros Hacc. unfold label. unfold accurate_at in Hacc.
  pose proof (Math_round_lower (scaled_quotient fp s total 100)) as Hr.
  assert (Hmax : (inject_Z (2 * Math_round (scaled_quotient fp s total 100) + 1)
                  <= inject_Z (2 * Z.max 1 (Math_round (scaled_quotient fp s total 100)) + 1))%Q).
  { rewrite <- Zle_Qle. lia. }
  change (inject_Z 100) with (100 # 1)%Q in Hacc.
  set (u := (inject_Z s / inject_Z total)%Q) in *.
  lra.
Qed.

Lemma labels_lower fp total l :
  Forall (accurate_at fp total) l ->
  ((200 # 1) * (1 - (1 # 2251799813685248)) * (inject_Z (sumZ l) / inject_Z total)
   <= inject_Z (2 * sumZ (map (label fp total) l) + Z.of_nat (length l)))%Q.
Proof.
  intros Hl. induction Hl as [|s l Hs Hl IH].
  - change (inject_Z (2 * sumZ (map (label fp total) []) + Z.of_nat (length (@nil Z))))
      with 0%Q.
    change (inject_Z (sumZ [])) with 0%Q. unfold Qdiv.
    set (c := (/ inject_Z total)%Q). lra.
  - pose proof (label_lower fp total s Hs) as H1.
    change (sumZ (s :: l)) with (s + sumZ l).
    change (sumZ (map (label fp total) (s :: l)))
      with (label fp total s + sumZ (map (label fp total) l)).
    replace (2 * (label fp total s + sumZ (map (label fp total) l))
             + Z.of_nat (length (s :: l)))
      with ((2 * label fp total s + 1)
            + (2 * sumZ (map (label fp total) l) + Z.of_nat (length l)))
      by (simpl length; lia).
    rewrite !inject_Z_plus in *.
    unfold Qdiv in *.
    set (c := (/ inject_Z total)%Q) in *.
    set (a := inject_Z s) in *. set (b := inject_Z (sumZ l)) in *.
    lra.
Qed.

Lemma positive_le_sum l s :
  Forall (fun z => 0 < z) l -> s ∈ l -> s <= sumZ l.
Proof.
  intros Hl. induction Hl as [|z l Hz Hl IH]; intros Hin.
  - apply elem_of_nil in Hin. destruct Hin.
  - assert (0 <= sumZ l).
    { clear -Hl. induction Hl as [|y l Hy Hl IH]; simpl; [lia|].
      change (sumZ (y :: l)) with (y + sumZ l). lia. }
    change (sumZ (z :: l)) with (z + sumZ l).
    apply elem_of_cons in Hin. destruct Hin as [->|Hin]; [lia|].
    specialize (IH Hin). lia.
Qed.

(** The bound on the labels, from the accuracy of the shares that this
    render computes. *)
Lemma percent_labels_bound_at (fp : Arith) (cfg : Config) (languageMap : LanguageMap) :
  Forall (accurate_at fp (totalOf (entriesOf cfg languageMap)))
    (sizes (entriesOf cfg languageMap)) ->
  percentLabels fp cfg languageMap <> [] ->
  Forall (fun p => 1 <= p) (percentLabels fp cfg languageMap) /\
  200 <= 2 * sumZ (percentLabels fp cfg languageMap)
         + Z.of_nat (length (percentLabels fp cfg languageMap)).
Proof.
  intros Hacc Hne. unfold percentLabels, rowsOf in *.
  remember (entriesOf cfg languageMap) as entries eqn:Hentries.
  destruct (bool_decide (entries = []) || (totalOf entries =? 0)) eqn:Hguard;
    [congruence|].
  clear Hne. rewrite imap_percent.
  apply orb_false_iff in Hguard. destruct Hguard as [_ Htot].
  apply Z.eqb_neq in Htot.
  remember (sizes entries) as l eqn:Hl. remember (totalOf entries) as total eqn:Htotal.
  rewrite totalOf_sum, <- Hl in Htotal.
  split.
  - apply Forall_fmap, Forall_forall. intros s _. unfold label. simpl. lia.
  - pose proof (labels_lower fp total l Hacc) as Hlow.
    rewrite length_map.
    remember (2 * sumZ (map (label fp total) l) + Z.of_nat (length l)) as K eqn:HK.
    rewrite <- Htotal in Hlow.
    assert (Hone : (inject_Z total / inject_Z total == 1)%Q).
    { apply Qmult_inv_r. intros H. unfold Qeq in H. simpl in H. lia. }
    rewrite Hone in Hlow.
    destruct (Z_lt_le_dec K 200) as [Hlt|Hge]; [exfalso|lia].
    assert (HK' : (inject_Z K <= inject_Z 199)%Q) by (rewrite <- Zle_Qle; lia).
    change (inject_Z 199) with (199 # 1)%Q in HK'. lra.
Qed.

(** The defaults of the script, with the given top limit. *)
Definition badge_config (top : Z) : Config :=
  {| login := "simo981"; repoLimit := 40; perRepoLanguageLimit := 10;
     topLanguagesLimit := top; token := Some "t" |}.

Definition thirds : list RepoNode :=
  [ {| languages_edges := Some [edge "Python" 1000 None; edge "C" 1000 None;
                                edge "Rust" 1000 None] |} ].

(** C1 (as stated) fails. Three languages of equal size are each labelled
    33%, in binary64 as in exact arithmetic, and the labels sum to 99. *)
Lemma percent_labels_sum_99 :
  percentLabels binary64 (badge_config 6) (accumulate thirds) = [33; 33; 33] /\
  percentLabels exact (badge_config 6) (accumulate thirds) = [33; 33; 33] /\
  ~ (100 <= sumZ (percentLabels binary64 (badge_config 6) (accumulate thirds))).
Proof.
  assert (H : percentLabels binary64 (badge_config 6) (accumulate thirds) = [33; 33; 33]).
  { vm_compute. reflexivity. }
  split; [exact H|]. split; [vm_compute; reflexivity|].
  rewrite H. vm_compute. intros Hle. apply Hle. reflexivity.
Qed.

(** The accuracy of binary64, evaluated on the kernel's floats for every
    share [a / b * 100] with [1 <= a <= b <= 60]. *)
Example binary64_accurate_upto_60 :
  forallb (fun b =>
    forallb (fun a =>
      Qle_bool (inject_Z a / inject_Z b * inject_Z 100 * (1 - (1 # 2251799813685248)))
               (scaled_quotient binary64 a b 100))
      (seqZ 1 b))
    (seqZ 1 60) = true.
Proof. vm_compute. reflexivity. Qed.

(** The bound on binary64 itself, for a render in which one label rounds
    down where exact arithmetic rounds up: 23 and 17 bytes are labelled 57%
    and 43%. *)
Example labels_23_17 :
  let m := accumulate [ {| languages_edges := Some [edge "Go" 23 None; edge "C" 17 None] |} ] in
  percentLabels binary64 (badge_config 6) m = [57; 43] /\
  200 <= 2 * sumZ (percentLabels binary64 (badge_config 6) m)
         + Z.of_nat (length (percentLabels binary64 (badge_config 6) m)).
Proof.
  cbv zeta. split; [vm_compute; reflexivity|].
  apply percent_labels_bound_at.
  - repeat constructor; vm_compute; discriminate.
  - vm_compute. discriminate.
Qed.

(** Where binary64 and exact arithmetic part: 23 bytes out of 40. *)
Example binary64_rounds_down :
  label binary64 40 23 = 57 /\ label exact 40 23 = 58.
Proof. split; vm_compute; reflexivity. Qed.

(** *** Accumulation keeps sizes positive *)

Lemma map_update_Forall (P : LangInfo -> Prop) m name f :
  (forall v, P v -> P (f v)) ->
  Forall (fun kv => P (snd kv)) m -> Forall (fun kv => P (snd kv)) (map_update m name f).
Proof.
  intros Hf Hm. induction Hm as [|[k v] m Hkv Hm IH]; simpl; [constructor|].
  simpl in Hkv. destruct (String.eqb k name); constructor; simpl; auto.
Qed.

Lemma map_update_absent m l name f :
  map_has m name = false -> map_update (m ++ l) name f = m ++ map_update l name f.
Proof.
  induction m as [|[k v] m IH]; simpl; [reflexivity|].
  intros H. apply orb_false_iff in H. destruct H as [Hk Hm].
  rewrite Hk. f_equal. now apply IH.
Qed.

Lemma edgeStep_positive m e :
  (forall z, edge_size e = Some z -> 0 <= z) ->
  Forall (fun kv => 0 < size (snd kv)) m ->
  Forall (fun kv => 0 < size (snd kv)) (edgeStep m e).
Proof.
  intros Hsize Hm. unfold edgeStep.
  destruct (negb (truthy (node_name e)) || (default 0 (edge_size e) =? 0)) eqn:Hskip;
    [exact Hm|].
  apply orb_false_iff in Hskip. destruct Hskip as [_ Hz]. apply Z.eqb_neq in Hz.
  assert (Hpos : 0 < default 0 (edge_size e)).
  { destruct (edge_size e) as [z|]; simpl in *; [|congruence].
    specialize (Hsize z eq_refl). lia. }
  set (name := default "" (node_name e)). set (sz := default 0 (edge_size e)) in *.
  destruct (map_has m name) eqn:Hhas; simpl.
  - apply (map_update_Forall (fun v => 0 < size v)); [|exact Hm].
    intros v Hv. destruct (_ && _); simpl; lia.
  - unfold map_set_new. rewrite map_update_absent by exact Hhas.
    apply Forall_app. split; [exact Hm|]. simpl. rewrite String.eqb_refl.
    constructor; [|constructor]. simpl. destruct (_ && _); simpl; lia.
Qed.

(** Repositories that report no negative size accumulate to a map whose
    sizes are all positive. *)
Lemma accumulate_positive repos :
  Forall (fun repo => forall edges, languages_edges repo = Some edges ->
            Forall (fun e => forall z, edge_size e = Some z -> 0 <= z) edges) repos ->
  Forall (fun kv => 0 < size (snd kv)) (accumulate repos).
Proof.
  unfold accumulate. intros Hrepos.
  assert (Hnil : Forall (fun kv : string * LangInfo => 0 < size (snd kv)) [])
    by constructor.
  revert Hnil. generalize (@nil (string * LangInfo)). intros m Hm. revert m Hm.
  induction Hrepos as [|repo repos Hrepo Hrepos IH]; intros m Hm; simpl; [exact Hm|].
  apply IH. unfold repoStep.
  destruct (languages_edges repo) as [edges|]; [|exact Hm].
  specialize (Hrepo edges eq_refl). clear -Hrepo Hm. revert m Hm.
  induction Hrepo as [|e edges He Hedges IHe]; intros m Hm; simpl; [exact Hm|].
  apply IHe. now apply edgeStep_positive.
Qed.

(** *** Accumulation sums sizes per language name *)

(** The size stored under [name], 0 when the map has no such key. *)
Fixpoint lookup_size (m : LanguageMap) (name : string) : Z :=
  match m with
  | [] => 0
  | (k, v) :: m' => if String.eqb k name then size v else lookup_size m' name
  end.

(** What one edge adds to the size of [name]: its size when it names that
    language, and nothing when it is skipped or names another one. *)
Definition contribution (name : string) (e : LanguageEdge) : Z :=
  if negb (truthy (node_name e)) || (default 0 (edge_size e) =? 0) then 0
  else if String.eqb (default "" (node_name e)) name then default 0 (edge_size e)
  else 0.

Definition all_edges (repos : list RepoNode) : list LanguageEdge :=
  concat (map (fun repo => default [] (languages_edges repo)) repos).

Lemma lookup_size_update m k f sz n :
  map_has m k = true -> (forall v, size (f v) = size v + sz) ->
  lookup_size (map_update m k f) n
  = lookup_size m n + (if String.eqb k n then sz else 0).
Proof.
  intros Hhas Hf. induction m as [|[k' v] m IH]; simpl in *; [discriminate|].
  destruct (String.eqb_spec k' k) as [->|Hk]; simpl.
  - destruct (String.eqb_spec k n) as [->|Hn]; [apply Hf|lia].
  - destruct (String.eqb_spec k' n) as [->|Hn].
    + destruct (String.eqb_spec k n) as [->|Hkn]; [congruence|lia].
    + apply IH. exact Hhas.
Qed.

Lemma lookup_size_new m k v n :
  map_has m k = false ->
  lookup_size (m ++ [(k, v)]) n
  = lookup_size m n + (if String.eqb k n then size v else 0).
Proof.
  intros Hhas. induction m as [|[k' v'] m IH]; simpl in *.
  - destruct (String.eqb k n); lia.
  - apply orb_false_iff in Hhas. destruct Hhas as [Hk Hm].
    apply String.eqb_neq in Hk.
    destruct (String.eqb_spec k' n) as [->|Hn].
    + destruct (String.eqb_spec k n) as [->|Hkn]; [congruence|lia].
    + now apply IH.
Qed.

Lemma edgeStep_lookup m e name :
  lookup_size (edgeStep m e) name = lookup_size m name + contribution name e.
Proof.
  unfold edgeStep, contribution.
  destruct (negb (truthy (node_name e)) || (default 0 (edge_size e) =? 0)); [lia|].
  set (k := default "" (node_name e)). set (sz := default 0 (edge_size e)).
  set (f := fun entry : LangInfo => _).
  assert (Hf : forall v, size (f v) = size v + sz).
  { intros v. unfold f. destruct (_ && _); reflexivity. }
  destruct (map_has m k) eqn:Hhas; simpl.
  - now apply lookup_size_update.
  - unfold map_set_new. rewrite map_update_absent by exact Hhas.
    simpl. rewrite String.eqb_refl.
    rewrite lookup_size_new by exact Hhas. rewrite Hf. simpl.
    destruct (String.eqb k name); lia.
Qed.

(** The size accumulated under a language name is the sum of the sizes of
    the edges that name it, over all repositories. *)
Lemma accumulate_lookup repos name :
  lookup_size (accumulate repos) name
  = foldr Z.add 0 (map (contribution name) (all_edges repos)).
Proof.
  unfold accumulate, all_edges.
  assert (Hedges : forall edges m,
            lookup_size (fold_left edgeStep edges m) name
            = lookup_size m name + foldr Z.add 0 (map (contribution name) edges)).
  { induction edges as [|e edges IH]; intros m; simpl; [lia|].
    rewrite IH, edgeStep_lookup. lia. }
  assert (Hrepos : forall m,
            lookup_size (fold_left repoStep repos m) name
            = lookup_size m name
              + foldr Z.add 0 (map (contribution name)
                  (concat (map (fun repo => default [] (languages_edges repo)) repos)))).
  { induction repos as [|repo repos IH]; intros m; simpl; [lia|].
    rewrite IH. unfold repoStep. rewrite map_app, foldr_app.
    assert (Hsplit : forall l1 z, foldr Z.add z l1 = foldr Z.add 0 l1 + z).
    { induction l1 as [|y l1 IH1]; intros z; simpl; [lia|]. rewrite IH1. lia. }
    rewrite (Hsplit (map (contribution name) (default [] (languages_edges repo)))).
    destruct (languages_edges repo) as [edges|]; simpl.
    - rewrite Hedges. lia.
    - lia. }
  rewrite Hrepos. reflexivity.
Qed.

End BadgeFacts.

(** ** How a run changes the world *)
Module WorldFacts.
Import JS LoopFacts.

(** [evolves w w']: from [w] to [w'] the process has only talked to the
    network and filled its commit cache. Files and write log are the same,
    the remote side is the same, requests were only appended, and every
    cache entry of [w] is still there. *)
Definition evolves (w w' : World) : Prop :=
  readme w' = readme w /\ badge w' = badge w /\ writes w' = writes w /\
  server w' = server w /\
  commitCache w ⊆ commitCache w' /\
  requests w `prefix_of` requests w'.

Lemma evolves_refl w : evolves w w.
Proof. repeat split; reflexivity. Qed.

Lemma evolves_trans w1 w2 w3 : evolves w1 w2 -> evolves w2 w3 -> evolves w1 w3.
Proof.
  intros (A1 & A2 & A3 & A4 & A5 & A6) (B1 & B2 & B3 & B4 & B5 & B6).
  repeat split; try congruence.
  - etransitivity; eassumption.
  - etransitivity; eassumption.
Qed.

Lemma evolves_log r w : evolves w (log_request r w).
Proof. repeat split; try reflexivity. simpl. now apply prefix_app_r. Qed.

Lemma evolves_cache k v w :
  commitCache w !! k = None -> evolves w (set_cache k v w).
Proof.
  intros H. repeat split; try reflexivity. simpl. now apply insert_subseteq.
Qed.

(** A loop whose body only lets the world evolve only lets it evolve. *)
Lemma for_of_M_evolves {X S} (body : X -> S -> M (Flow S)) xs st w :
  (forall x st w, evolves w (snd (body x st w))) ->
  evolves w (snd (for_of_M body xs st w)).
Proof.
  intros Hbody. revert st w. induction xs as [|x xs IH]; intros st w; simpl.
  - apply evolves_refl.
  - unfold bind. specialize (Hbody x st w).
    destruct (body x st w) as [[[st'|st']|e] w']; simpl in *; try exact Hbody.
    eapply evolves_trans; [exact Hbody|apply IH].
Qed.

(** The events endpoint answers every request with a success status and a
    readable JSON body. *)
Definition events_healthy (sv : Server) : Prop :=
  forall t login page per_page, exists status statusText text json,
    events_endpoint sv t login page per_page = Http true status statusText text (Some json).

(** What [updateReadme] can do to the world: throw and leave it alone, find
    nothing to change and leave it alone, or write the README once, with a
    content that differs from the one it read. *)
Lemma updateReadme_with_effect S E msg markup w :
  (exists e, updateReadme_with S E msg markup w = (Throw e, w)) \/
  updateReadme_with S E msg markup w = (Ok tt, w) \/
  (exists next, updateReadme_with S E msg markup w = (Ok tt, write_file README next w) /\
                readme w <> Some next).
Proof.
  unfold updateReadme_with, bind, readFile_README.
  destruct (readme w) as [content|] eqn:Hr; [|left; eexists; reflexivity].
  destruct (_ || _ || _); [left; eexists; reflexivity|].
  match goal with |- context [decide ?P] => destruct (decide P) as [Heq|Hne] end.
  - right. left. reflexivity.
  - right. right. eexists. split; [reflexivity|]. congruence.
Qed.

End WorldFacts.

(** ** The pull-request reporter, run as a whole *)
Module RecentPRsRunFacts.
Import JS LoopFacts WorldFacts RecentPRs.

Lemma or_lit_nonempty a d : d <> "" -> or_lit a d <> "".
Proof.
  intros Hd. unfold or_lit. destruct a as [s|]; [|exact Hd].
  destruct (String.eqb_spec s ""); [exact Hd|assumption].
Qed.

Lemma truthy_inv o : truthy o = true -> exists s, o = Some s /\ s <> "".
Proof.
  destruct o as [s|]; simpl; [|discriminate]. intros H. exists s. split; [reflexivity|].
  intros ->. discriminate.
Qed.

(** The requests for [k] consecutive event pages, starting at page [first]. *)
Definition page_requests (login : string) (per_page first : Z) (k : nat) : list Request :=
  map (fun i => GetEvents login (first + Z.of_nat i) per_page) (seq 0 k).

Lemma page_requests_S login per_page first k :
  page_requests login per_page first (S k)
  = GetEvents login first per_page :: page_requests login per_page (first + 1) k.
Proof.
  unfold page_requests. simpl. rewrite Z.add_0_r. f_equal.
  rewrite <- seq_shift, map_map. apply map_ext. intros i. f_equal. lia.
Qed.

Section Script.
Context (api : DateApi) (cfg : Config).

(** The loop body either skips the event, or pushes the record of a pull
    request that passed every filter. *)
Lemma eventStep_pushes event st :
  eventStep api cfg event st = Continue st \/
  exists pr key,
    html_url pr = Some key /\ key <> "" /\ (key ∉ seen st) /\
    (includeDrafts cfg = false -> draft pr = false) /\
    (let st' := {| prs := prs st ++ [mkRecord event pr key];
                   seen := ({[ key ]} ∪ seen st) |} in
     eventStep api cfg event st =
       if prLimit cfg <=? Z.of_nat (length (prs st')) then Return st' else Continue st').
Proof.
  unfold eventStep.
  destruct (String.eqb (type event) "PullRequestEvent"); [|now left]. simpl.
  destruct (Date_parse api (created_at event)) as [eventDate|]; [|now left].
  destruct (eventDate <? sinceDate cfg); [now left|].
  destruct (payload_pull_request event) as [pr|]; [|now left].
  destruct (truthy (html_url pr)) eqn:Hu; [|now left]. simpl.
  destruct (negb (includeDrafts cfg) && draft pr) eqn:Hdraft; [now left|].
  destruct (truthy_inv _ Hu) as (key & Hk & Hne). rewrite Hk. simpl.
  destruct (decide (key ∈ seen st)) as [Hin|Hin]; [now left|].
  right. exists pr, key. split; [exact Hk|]. split; [exact Hne|]. split; [exact Hin|].
  split; [|reflexivity].
  intros Hinc. rewrite Hinc in Hdraft. simpl in Hdraft. exact Hdraft.
Qed.

(** Invariants of the page loop, from what the loop body keeps. *)
Section Invariant.
Variables P Q : Loop -> Prop.
Hypothesis step_ok : forall event st, P st ->
  match eventStep api cfg event st with Continue st' => P st' | Return st' => Q st' end.
Variable R : list PrRecord -> Prop.
Hypothesis R_nil : R [].
Hypothesis R_P : forall st, P st -> R (prs st).
Hypothesis R_Q : forall st, Q st -> R (prs st).

Lemma run_inv remaining page st w :
  P st -> R (produced (pageLoop api cfg remaining page st w)).
Proof.
  revert page st w. induction remaining as [|n IH]; intros page st w Hst.
  - now apply R_P.
  - simpl. unfold bind, fetch_events.
    destruct (events_endpoint _ _ _ _ _) as [|ok status statusText text json]; [exact R_nil|].
    destruct ok; simpl; [|exact R_nil].
    destruct json as [[|[|ev evs]]|]; try (now apply R_P); [|exact R_nil].
    pose proof (for_of_inv P Q (eventStep api cfg) (ev :: evs) st step_ok Hst) as Hk.
    destruct (for_of (eventStep api cfg) (ev :: evs) st) as [st'|st'].
    + now apply IH.
    + now apply R_Q.
Qed.

End Invariant.

(** What the page loop does to the world: it sends requests for consecutive
    pages, at most [remaining] of them, and changes nothing else. *)
Lemma pageLoop_trace remaining page st w :
  exists k, (k <= remaining)%nat /\
    requests (snd (pageLoop api cfg remaining page st w))
    = requests w ++ page_requests (login cfg) (eventsPerPage cfg) page k /\
    readme (snd (pageLoop api cfg remaining page st w)) = readme w /\
    badge (snd (pageLoop api cfg remaining page st w)) = badge w /\
    writes (snd (pageLoop api cfg remaining page st w)) = writes w /\
    commitCache (snd (pageLoop api cfg remaining page st w)) = commitCache w /\
    server (snd (pageLoop api cfg remaining page st w)) = server w.
Proof.
  revert page st w. induction remaining as [|n IH]; intros page st w.
  - exists 0%nat. simpl. rewrite app_nil_r. repeat split; lia.
  - assert (Hone : forall (o : Outcome (list PrRecord)),
              exists k, (k <= S n)%nat /\
                requests (log_request (GetEvents (login cfg) page (eventsPerPage cfg)) w)
                = requests w ++ page_requests (login cfg) (eventsPerPage cfg) page k).
    { intros _. exists 1%nat. split; [lia|]. rewrite page_requests_S. reflexivity. }
    simpl. unfold bind, fetch_events.
    destruct (events_endpoint _ _ _ _ _) as [|ok status statusText text json];
      [destruct (Hone (Throw Rejection)) as (k & Hk & Hreq); exists k; simpl;
       repeat split; assumption|].
    destruct ok; simpl;
      [|destruct (Hone (Throw Rejection)) as (k & Hk & Hreq); exists k; simpl;
        repeat split; assumption].
    destruct json as [[|[|ev evs]]|];
      try (destruct (Hone (Throw Rejection)) as (k & Hk & Hreq); exists k; simpl;
           repeat split; assumption).
    destruct (for_of (eventStep api cfg) (ev :: evs) st) as [st'|st'];
      [|destruct (Hone (Throw Rejection)) as (k & Hk & Hreq); exists k; simpl;
        repeat split; assumption].
    destruct (IH (page + 1) st'
                (log_request (GetEvents (login cfg) page (eventsPerPage cfg)) w))
      as (k & Hk & Hreq & H1 & H2 & H3 & H4 & H5).
    exists (S k). split; [lia|]. split; [|repeat split; assumption].
    rewrite Hreq. simpl. rewrite page_requests_S, <- app_assoc. reflexivity.
Qed.


End Script.
End RecentPRsRunFacts.

(** ** The commit reporter, run as a whole *)
Module RecentCommitsRunFacts.
Import JS JSFacts LoopFacts WorldFacts RecentCommits.

(** *** First lines *)

Lemma not_in_rev (x : ascii) l : x ∉ l -> x ∉ rev l.
Proof. rewrite !list_elem_of_In, <- in_rev. trivial. Qed.

(** The first piece of a split at newlines holds no newline. *)
Lemma split_go_first_line cur l :
  nlc ∉ cur ->
  exists p rest, split_go [nlc] 0 cur l = str p :: rest /\ nlc ∉ p.
Proof.
  revert cur. induction l as [|x l IH]; intros cur Hcur; simpl.
  - exists (rev cur), []. split; [reflexivity|]. now apply not_in_rev.
  - destruct (bool_decide (nlc = x)) eqn:Hx; simpl.
    + exists (rev cur). eexists. split; [reflexivity|]. now apply not_in_rev.
    + apply bool_decide_eq_false in Hx. apply IH.
      rewrite elem_of_cons. intros [H|H]; [congruence|contradiction].
Qed.

Lemma first_line_no_nl s :
  exists p, split s nl !! 0%nat = Some (str p) /\ nlc ∉ p.
Proof.
  unfold split. change (chars nl) with [nlc].
  destruct (split_go_first_line [] (chars s)) as (p & rest & -> & Hp).
  - apply not_elem_of_nil.
  - exists p. split; [reflexivity|exact Hp].
Qed.

(** A string without the newline code unit does not contain [nl]. *)
Lemma indexOf_nl_absent s : nlc ∉ chars s -> indexOf s nl = -1.
Proof.
  intros Hs. unfold indexOf. change (chars nl) with [nlc].
  destruct (find_from_spec [nlc] (chars s) 0) as [[Hr _]|(k & _ & Hk & _)]; [exact Hr|].
  exfalso. apply Hs. specialize (Hk 0%nat nlc eq_refl). rewrite Nat.add_0_r in Hk.
  now apply (list_elem_of_lookup_2 _ k).
Qed.

Lemma slice_prefix_length s (n : Z) :
  0 <= n -> (String.length (slice s 0 (Some n)) <= Z.to_nat n)%nat.
Proof.
  intros Hn. unfold slice. rewrite <- chars_length, chars_str.
  rewrite slice_list_to by exact Hn. rewrite length_take. lia.
Qed.

Section Script.
Context (api : DateApi) (cfg : Config).

(** The record the inline path pushes for the commit [sha] of a push event. *)
Definition inline_record (repoName : string) (eventDate : Z) (commit : Commit)
    (sha : string) : CommitRecord :=
  {| repoName := repoName;
     repoUrl := "https://github.com/" +:+ repoName;
     message := default "" (split (or_lit (commit_message commit) "Update") nl !! 0%nat);
     url := "https://github.com/" +:+ repoName +:+ "/commit/" +:+ sha;
     oid := slice sha 0 (Some 7);
     occurredAt := Date_toISOString api eventDate |}.

(** The record the head-reference path pushes for resolved [details]. *)
Definition resolved_record (repoName : string) (eventDate : Z) (headSha : string)
    (details : CommitInfo) : CommitRecord :=
  {| repoName := repoName;
     repoUrl := "https://github.com/" +:+ repoName;
     message := info_message details;
     url := or_lit (info_url details)
              ("https://github.com/" +:+ repoName +:+ "/commit/" +:+ headSha);
     oid := slice headSha 0 (Some 7);
     occurredAt := or_lit (info_date details) (Date_toISOString api eventDate) |}.

(** Resolved details are either what the cache held or built by [mkInfo]. *)
Definition resolved (w : World) (details : CommitInfo) : Prop :=
  (exists k, commitCache w !! k = Some details) \/ exists data, details = mkInfo data.

(** Every cache entry was built by [mkInfo]. *)
Definition cache_built (w : World) : Prop :=
  forall k info, commitCache w !! k = Some info -> exists data, info = mkInfo data.

Lemma fetchCommitDetails_effect repoName sha w :
  exists details w',
    fetchCommitDetails repoName sha w = (Ok details, w') /\ evolves w w' /\
    (cache_built w -> cache_built w') /\
    (forall info, details = Some info -> cache_built w -> exists data, info = mkInfo data).
Proof.
  unfold fetchCommitDetails.
  destruct (commitCache w !! (repoName +:+ "@" +:+ sha)) as [info|] eqn:Hc.
  - exists (Some info), w. split; [reflexivity|]. split; [apply evolves_refl|].
    split; [trivial|]. intros info' [= <-] Hb. eapply Hb. exact Hc.
  - unfold bind, fetch_commit.
    pose proof (evolves_log (GetCommit repoName sha) w) as Hlog.
    assert (Hnone : exists details w',
              (Ok (@None CommitInfo), log_request (GetCommit repoName sha) w)
                = (Ok details, w') /\ evolves w w' /\
              (cache_built w -> cache_built w') /\
              (forall info, details = Some info -> cache_built w ->
                 exists data, info = mkInfo data)).
    { exists None, (log_request (GetCommit repoName sha) w).
      split; [reflexivity|]. split; [exact Hlog|]. split; [trivial|]. discriminate. }
    destruct (commit_endpoint _ _ _ _) as [|ok status statusText text json]; [exact Hnone|].
    destruct ok; simpl; [|exact Hnone].
    destruct json as [data|]; [|exact Hnone].
    eexists _, _. split; [reflexivity|]. split; [|split].
    + eapply evolves_trans; [exact Hlog|]. apply evolves_cache. exact Hc.
    + intros Hb k info. simpl. rewrite lookup_insert.
      destruct (decide (repoName +:+ "@" +:+ sha = k)); [|apply Hb].
      intros [= <-]. now exists data.
    + intros info [= <-] _. now exists data.
Qed.

(** The inline path, with the record it pushes. *)
Lemma inlineStep_pushes repoName eventDate commit st :
  let repoUrl := "https://github.com/" +:+ repoName in
  inlineStep api cfg repoName repoUrl eventDate commit st = Continue st \/
  exists key,
    sha commit = Some key /\ key <> "" /\ (key ∉ seen st) /\
    inlineStep api cfg repoName repoUrl eventDate commit st
    = RecentCommitsFacts.after_push cfg
        (RecentCommitsFacts.push key (inline_record repoName eventDate commit key) st).
Proof.
  cbv zeta. unfold inlineStep.
  destruct (truthy (sha commit)) eqn:Hs; [|now left]. simpl.
  destruct (RecentPRsRunFacts.truthy_inv _ Hs) as (key & Hk & Hne). rewrite Hk. simpl.
  destruct (decide (key ∈ seen st)) as [Hin|Hin]; [now left|].
  right. exists key. split; [reflexivity|]. split; [exact Hne|]. split; [exact Hin|].
  reflexivity.
Qed.

(** The head-reference path, with the record it pushes. *)
Lemma headStep_pushes repoName eventDate event st w :
  let repoUrl := "https://github.com/" +:+ repoName in
  exists f w',
    headStep api cfg repoName repoUrl eventDate event st w = (Ok f, w') /\
    evolves w w' /\ (cache_built w -> cache_built w') /\
    (f = Continue st \/
     exists key details,
       payload_head event = Some key /\ key <> "" /\ (key ∉ seen st) /\
       (cache_built w -> exists data, details = mkInfo data) /\
       f = RecentCommitsFacts.after_push cfg
             (RecentCommitsFacts.push key
                (resolved_record repoName eventDate key details) st)).
Proof.
  cbv zeta. unfold headStep.
  destruct (truthy (payload_head event)) eqn:Ht;
    [|exists (Continue st), w; repeat split; try apply evolves_refl; auto; reflexivity].
  simpl. destruct (RecentPRsRunFacts.truthy_inv _ Ht) as (key & Hk & Hne).
  rewrite Hk. simpl.
  destruct (bool_decide (key ∈ seen st)) eqn:Hin;
    [exists (Continue st), w; repeat split; try apply evolves_refl; auto; reflexivity|].
  simpl. apply bool_decide_eq_false in Hin. unfold bind.
  destruct (fetchCommitDetails_effect repoName key w) as (details & w' & -> & Hev & Hb & Hd).
  destruct details as [details|];
    [|exists (Continue st), w'; repeat split; auto; apply Hev].
  exists (RecentCommitsFacts.after_push cfg
            (RecentCommitsFacts.push key (resolved_record repoName eventDate key details) st)),
         w'.
  split.
  - unfold RecentCommitsFacts.after_push, RecentCommitsFacts.push, resolved_record. simpl.
    match goal with |- context [if ?b then _ else _] => destruct b end; reflexivity.
  - split; [exact Hev|]. split; [exact Hb|]. right. exists key, details.
    split; [reflexivity|]. split; [exact Hne|]. split; [exact Hin|].
    split; [|reflexivity]. intros Hbw. now apply (Hd details).
Qed.

(** A record next to its key is tidy: the key is not empty, the short id is
    the key's first seven code units, the message is a single line, and the
    repository URL is the GitHub URL of a non-empty repository name. *)
Definition tidy (p : string * CommitRecord) : Prop :=
  fst p <> "" /\
  oid (snd p) = slice (fst p) 0 (Some 7) /\
  (String.length (oid (snd p)) <= 7)%nat /\
  indexOf (message (snd p)) nl = -1 /\
  repoName (snd p) <> "" /\
  repoUrl (snd p) = "https://github.com/" +:+ repoName (snd p).

Lemma first_line_single s : indexOf (default "" (split s nl !! 0%nat)) nl = -1.
Proof.
  destruct (first_line_no_nl s) as (p & -> & Hp). simpl.
  apply indexOf_nl_absent. now rewrite chars_str.
Qed.

Lemma mkInfo_single data : indexOf (info_message (mkInfo data)) nl = -1.
Proof.
  unfold mkInfo. simpl. destruct (data_commit_message data) as [m|]; simpl; [|reflexivity].
  destruct (first_line_no_nl m) as (p & -> & Hp). simpl.
  destruct (String.eqb (str p) ""); [reflexivity|].
  apply indexOf_nl_absent. now rewrite chars_str.
Qed.

Lemma inline_record_tidy repoName eventDate commit key :
  repoName <> "" -> key <> "" -> tidy (key, inline_record repoName eventDate commit key).
Proof.
  intros Hr Hk. unfold tidy. simpl. repeat split; try assumption.
  - apply (slice_prefix_length key 7). lia.
  - apply first_line_single.
Qed.

Lemma resolved_record_tidy repoName eventDate key data :
  repoName <> "" -> key <> "" ->
  tidy (key, resolved_record repoName eventDate key (mkInfo data)).
Proof.
  intros Hr Hk. unfold tidy, resolved_record.
  cbn [fst snd RecentCommits.oid RecentCommits.message RecentCommits.repoName
       RecentCommits.repoUrl].
  repeat split; try assumption.
  - apply (slice_prefix_length key 7). lia.
  - apply mkInfo_single.
Qed.

Lemma tidy_push st key r :
  Forall tidy (commits st) -> tidy (key, r) ->
  Forall tidy (commits (flow_state
    (RecentCommitsFacts.after_push cfg (RecentCommitsFacts.push key r st)))).
Proof.
  intros Hst Hr. unfold RecentCommitsFacts.after_push.
  destruct (commitLimit cfg <=? _); simpl; apply Forall_app; split; try exact Hst;
    (constructor; [exact Hr|constructor]).
Qed.

(** What the event body does: it never throws, the world only evolves, the
    cache keeps holding [mkInfo] results, and pushed records are tidy. *)
Lemma eventStep_effect event st w :
  exists f w',
    eventStep api cfg event st w = (Ok f, w') /\ evolves w w' /\
    (cache_built w -> cache_built w') /\
    (cache_built w -> Forall tidy (commits st) -> Forall tidy (commits (flow_state f))).
Proof.
  assert (Hskip : exists f w',
            (Ok (Continue st), w) = (Ok f, w') /\ evolves w w' /\
            (cache_built w -> cache_built w') /\
            (cache_built w -> Forall tidy (commits st) ->
             Forall tidy (commits (flow_state f)))).
  { exists (Continue st), w. split; [reflexivity|]. split; [apply evolves_refl|].
    split; trivial. }
  unfold eventStep.
  destruct (String.eqb (type event) "PushEvent"); [|exact Hskip]. simpl.
  destruct (Date_parse api (created_at event)) as [eventDate|]; [|exact Hskip].
  destruct (eventDate <? sinceDate cfg); [exact Hskip|].
  destruct (truthy (repo_name event)) eqn:Hr; [|exact Hskip]. simpl.
  destruct (RecentPRsRunFacts.truthy_inv _ Hr) as (repo & -> & Hne). simpl.
  assert (Hhead : exists f w',
            headStep api cfg repo ("https://github.com/" +:+ repo) eventDate event st w
              = (Ok f, w') /\ evolves w w' /\
            (cache_built w -> cache_built w') /\
            (cache_built w -> Forall tidy (commits st) ->
             Forall tidy (commits (flow_state f)))).
  { destruct (headStep_pushes repo eventDate event st w)
      as (f & w' & Heq & Hev & Hb & Hf).
    exists f, w'. split; [exact Heq|]. split; [exact Hev|]. split; [exact Hb|].
    intros Hbw Hst. destruct Hf as [->|(key & details & _ & Hk & _ & Hd & ->)];
      [exact Hst|].
    destruct (Hd Hbw) as (data & ->).
    apply tidy_push; [exact Hst|]. now apply resolved_record_tidy. }
  destruct (payload_commits event) as [[|c cs]|]; [exact Hhead| |exact Hhead].
  exists (for_of (inlineStep api cfg repo ("https://github.com/" +:+ repo) eventDate)
            (c :: cs) st), w.
  split; [reflexivity|]. split; [apply evolves_refl|]. split; [trivial|].
  intros _ Hst.
  assert (Hbody : forall x st1, Forall tidy (commits st1) ->
            match inlineStep api cfg repo ("https://github.com/" +:+ repo) eventDate x st1
            with
            | Continue st' => Forall tidy (commits st')
            | Return st' => Forall tidy (commits st')
            end).
  { intros x st1 H1.
    destruct (inlineStep_pushes repo eventDate x st1) as [->|(key & _ & Hk & _ & ->)];
      [exact H1|].
    pose proof (tidy_push st1 key _ H1 (inline_record_tidy repo eventDate x key Hne Hk))
      as H2.
    destruct (RecentCommitsFacts.after_push cfg _); exact H2. }
  pose proof (for_of_inv (fun st => Forall tidy (commits st))
                (fun st => Forall tidy (commits st)) _ (c :: cs) st Hbody Hst) as Hinv.
  destruct (for_of _ (c :: cs) st) as [st'|st']; exact Hinv.
Qed.

Lemma events_effect events st w :
  exists f w',
    for_of_M (eventStep api cfg) events st w = (Ok f, w') /\ evolves w w' /\
    (cache_built w -> cache_built w') /\
    (cache_built w -> Forall tidy (commits st) -> Forall tidy (commits (flow_state f))).
Proof.
  revert st w. induction events as [|ev evs IH]; intros st w; simpl.
  - exists (Continue st), w. split; [reflexivity|]. split; [apply evolves_refl|].
    split; trivial.
  - unfold bind. destruct (eventStep_effect ev st w) as (f & w1 & -> & Hev & Hb & Ht).
    destruct f as [st1|st1].
    + destruct (IH st1 w1) as (f2 & w2 & -> & Hev2 & Hb2 & Ht2).
      exists f2, w2. split; [reflexivity|]. split; [eapply evolves_trans; eassumption|].
      split; [auto|]. intros Hbw Hst. apply Ht2; [auto|]. now apply Ht.
    + exists (Return st1), w1. split; [reflexivity|]. split; [exact Hev|].
      split; [exact Hb|]. exact Ht.
Qed.

(** The page loop: the world only evolves; with a cache of [mkInfo] results
    all records are tidy; with a healthy events endpoint it returns. *)
Lemma pageLoop_effect remaining page st w :
  evolves w (snd (pageLoop api cfg remaining page st w)) /\
  (cache_built w -> Forall tidy (commits st) ->
   Forall tidy (produced (pageLoop api cfg remaining page st w))) /\
  (events_healthy (server w) ->
   exists l, fst (pageLoop api cfg remaining page st w) = Ok l).
Proof.
  revert page st w. induction remaining as [|n IH]; intros page st w.
  - simpl. split; [apply evolves_refl|]. split; [trivial|]. intros _. eexists. reflexivity.
  - pose proof (evolves_log (GetEvents (login cfg) page (eventsPerPage cfg)) w) as Hlog.
    remember (pageLoop api cfg (S n) page st w) as r eqn:Hr.
    simpl in Hr. unfold bind at 1, fetch_events in Hr.
    remember (log_request (GetEvents (login cfg) page (eventsPerPage cfg)) w) as w0 eqn:Hw0.
    assert (Hsv0 : server w0 = server w) by (rewrite Hw0; reflexivity).
    assert (Hb0 : cache_built w -> cache_built w0) by (rewrite Hw0; trivial).
    assert (Hdone : forall o : Outcome (list (string * CommitRecord)),
              r = (o, w0) ->
              (cache_built w -> Forall tidy (commits st) ->
               Forall tidy (produced (o, w0))) ->
              (events_healthy (server w) -> exists l, o = Ok l) ->
              evolves w (snd r) /\
              (cache_built w -> Forall tidy (commits st) -> Forall tidy (produced r)) /\
              (events_healthy (server w) -> exists l, fst r = Ok l)).
    { intros o -> H2 H3. split; [exact Hlog|]. split; [exact H2|exact H3]. }
    destruct (events_endpoint (server w) (length (requests w)) (login cfg) page
                (eventsPerPage cfg)) as [|ok status statusText text json] eqn:Hresp.
    { apply (Hdone _ Hr); [intros _ _; constructor|].
      intros Hsv. destruct (Hsv (length (requests w)) (login cfg) page (eventsPerPage cfg))
        as (? & ? & ? & ? & Hh). congruence. }
    destruct ok; simpl in Hr.
    2:{ apply (Hdone _ Hr); [intros _ _; constructor|].
        intros Hsv.
        destruct (Hsv (length (requests w)) (login cfg) page (eventsPerPage cfg))
          as (? & ? & ? & ? & Hh). congruence. }
    destruct json as [[|[|ev evs]]|].
    + apply (Hdone _ Hr); [trivial|]. intros _. eexists. reflexivity.
    + apply (Hdone _ Hr); [trivial|]. intros _. eexists. reflexivity.
    + unfold bind in Hr.
      destruct (events_effect (ev :: evs) st w0) as (f & w1 & Heq & Hev & Hb & Ht).
      rewrite Heq in Hr.
      assert (Hsv1 : server w1 = server w).
      { destruct Hev as (_ & _ & _ & Hs & _). rewrite Hs. exact Hsv0. }
      destruct f as [st1|st1].
      * destruct (IH (page + 1) st1 w1) as (H1 & H2 & H3). rewrite <- Hr in *.
        split; [eapply evolves_trans; [exact Hlog|]; eapply evolves_trans; eassumption|].
        split.
        -- intros Hbw Hst. apply H2; [auto|]. now apply Ht; auto.
        -- intros Hsv. apply H3. rewrite Hsv1. exact Hsv.
      * rewrite Hr. split; [eapply evolves_trans; eassumption|]. split.
        -- intros Hbw Hst. unfold produced. simpl. now apply Ht; auto.
        -- intros _. eexists. reflexivity.
    + apply (Hdone _ Hr); [intros _ _; constructor|].
      intros Hsv.
      destruct (Hsv (length (requests w)) (login cfg) page (eventsPerPage cfg))
        as (? & ? & ? & ? & Hh). congruence.
Qed.

End Script.
End RecentCommitsRunFacts.

(** ** Whole runs of the two reporters *)
Module ReporterRunFacts.
Import JS JSFacts LoopFacts WorldFacts ReporterFacts.

(** X1. With a limit that is a whole number of at least 1,
    [fetchRecentPRs] returns at most [prLimit] records and
    [fetchRecentCommits] at most [commitLimit] records, whatever the feed
    holds and wherever in a page the limit is reached. (The limits of
    [Config] are integers; a limit such as 1.5 is not one of them.) *)
Theorem record_limit_respected (api : DateApi) (cfgP : RecentPRs.Config)
    (cfgC : RecentCommits.Config) (w : World) :
  1 <= RecentPRs.prLimit cfgP ->
  1 <= RecentCommits.commitLimit cfgC ->
  Z.of_nat (length (produced (RecentPRs.fetchRecentPRs api cfgP w)))
    <= RecentPRs.prLimit cfgP /\
  Z.of_nat (length (produced (RecentCommits.fetchRecentCommits api cfgC w)))
    <= RecentCommits.commitLimit cfgC.
Proof.
  intros HP HC. split.
  - now apply RecentPRsFacts.fetchRecentPRs_bound.
  - now apply RecentCommitsFacts.fetchRecentCommits_bound.
Qed.

Definition busy_feed : Server :=
  feed [pr_event "2026-01-01T00:00:00Z" "1"; pr_event "2026-01-01T00:00:00Z" "2";
        pr_event "2026-01-01T00:00:00Z" "3";
        inline_push "2026-01-01T00:00:00Z"
          ["0123456789abcdef"; "fedcba9876543210"; "aaaaaaaaaaaaaaaa"]]
    (fun _ => FetchRejected).

Lemma record_limit_respected_witness :
  Z.of_nat (length (produced (RecentPRs.fetchRecentPRs clock (pr_config 2) (start busy_feed))))
    <= RecentPRs.prLimit (pr_config 2) /\
  Z.of_nat (length (produced (RecentCommits.fetchRecentCommits clock (commit_config 2)
                                (start busy_feed))))
    <= RecentCommits.commitLimit (commit_config 2).
Proof.
  apply (record_limit_respected clock (pr_config 2) (commit_config 2) (start busy_feed));
    vm_compute; discriminate.
Defined.

(** X2. [fetchRecentPRs] asks for event pages 1, 2, ... in order, each with
    the configured login and page size, and for at most [eventMaxPages] of
    them; it reads no file, writes none and leaves the commit cache alone. *)
Theorem fetchRecentPRs_pagination (api : DateApi) (cfg : RecentPRs.Config) (w : World) :
  exists k, (k <= Z.to_nat (RecentPRs.eventMaxPages cfg))%nat /\
    requests (snd (RecentPRs.fetchRecentPRs api cfg w))
    = requests w ++ map (fun i => GetEvents (RecentPRs.login cfg) (1 + Z.of_nat i)
                                    (RecentPRs.eventsPerPage cfg)) (seq 0 k) /\
    readme (snd (RecentPRs.fetchRecentPRs api cfg w)) = readme w /\
    badge (snd (RecentPRs.fetchRecentPRs api cfg w)) = badge w /\
    writes (snd (RecentPRs.fetchRecentPRs api cfg w)) = writes w /\
    commitCache (snd (RecentPRs.fetchRecentPRs api cfg w)) = commitCache w.
Proof.
  destruct (RecentPRsRunFacts.pageLoop_trace api cfg
              (Z.to_nat (RecentPRs.eventMaxPages cfg)) 1
              {| RecentPRs.prs := []; RecentPRs.seen := ∅ |} w)
    as (k & Hk & Hreq & H1 & H2 & H3 & H4 & _).
  exists k. repeat split; assumption.
Qed.

(** A PR record is well formed: URL, title and repository name are not
    empty and the status is one of the four labels. *)
Definition well_formed (r : RecentPRs.PrRecord) : Prop :=
  RecentPRs.url r <> "" /\ RecentPRs.pr_title r <> "" /\ RecentPRs.repoName r <> "" /\
  RecentPRs.status r ∈ ["Merged"; "Closed"; "Draft"; "Open"].

Lemma formatStatus_cases pr :
  RecentPRs.formatStatus pr ∈ ["Merged"; "Closed"; "Draft"; "Open"] /\
  (draft pr = false -> RecentPRs.formatStatus pr <> "Draft").
Proof.
  unfold RecentPRs.formatStatus.
  destruct (truthy (merged_at pr)); [split; [set_solver|discriminate]|].
  destruct (bool_decide _); [split; [set_solver|discriminate]|].
  destruct (draft pr); split; try set_solver; try discriminate.
Qed.

(** X3. Every record [fetchRecentPRs] returns has a non-empty URL, a
    non-empty title (the literal "Pull request" when the payload has none),
    a non-empty repository name ("Unknown" when every fallback is empty) and
    one of the four status labels; and unless drafts are included, none of
    them is labelled "Draft". *)
Theorem fetchRecentPRs_records_well_formed (api : DateApi) (cfg : RecentPRs.Config)
    (w : World) :
  Forall (fun r => well_formed r /\
                   (RecentPRs.includeDrafts cfg = false -> RecentPRs.status r <> "Draft"))
    (produced (RecentPRs.fetchRecentPRs api cfg w)).
Proof.
  set (G := fun r => well_formed r /\
              (RecentPRs.includeDrafts cfg = false -> RecentPRs.status r <> "Draft")).
  unfold RecentPRs.fetchRecentPRs.
  apply (fun H => RecentPRsRunFacts.run_inv api cfg
           (fun st => Forall G (RecentPRs.prs st)) (fun st => Forall G (RecentPRs.prs st))
           H (Forall G)).
  - intros event st Hst.
    destruct (RecentPRsRunFacts.eventStep_pushes api cfg event st)
      as [->|(pr & key & Hk & Hne & _ & Hd & ->)]; [exact Hst|].
    assert (Hnew : G (RecentPRs.mkRecord event pr key)).
    { destruct (formatStatus_cases pr) as [Hs1 Hs2]. split; [split; [|split; [|split]]|].
      - exact Hne.
      - now apply RecentPRsRunFacts.or_lit_nonempty.
      - now apply RecentPRsRunFacts.or_lit_nonempty.
      - exact Hs1.
      - intros Hinc. apply Hs2, Hd, Hinc. }
    cbv zeta.
    match goal with |- context [if ?b then _ else _] => destruct b end;
      simpl; apply Forall_app; (split; [exact Hst|constructor; [exact Hnew|constructor]]).
  - constructor.
  - trivial.
  - trivial.
  - constructor.
Qed.

(** X4. Started with an empty commit cache, every record
    [fetchRecentCommits] returns is tidy: its short id is the first seven
    code units of the SHA it stands for (so at most seven long), its message
    is a single line, and its repository URL is "https://github.com/"
    followed by its non-empty repository name, on the inline path and on the
    head-reference path alike. *)
Theorem fetchRecentCommits_records_tidy (api : DateApi) (cfg : RecentCommits.Config)
    (w : World) :
  commitCache w = ∅ ->
  Forall RecentCommitsRunFacts.tidy
    (produced (RecentCommits.fetchRecentCommits_keyed api cfg w)).
Proof.
  intros Hc.
  apply (RecentCommitsRunFacts.pageLoop_effect api cfg).
  - intros k info Hk. rewrite Hc, lookup_empty in Hk. discriminate.
  - constructor.
Qed.

Definition mixed_feed : Server :=
  feed [inline_push "2026-01-01T00:00:00Z" ["0123456789abcdef"];
        head_push "2026-01-01T00:00:00Z" "fedcba9876543210"]
    (fun _ => Http true 200 "OK" ""
                (Some {| data_commit_message := Some ("Subject" +:+ nl +:+ nl +:+ "Body");
                         data_html_url := None; author_date := None;
                         committer_date := None |})).

Lemma fetchRecentCommits_records_tidy_witness :
  Forall RecentCommitsRunFacts.tidy
    (produced (RecentCommits.fetchRecentCommits_keyed clock (commit_config 3)
                 (start mixed_feed))).
Proof.
  apply (fetchRecentCommits_records_tidy clock (commit_config 3) (start mixed_feed)).
  reflexivity.
Defined.

Example mixed_feed_messages :
  map (fun p => RecentCommits.message (snd p))
    (produced (RecentCommits.fetchRecentCommits_keyed clock (commit_config 3)
                 (start mixed_feed)))
  = ["msg"; "Subject"].
Proof. vm_compute. reflexivity. Qed.




(** X6. [fetchRecentCommits] only reads the network and fills its cache: it
    leaves README, badge file and write log as they are, the requests it
    sends are appended to the log, and every entry the commit cache held
    before is still there, unchanged, afterwards. *)
Theorem fetchRecentCommits_evolves (api : DateApi) (cfg : RecentCommits.Config)
    (w : World) :
  readme (snd (RecentCommits.fetchRecentCommits api cfg w)) = readme w /\
  badge (snd (RecentCommits.fetchRecentCommits api cfg w)) = badge w /\
  writes (snd (RecentCommits.fetchRecentCommits api cfg w)) = writes w /\
  requests w `prefix_of` requests (snd (RecentCommits.fetchRecentCommits api cfg w)) /\
  (forall k info, commitCache w !! k = Some info ->
     commitCache (snd (RecentCommits.fetchRecentCommits api cfg w)) !! k = Some info).
Proof.
  unfold RecentCommits.fetchRecentCommits, RecentCommits.fetchRecentCommits_keyed, bind.
  destruct (RecentCommitsRunFacts.pageLoop_effect api cfg
              (Z.to_nat (RecentCommits.eventMaxPages cfg)) 1
              {| RecentCommits.commits := []; RecentCommits.seen := ∅ |} w)
    as ((H1 & H2 & H3 & _ & H5 & H6) & _ & _).
  destruct (RecentCommits.pageLoop api cfg _ 1 _ w) as [[l|e] w']; simpl in *.
  all: repeat split; try assumption.
  all: intros k info Hk; eapply lookup_weaken; eassumption.
Qed.

(** What a reporter's [main] may do to the files: the badge file is never
    touched; on exit code 1 nothing was written; on exit code 0 either
    nothing was written, or the README was written exactly once, with a
    content different from the one it held. *)
Definition write_discipline (w : World) (r : Z * World) : Prop :=
  badge (snd r) = badge w /\
  ((fst r = 1 /\ writes (snd r) = writes w /\ readme (snd r) = readme w) \/
   (fst r = 0 /\
    ((writes (snd r) = writes w /\ readme (snd r) = readme w) \/
     exists next, writes (snd r) = writes w ++ [(README, next)] /\
                  readme (snd r) = Some next /\ readme w <> Some next))).

Lemma splice_after_fetch {A} S E msg (o : Outcome A) (render : A -> string) w w1 :
  readme w1 = readme w -> badge w1 = badge w -> writes w1 = writes w ->
  write_discipline w
    (match (match o with
            | Ok a => updateReadme_with S E msg (render a) w1
            | Throw e => (Throw e, w1)
            end) with
     | (Ok _, w') => (0, w')
     | (Throw _, w') => (1, w')
     end).
Proof.
  intros H1 H2 H3. destruct o as [a|e].
  - destruct (updateReadme_with_effect S E msg (render a) w1)
      as [[e ->]|[->|(next & -> & Hne)]]; (split; [simpl; congruence|]).
    + left. repeat split; assumption.
    + right. split; [reflexivity|]. left. split; assumption.
    + right. split; [reflexivity|]. right. exists next. simpl.
      split; [congruence|]. split; [reflexivity|congruence].
  - split; [exact H2|]. left. repeat split; assumption.
Qed.

(** X7. Both reporters' [main] keep the write discipline: the badge file is
    never touched; a run that ends with exit code 1 (a failed events
    request, a missing README, missing markers) has written nothing; a run
    that ends with exit code 0 has either written nothing or written the
    README exactly once, with a content that differs from the previous one. *)
Theorem main_write_discipline (api : DateApi) (cfgP : RecentPRs.Config)
    (cfgC : RecentCommits.Config) (w : World) :
  write_discipline w (RecentPRs.main api cfgP w) /\
  write_discipline w (RecentCommits.main api cfgC w).
Proof.
  split.
  - unfold RecentPRs.main, RecentPRs.updateReadme, bind.
    destruct (RecentPRsRunFacts.pageLoop_trace api cfgP
                (Z.to_nat (RecentPRs.eventMaxPages cfgP)) 1
                {| RecentPRs.prs := []; RecentPRs.seen := ∅ |} w)
      as (k & _ & _ & H1 & H2 & H3 & _).
    fold (RecentPRs.fetchRecentPRs api cfgP) in *.
    destruct (RecentPRs.fetchRecentPRs api cfgP w) as [o w1]. simpl in *.
    apply (splice_after_fetch _ _ _ o (RecentPRs.buildPrMarkup api)); assumption.
  - unfold RecentCommits.main, RecentCommits.updateReadme, bind.
    unfold RecentCommits.fetchRecentCommits, RecentCommits.fetchRecentCommits_keyed, bind.
    destruct (RecentCommitsRunFacts.pageLoop_effect api cfgC
                (Z.to_nat (RecentCommits.eventMaxPages cfgC)) 1
                {| RecentCommits.commits := []; RecentCommits.seen := ∅ |} w)
      as ((H1 & H2 & H3 & _) & _ & _).
    destruct (RecentCommits.pageLoop api cfgC _ 1 _ w) as [[l|e] w1]; simpl in *.
    + apply (splice_after_fetch _ _ _ (Ok (map snd l))
               (RecentCommits.buildCommitMarkup api)); assumption.
    + apply (splice_after_fetch RecentCommits.START_TAG RecentCommits.END_TAG ""
               (@Throw (list RecentCommits.CommitRecord) e)
               (RecentCommits.buildCommitMarkup api)); assumption.
Qed.

(** X8. Commit details are looked up once. When a lookup for a commit that
    is not cached succeeds, [fetchCommitDetails] returns the details built
    from the response, and from then on, whatever else has been added to the
    cache, it returns the same details for the same repository and SHA
    without sending a request or changing anything. *)
Theorem fetchCommitDetails_cached (repoName sha : string) (w : World)
    (status : Z) (statusText text : string) (data : CommitData) :
  commitCache w !! (repoName +:+ "@" +:+ sha) = None ->
  commit_endpoint (server w) (length (requests w)) repoName sha
    = Http true status statusText text (Some data) ->
  exists w1,
    RecentCommits.fetchCommitDetails repoName sha w
      = (Ok (Some (RecentCommits.mkInfo data)), w1) /\
    requests w1 = requests w ++ [GetCommit repoName sha] /\
    forall w2, commitCache w1 ⊆ commitCache w2 ->
      RecentCommits.fetchCommitDetails repoName sha w2
        = (Ok (Some (RecentCommits.mkInfo data)), w2).
Proof.
  intros Hc Hok.
  exists (set_cache (repoName +:+ "@" +:+ sha) (RecentCommits.mkInfo data)
            (log_request (GetCommit repoName sha) w)).
  split; [|split; [reflexivity|]].
  - unfold RecentCommits.fetchCommitDetails. rewrite Hc.
    unfold bind, fetch_commit. rewrite Hok. reflexivity.
  - intros w2 Hsub. unfold RecentCommits.fetchCommitDetails.
    assert (H : commitCache w2 !! (repoName +:+ "@" +:+ sha)
                = Some (RecentCommits.mkInfo data)).
    { eapply lookup_weaken; [|exact Hsub]. simpl. apply lookup_insert_eq. }
    rewrite H. reflexivity.
Qed.

Lemma fetchCommitDetails_cached_witness :
  exists w1,
    RecentCommits.fetchCommitDetails "o/r" "0123456789abcdef" (start mixed_feed)
      = (Ok (Some (RecentCommits.mkInfo
                     {| data_commit_message := Some ("Subject" +:+ nl +:+ nl +:+ "Body");
                        data_html_url := None; author_date := None;
                        committer_date := None |})), w1) /\
    requests w1 = requests (start mixed_feed) ++ [GetCommit "o/r" "0123456789abcdef"] /\
    forall w2, commitCache w1 ⊆ commitCache w2 ->
      RecentCommits.fetchCommitDetails "o/r" "0123456789abcdef" w2
        = (Ok (Some (RecentCommits.mkInfo
                       {| data_commit_message := Some ("Subject" +:+ nl +:+ nl +:+ "Body");
                          data_html_url := None; author_date := None;
                          committer_date := None |})), w2).
Proof.
  apply (fetchCommitDetails_cached "o/r" "0123456789abcdef" (start mixed_feed) 200 "OK" "");
    reflexivity.
Defined.

(** X10. [formatDate] (of either reporter) never yields more than ten code
    units, and renders a missing, an empty and an unparseable date as the
    empty string. *)
Theorem formatDate_short (api : DateApi) (dateString : option string) :
  (String.length (RecentPRs.formatDate api dateString) <= 10)%nat /\
  (String.length (RecentCommits.formatDate api dateString) <= 10)%nat /\
  RecentPRs.formatDate api None = "" /\
  RecentPRs.formatDate api (Some "") = "" /\
  (forall s, Date_parse api s = None -> RecentPRs.formatDate api (Some s) = "") /\
  RecentCommits.formatDate api dateString = RecentPRs.formatDate api dateString.
Proof.
  assert (Hlen : (String.length (RecentPRs.formatDate api dateString) <= 10)%nat).
  { unfold RecentPRs.formatDate.
    destruct (negb (truthy dateString)); [simpl; lia|].
    destruct (Date_parse api _) as [t|]; [|simpl; lia].
    apply (RecentCommitsRunFacts.slice_prefix_length _ 10). lia. }
  split; [exact Hlen|]. split; [exact Hlen|]. split; [reflexivity|].
  split; [reflexivity|]. split; [|reflexivity].
  intros s Hs. unfold RecentPRs.formatDate.
  destruct (negb (truthy (Some s))); [reflexivity|]. simpl. rewrite Hs. reflexivity.
Qed.

Lemma formatDate_short_witness :
  RecentPRs.formatDate clock (Some "yesterday") = "" /\
  RecentPRs.formatDate clock (Some "2026-01-01T00:00:00Z") = "2026-01-01".
Proof.
  split.
  - apply (proj1 (proj2 (proj2 (proj2 (proj2 (formatDate_short clock None)))))).
    reflexivity.
  - vm_compute. reflexivity.
Defined.

End ReporterRunFacts.

(** ** Splicing again *)
Module SpliceFacts.
Import JS JSFacts ReadmeFacts.

(** The end marker stays behind the start marker in a spliced document,
    whatever the markup holds. *)
Section Respliced.
Variables (S E c m : list ascii) (s e : nat).
Hypothesis S_at : occ S c s.
Hypothesis S_first : forall j, (j < s)%nat -> ~ occ S c j.
Hypothesis E_at : occ E c e.
Hypothesis E_first : forall j, (j < e)%nat -> ~ occ E c j.
Hypothesis in_order : (s < e)%nat.
Hypothesis E_no_nl : nlc ∉ E.

Lemma end_stays_behind :
  exists k, find_from E (spliced c m (s + length S) e) 0 = Z.of_nat k /\ (s < k)%nat.
Proof.
  pose proof (before_fits S E c s e S_at S_first E_at E_first in_order) as Hfit.
  pose proof (E_nonempty E c s e E_at E_first in_order) as HE.
  assert (HlenE : (0 < length E)%nat) by (destruct E; [congruence|simpl; lia]).
  remember (s + length S)%nat as a eqn:Ha.
  destruct (find_from_spec E (spliced c m a e) 0) as [[_ Hno]|(k & Hk & Hocc & _)].
  - exfalso. apply (Hno (a + 2 + length m)%nat).
    intros i x Hx. rewrite spliced_after by exact Hfit. now apply E_at.
  - exists k. split; [exact Hk|].
    destruct (le_lt_dec k s) as [Hle|Hlt]; [exfalso|exact Hlt].
    destruct (le_lt_dec (k + length E) a) as [Hin|Hout].
    + apply (E_first k); [lia|].
      apply (occ_local E (spliced c m a e)); [|exact Hocc].
      intros i Hi. apply spliced_before; [exact Hfit|lia].
    + destruct (lookup_lt_is_Some_2 E (a - k)) as [x Hx]; [lia|].
      pose proof (Hocc _ _ Hx) as H1. replace (k + (a - k))%nat with a in H1 by lia.
      rewrite spliced_nl1 in H1 by exact Hfit.
      apply E_no_nl. apply (list_elem_of_lookup_2 _ (a - k)). congruence.
Qed.

End Respliced.

(** X9. A successful splice keeps the README spliceable: on a README that
    holds both markers in order, [updateReadme] (of either reporter, with
    any markup) leaves a README that again holds both markers in order, so
    the next run cannot fail with "markers not found". *)
Theorem splice_keeps_markers (r : Reporter) (markup : string) (w : World)
    (content : string) :
  readme w = Some content ->
  markers_in_order r content ->
  exists w' next,
    updateReadme_of r markup w = (Ok tt, w') /\
    readme w' = Some next /\
    markers_in_order r next.
Proof.
  intros Hr (HS & HE & Hlt). destruct (updateReadme_of_unfold r) as (msg & _ & ->).
  destruct (updateReadme_with_ok _ _ msg markup w content Hr HS HE Hlt)
    as (s & e & Hs & He & Hs1 & Hs2 & He1 & He2 & Hse & Hrun).
  cbv zeta in Hrun.
  remember (str (spliced (chars content) (chars markup)
                   (s + length (chars (START_TAG_of r))) e)) as next eqn:Hnext.
  eexists _, next. split; [exact Hrun|]. split.
  - destruct (decide (next = content)) as [->|]; [exact Hr|reflexivity].
  - pose proof (start_kept _ _ _ (chars markup) _ _ Hs1 Hs2 He1 He2 Hse) as Hstart.
    destruct (end_stays_behind _ _ _ (chars markup) _ _ Hs1 Hs2 He1 He2 Hse
                (end_tag_no_nl r)) as (k & Hk & Hsk).
    unfold markers_in_order, indexOf. rewrite Hnext, chars_str, Hstart, Hk.
    repeat split; lia.
Qed.

Lemma splice_keeps_markers_witness :
  exists w' next,
    updateReadme_of PRs marker_markup
      (fresh_world offline (Some "<!-- START_RECENT_PRS --><!-- END_RECENT_PRS -->"))
    = (Ok tt, w') /\
    readme w' = Some next /\
    markers_in_order PRs next.
Proof.
  apply (splice_keeps_markers PRs marker_markup _
           "<!-- START_RECENT_PRS --><!-- END_RECENT_PRS -->").
  - reflexivity.
  - unfold markers_in_order. vm_compute. repeat split; discriminate.
Defined.

End SpliceFacts.

(** ** The language badge from end to end *)
Module BadgeRunFacts.
Import JS JSFacts Badge BadgeFacts.

Lemma truthy_inv_name o : truthy o = true -> exists s, o = Some s /\ s <> "".
Proof. exact (RecentPRsRunFacts.truthy_inv o). Qed.

Lemma or_lit_default_nonempty a d : d <> "" -> or_lit a d <> "".
Proof. exact (RecentPRsRunFacts.or_lit_nonempty a d). Qed.

Lemma map_has_keys m name : map_has m name = true <-> name ∈ map fst m.
Proof.
  induction m as [|[k v] m IH]; simpl.
  - split; [discriminate|]. intros H. inversion H.
  - rewrite orb_true_iff, IH, elem_of_cons, String.eqb_eq.
    split; (intros [H|H]; [left; congruence|right; exact H]).
Qed.

Lemma map_update_keys m name f : map fst (map_update m name f) = map fst m.
Proof.
  induction m as [|[k v] m IH]; simpl; [reflexivity|].
  destruct (String.eqb k name); simpl; [reflexivity|]. now rewrite IH.
Qed.

(** The language an edge is counted for: [None] for the edges the loop
    skips ([!name || !size]). *)
Definition counted (e : LanguageEdge) : option string :=
  if negb (truthy (node_name e)) || (default 0 (edge_size e) =? 0) then None
  else node_name e.

Lemma edgeStep_keys m e :
  map fst (edgeStep m e)
  = map fst m ++ match counted e with
                 | Some name => if map_has m name then [] else [name]
                 | None => []
                 end.
Proof.
  unfold edgeStep, counted.
  destruct (negb (truthy (node_name e)) || (default 0 (edge_size e) =? 0)) eqn:Hskip;
    [now rewrite app_nil_r|].
  apply orb_false_elim in Hskip as [Hname _]. apply negb_false_iff in Hname.
  destruct (truthy_inv_name (node_name e) Hname) as (name & -> & _). simpl default.
  rewrite map_update_keys.
  destruct (map_has m name); simpl; [now rewrite app_nil_r|].
  unfold map_set_new. now rewrite map_app.
Qed.

Lemma edgeStep_NoDup m e : NoDup (map fst m) -> NoDup (map fst (edgeStep m e)).
Proof.
  intros Hm. rewrite edgeStep_keys. destruct (counted e) as [name|]; [|now rewrite app_nil_r].
  destruct (map_has m name) eqn:Hhas; [now rewrite app_nil_r|].
  apply NoDup_app. split; [exact Hm|]. split; [|apply NoDup_singleton].
  intros x Hx Hin. apply list_elem_of_singleton in Hin as ->.
  apply map_has_keys in Hx. congruence.
Qed.

Lemma edgeStep_elem m e name :
  name ∈ map fst (edgeStep m e) <-> name ∈ map fst m \/ counted e = Some name.
Proof.
  rewrite edgeStep_keys, elem_of_app. destruct (counted e) as [n|].
  - destruct (map_has m n) eqn:Hhas.
    + apply map_has_keys in Hhas. split.
      * intros [H|H]; [now left|inversion H].
      * intros [H|H]; [now left|]. left. congruence.
    + rewrite list_elem_of_singleton. split; (intros [H|H]; [now left|right; congruence]).
  - split; (intros [H|H]; [now left|]); [inversion H|discriminate].
Qed.

Lemma edges_fold_keys edges m :
  NoDup (map fst m) ->
  NoDup (map fst (fold_left edgeStep edges m)) /\
  forall name, name ∈ map fst (fold_left edgeStep edges m)
               <-> name ∈ map fst m \/ exists e, e ∈ edges /\ counted e = Some name.
Proof.
  revert m. induction edges as [|e edges IH]; intros m Hm; simpl.
  - split; [exact Hm|]. intros name. split; [now left|].
    intros [H|(e & He & _)]; [exact H|inversion He].
  - destruct (IH (edgeStep m e) (edgeStep_NoDup m e Hm)) as [Hnd Hel].
    split; [exact Hnd|]. intros name. rewrite Hel, edgeStep_elem. split.
    + intros [[H|H]|(e' & He' & Hc)]; [now left| |].
      * right. exists e. split; [left|exact H].
      * right. exists e'. split; [now right|exact Hc].
    + intros [H|(e' & He' & Hc)]; [now left; left|].
      apply elem_of_cons in He' as [->|He']; [now left; right|].
      right. now exists e'.
Qed.

Lemma repos_fold_keys repos m :
  NoDup (map fst m) ->
  NoDup (map fst (fold_left repoStep repos m)) /\
  forall name, name ∈ map fst (fold_left repoStep repos m)
               <-> name ∈ map fst m \/ exists e, e ∈ all_edges repos /\ counted e = Some name.
Proof.
  revert m. induction repos as [|repo repos IH]; intros m Hm; simpl.
  - split; [exact Hm|]. intros name. split; [now left|].
    intros [H|(e & He & _)]; [exact H|inversion He].
  - assert (Hstep : NoDup (map fst (repoStep m repo)) /\
                    forall name, name ∈ map fst (repoStep m repo)
                      <-> name ∈ map fst m \/
                          exists e, e ∈ default [] (languages_edges repo)
                                    /\ counted e = Some name).
    { unfold repoStep. destruct (languages_edges repo) as [edges|]; simpl.
      - now apply edges_fold_keys.
      - split; [exact Hm|]. intros name. split; [now left|].
        intros [H|(e & He & _)]; [exact H|inversion He]. }
    destruct Hstep as [Hnd Hel]. destruct (IH _ Hnd) as [Hnd' Hel'].
    split; [exact Hnd'|]. intros name. rewrite Hel', Hel.
    unfold all_edges. simpl. fold (all_edges repos). split.
    + intros [[H|(e & He & Hc)]|(e & He & Hc)]; [now left| |].
      * right. exists e. split; [apply elem_of_app; now left|exact Hc].
      * right. exists e. split; [apply elem_of_app; now right|exact Hc].
    + intros [H|(e & He & Hc)]; [now left; left|].
      apply elem_of_app in He as [He|He].
      * left; right. now exists e.
      * right. now exists e.
Qed.

(** X11. [fetchLanguages] keeps one entry per language: the names of the
    accumulated map are pairwise different, and a name has an entry exactly
    when some edge of the response is counted for it (non-empty name,
    non-zero size). *)
Theorem accumulate_one_entry_per_language (repos : list RepoNode) :
  NoDup (map fst (accumulate repos)) /\
  forall name, name ∈ map fst (accumulate repos)
               <-> exists e, e ∈ all_edges repos /\ counted e = Some name.
Proof.
  destruct (repos_fold_keys repos [] (NoDup_nil_2)) as [Hnd Hel].
  split; [exact Hnd|]. intros name. unfold accumulate. rewrite Hel.
  split; [intros [H|H]; [inversion H|exact H]|now right].
Qed.

Lemma lookup_size_entry m name info :
  NoDup (map fst m) -> (name, info) ∈ m -> lookup_size m name = size info.
Proof.
  induction m as [|[k v] m IH]; intros Hnd Hin; [inversion Hin|].
  simpl in *. apply NoDup_cons in Hnd as [Hk Hnd].
  apply elem_of_cons in Hin as [Heq|Hin].
  - injection Heq as -> ->. now rewrite String.eqb_refl.
  - destruct (String.eqb_spec k name) as [->|_]; [|now apply IH].
    exfalso. apply Hk. apply (list_elem_of_fmap_2 fst _ _ Hin).
Qed.

(** The sizes of a response stay within the integers that binary64 holds
    and adds exactly: the absolute sizes of all its edges total at most 2^53,
    so no partial sum of [entry.size += size] leaves that range. *)
Definition safe_sizes (repos : list RepoNode) : Prop :=
  sumZ (map (fun e => Z.abs (default 0 (edge_size e))) (all_edges repos)) <= 2 ^ 53.

Lemma contributions_within (name : string) (edges : list LanguageEdge) :
  Z.abs (sumZ (map (contribution name) edges))
  <= sumZ (map (fun e => Z.abs (default 0 (edge_size e))) edges).
Proof.
  induction edges as [|e edges IH]; simpl; [lia|].
  assert (H : Z.abs (contribution name e) <= Z.abs (default 0 (edge_size e))).
  { unfold contribution.
    destruct (negb (truthy (node_name e)) || (default 0 (edge_size e) =? 0)); [lia|].
    destruct (String.eqb _ name); lia. }
  lia.
Qed.

(** X12. Within the range of sizes that binary64 adds exactly (the absolute
    sizes of the response total at most 2^53), the size stored for a language
    is the sum of the sizes of all the edges counted for that name, over
    every repository of the response, and is itself within that range. *)
Theorem accumulate_sums_sizes (repos : list RepoNode) (name : string) (info : LangInfo) :
  safe_sizes repos ->
  (name, info) ∈ accumulate repos ->
  size info = sumZ (map (contribution name) (all_edges repos)) /\
  Z.abs (size info) <= 2 ^ 53.
Proof.
  intros Hsafe Hin.
  assert (Hsum : size info = sumZ (map (contribution name) (all_edges repos))).
  { rewrite <- (lookup_size_entry _ _ _ (proj1 (repos_fold_keys repos [] NoDup_nil_2)) Hin).
    apply accumulate_lookup. }
  split; [exact Hsum|]. rewrite Hsum.
  etransitivity; [apply contributions_within|exact Hsafe].
Qed.

Lemma accumulate_sums_sizes_witness :
  size {| size := 3000; color := "#58a6ff" |}
  = sumZ (map (contribution "C")
            (all_edges (thirds ++ [ {| languages_edges :=
                                         Some [edge "C" 2000 (Some "#555555")] |} ]))) /\
  Z.abs (size {| size := 3000; color := "#58a6ff" |}) <= 2 ^ 53.
Proof.
  apply (accumulate_sums_sizes _ "C" {| size := 3000; color := "#58a6ff" |}).
  - unfold safe_sizes. vm_compute. discriminate.
  - vm_compute. apply list_elem_of_In. right. left. reflexivity.
Defined.

Lemma map_update_colored m name f :
  (forall v, color v <> "" -> color (f v) <> "") ->
  Forall (fun kv => color (snd kv) <> "") m ->
  Forall (fun kv => color (snd kv) <> "") (map_update m name f).
Proof. intros Hf. exact (map_update_Forall (fun v => color v <> "") m name f Hf). Qed.

Lemma edgeStep_colored m e :
  Forall (fun kv => color (snd kv) <> "") m ->
  Forall (fun kv => color (snd kv) <> "") (edgeStep m e).
Proof.
  intros Hm. unfold edgeStep.
  destruct (negb (truthy (node_name e)) || (default 0 (edge_size e) =? 0)); [exact Hm|].
  apply map_update_colored.
  - intros v Hv. simpl. destruct (String.eqb_spec (color v) "") as [E|_]; [contradiction|].
    simpl. exact Hv.
  - destruct (negb (map_has m _)); [|exact Hm].
    unfold map_set_new. apply Forall_app. split; [exact Hm|].
    constructor; [|constructor]. simpl. apply or_lit_default_nonempty. discriminate.
Qed.

Lemma fold_left_Forall {A B} (P : A -> Prop) (f : A -> B -> A) l a :
  (forall a b, P a -> P (f a b)) -> P a -> P (fold_left f l a).
Proof. intros Hf. revert a. induction l as [|b l IH]; intros a Ha; simpl; auto. Qed.

(** X13. Every entry of the accumulated map carries a non-empty colour
    (an edge without one gets [#58a6ff] when its language is first seen), so
    the later replacement of an empty entry colour never takes effect and the
    colour of a language is fixed by the first edge counted for it. *)
Theorem accumulate_colored (repos : list RepoNode) :
  Forall (fun kv => color (snd kv) <> "") (accumulate repos) /\
  forall m e, Forall (fun kv => color (snd kv) <> "") m ->
    map (fun kv => (fst kv, color (snd kv))) (edgeStep m e)
    = map (fun kv => (fst kv, color (snd kv))) m
      ++ match counted e with
         | Some name => if map_has m name then []
                        else [(name, or_lit (node_color e) "#58a6ff")]
         | None => []
         end.
Proof.
  split.
  - unfold accumulate.
    apply (fold_left_Forall (Forall (fun kv => color (snd kv) <> ""))); [|constructor].
    intros m repo Hm. unfold repoStep. destruct (languages_edges repo) as [edges|]; [|exact Hm].
    apply (fold_left_Forall (Forall (fun kv => color (snd kv) <> ""))); [|exact Hm].
    intros m' e. apply edgeStep_colored.
  - intros m e Hm. unfold edgeStep, counted.
    destruct (negb (truthy (node_name e)) || (default 0 (edge_size e) =? 0)) eqn:Hskip;
      [now rewrite app_nil_r|].
    apply orb_false_elim in Hskip as [Hname _]. apply negb_false_iff in Hname.
    destruct (truthy_inv_name (node_name e) Hname) as (name & -> & _). simpl default.
    assert (Hupd : forall (f : LangInfo -> LangInfo) m',
              (forall v, color v <> "" -> color (f v) = color v) ->
              Forall (fun kv => color (snd kv) <> "") m' ->
              map (fun kv => (fst kv, color (snd kv))) (map_update m' name f)
              = map (fun kv => (fst kv, color (snd kv))) m').
    { intros f m' Hf. induction m' as [|[k v] m' IH]; intros Hm'; [reflexivity|].
      apply Forall_cons in Hm' as [Hv Hm']. simpl in *.
      destruct (String.eqb k name); simpl; [now rewrite Hf|now rewrite IH]. }
    assert (Hf : forall sz c v, color v <> "" ->
              color (let entry := {| size := size v + sz; color := color v |} in
                     if String.eqb (color entry) "" && negb (String.eqb c "")
                     then {| size := size entry; color := c |} else entry)
              = color v).
    { intros sz c v Hv. simpl.
      destruct (String.eqb_spec (color v) "") as [E|_]; [contradiction|]. reflexivity. }
    destruct (map_has m name); cbn [negb].
    + rewrite app_nil_r. apply Hupd; [apply Hf|exact Hm].
    + rewrite Hupd.
      * unfold map_set_new. now rewrite map_app.
      * apply Hf.
      * unfold map_set_new. apply Forall_app. split; [exact Hm|].
        constructor; [|constructor]. simpl. apply or_lit_default_nonempty. discriminate.
Qed.

Lemma slice_list_0_take {A} (l : list A) (e : option Z) :
  exists n, slice_list l 0 e = take n l.
Proof.
  unfold slice_list, clamp_index. change (0 <? 0) with false. cbv iota.
  replace (Z.min 0 (Z.of_nat (length l))) with 0 by lia.
  change (Z.to_nat 0) with 0%nat. rewrite drop_0. eexists; reflexivity.
Qed.

Definition by_size (a b : string * LangInfo) : Z := size (snd b) - size (snd a).

Definition larger_first (a b : string * LangInfo) : Prop := size (snd b) <= size (snd a).

Lemma sort_strongly_sorted (l : list (string * LangInfo)) :
  StronglySorted larger_first (sort by_size l).
Proof.
  apply Sorted.Sorted_StronglySorted; [|apply sort_descending].
  intros a b c Hab Hbc. unfold larger_first in *. lia.
Qed.

Lemma StronglySorted_app_split {A} (R : A -> A -> Prop) l1 l2 :
  StronglySorted R (l1 ++ l2) ->
  StronglySorted R l1 /\ forall x1 x2, x1 ∈ l1 -> x2 ∈ l2 -> R x1 x2.
Proof.
  induction l1 as [|x l1 IH]; simpl; intros H.
  - split; [constructor|]. intros x1 x2 H1. inversion H1.
  - apply StronglySorted_inv in H as [Hs Hx]. destruct (IH Hs) as [Hs1 Hr].
    apply Forall_app in Hx as [Hx1 Hx2]. split; [now constructor|].
    intros x1 x2 H1 H2. apply elem_of_cons in H1 as [->|H1]; [|now apply Hr].
    rewrite Forall_forall in Hx2. now apply Hx2.
Qed.

Lemma entriesOf_sorted cfg (languageMap : LanguageMap) :
  StronglySorted larger_first (entriesOf cfg languageMap).
Proof.
  unfold entriesOf. fold by_size.
  destruct (slice_list_0_take (sort by_size languageMap) (Some (topLanguagesLimit cfg)))
    as [n ->].
  pose proof (sort_strongly_sorted languageMap) as Hs.
  rewrite <- (take_drop n (sort by_size languageMap)) in Hs.
  exact (proj1 (StronglySorted_app_split _ _ _ Hs)).
Qed.

Lemma entriesOf_count cfg (languageMap : LanguageMap) :
  0 <= topLanguagesLimit cfg ->
  length (entriesOf cfg languageMap)
  = Nat.min (length languageMap) (Z.to_nat (topLanguagesLimit cfg)).
Proof.
  intros Hlim. unfold entriesOf. fold by_size. rewrite slice_list_to by exact Hlim.
  rewrite length_take, (Permutation_length (sort_perm by_size languageMap)). lia.
Qed.

(** X14. [buildSvg] draws the largest languages: its [entries] are in
    descending order of size, are taken from the map without repetition or
    invention, no language left out is larger than one that is drawn, and for
    a non-negative limit there are [min (size of the map) limit] of them. *)
Theorem entriesOf_largest (cfg : Config) (languageMap : LanguageMap) :
  exists rest,
    entriesOf cfg languageMap ++ rest ≡ₚ languageMap /\
    StronglySorted larger_first (entriesOf cfg languageMap) /\
    (forall d e, d ∈ entriesOf cfg languageMap -> e ∈ rest ->
                 size (snd e) <= size (snd d)) /\
    (0 <= topLanguagesLimit cfg ->
     length (entriesOf cfg languageMap)
     = Nat.min (length languageMap) (Z.to_nat (topLanguagesLimit cfg))).
Proof.
  unfold entriesOf. fold by_size.
  destruct (slice_list_0_take (sort by_size languageMap) (Some (topLanguagesLimit cfg)))
    as [n Hn].
  pose proof (sort_strongly_sorted languageMap) as Hs.
  rewrite <- (take_drop n (sort by_size languageMap)) in Hs.
  exists (drop n (sort by_size languageMap)). rewrite Hn. split; [|split; [|split]].
  - rewrite take_drop. apply sort_perm.
  - exact (proj1 (StronglySorted_app_split _ _ _ Hs)).
  - intros d e Hd He. exact (proj2 (StronglySorted_app_split _ _ _ Hs) d e Hd He).
  - intros Hlim. rewrite <- Hn, slice_list_to by exact Hlim.
    rewrite length_take, (Permutation_length (sort_perm by_size languageMap)). lia.
Qed.

Lemma sort_insert_filter (k : Z) x l :
  filter (fun e : string * LangInfo => size (snd e) = k) (sort_insert by_size x l)
  = filter (fun e : string * LangInfo => size (snd e) = k) (x :: l).
Proof.
  induction l as [|y l IH]; [reflexivity|]. simpl.
  destruct (by_size x y <=? 0) eqn:Hc; [reflexivity|].
  apply Z.leb_gt in Hc. unfold by_size in Hc.
  rewrite (filter_cons _ y (sort_insert by_size x l)), IH.
  rewrite !filter_cons. repeat case_decide; try reflexivity. lia.
Qed.

Lemma sort_filter (k : Z) l :
  filter (fun e : string * LangInfo => size (snd e) = k) (sort by_size l)
  = filter (fun e : string * LangInfo => size (snd e) = k) l.
Proof.
  induction l as [|x l IH]; [reflexivity|]. unfold sort in *. simpl.
  rewrite sort_insert_filter, !filter_cons, IH. reflexivity.
Qed.

Lemma entriesOf_stable cfg (languageMap : LanguageMap) (k : Z) :
  filter (fun e => size (snd e) = k) (entriesOf cfg languageMap)
    `prefix_of` filter (fun e => size (snd e) = k) languageMap.
Proof.
  unfold entriesOf. fold by_size.
  destruct (slice_list_0_take (sort by_size languageMap) (Some (topLanguagesLimit cfg)))
    as [n ->].
  unfold LanguageMap in *. rewrite <- (sort_filter k languageMap).
  rewrite <- (take_drop n (sort by_size languageMap)) at 2.
  rewrite filter_app. apply prefix_app_r. reflexivity.
Qed.

(** X15. Ties keep the order of first appearance: among languages of one
    size, [buildSvg] lists them in the order the map holds them (the order in
    which they were first seen), and cuts that order off at its end only. *)
Theorem entriesOf_ties (cfg : Config) (languageMap : LanguageMap) (k : Z) :
  filter (fun e => size (snd e) = k) (entriesOf cfg languageMap)
    `prefix_of` filter (fun e => size (snd e) = k) languageMap.
Proof.
  unfold entriesOf. fold by_size.
  destruct (slice_list_0_take (sort by_size languageMap) (Some (topLanguagesLimit cfg)))
    as [n ->].
  unfold LanguageMap in *. rewrite <- (sort_filter k languageMap).
  rewrite <- (take_drop n (sort by_size languageMap)) at 2.
  rewrite filter_app. apply prefix_app_r. reflexivity.
Qed.

Lemma totalOf_positive entries :
  Forall (fun kv => 0 < size (snd kv)) entries -> entries <> [] -> 0 < totalOf entries.
Proof.
  intros Hpos Hne. rewrite totalOf_sum.
  destruct entries as [|e entries]; [congruence|].
  assert (H : size (snd e) <= sumZ (sizes (e :: entries))).
  { apply positive_le_sum; [|left].
    unfold sizes. apply Forall_fmap. exact Hpos. }
  apply Forall_cons in Hpos as [He _]. lia.
Qed.

(** X16. When the API reports no negative size, the "No language data"
    placeholder is drawn exactly when there is nothing to list; with a
    positive limit that is exactly when no edge of the response is counted. *)
Theorem placeholder_iff_nothing_to_list (fp : Arith) (cfg : Config) (repos : list RepoNode) :
  Forall (fun repo => forall edges, languages_edges repo = Some edges ->
            Forall (fun e => forall z, edge_size e = Some z -> 0 <= z) edges) repos ->
  (rowsOf fp cfg (accumulate repos) = None <-> entriesOf cfg (accumulate repos) = []) /\
  (0 < topLanguagesLimit cfg ->
   (rowsOf fp cfg (accumulate repos) = None
    <-> forall e, e ∈ all_edges repos -> counted e = None)).
Proof.
  intros Hnonneg.
  assert (Hpos : Forall (fun kv => 0 < size (snd kv)) (entriesOf cfg (accumulate repos))).
  { unfold entriesOf. apply slice_list_Forall, sort_Forall, accumulate_positive, Hnonneg. }
  assert (Hrows : rowsOf fp cfg (accumulate repos) = None
                  <-> entriesOf cfg (accumulate repos) = []).
  { unfold rowsOf. cbv zeta. split.
    - intros H. destruct (decide (entriesOf cfg (accumulate repos) = [])) as [E|E]; [exact E|].
      exfalso. pose proof (totalOf_positive _ Hpos E) as Ht.
      rewrite bool_decide_eq_false_2 in H by exact E.
      replace (totalOf (entriesOf cfg (accumulate repos)) =? 0) with false in H by lia.
      discriminate.
    - intros ->. reflexivity. }
  split; [exact Hrows|]. intros Hlim. rewrite Hrows.
  destruct (repos_fold_keys repos [] NoDup_nil_2) as [_ Hel]. fold (accumulate repos) in Hel.
  assert (Hlen : entriesOf cfg (accumulate repos) = [] <-> accumulate repos = []).
  { unfold entriesOf. rewrite slice_list_to by lia. split.
    - intros H. apply (f_equal length) in H. rewrite length_take in H.
      rewrite (Permutation_length (sort_perm _ (accumulate repos))) in H. simpl in H.
      destruct (accumulate repos); [reflexivity|simpl in H; lia].
    - intros ->. unfold sort. simpl foldr. apply take_nil. }
  rewrite Hlen. split.
  - intros Hnil e He. destruct (counted e) as [name|] eqn:Hc; [|reflexivity].
    exfalso. assert (Hin : name ∈ map fst (accumulate repos)).
    { apply Hel. right. now exists e. }
    rewrite Hnil in Hin. inversion Hin.
  - intros Hnone. destruct (accumulate repos) as [|[name info] m] eqn:E; [reflexivity|].
    exfalso. assert (Hin : name ∈ map fst ((name, info) :: m)) by left.
    apply Hel in Hin as [Hin|(e & He & Hc)]; [inversion Hin|].
    rewrite (Hnone e He) in Hc. discriminate.
Qed.

Lemma placeholder_iff_nothing_to_list_witness :
  rowsOf exact (badge_config 6) (accumulate thirds) = None
  <-> entriesOf (badge_config 6) (accumulate thirds) = [].
Proof.
  apply (placeholder_iff_nothing_to_list exact (badge_config 6) thirds).
  repeat constructor; intros edges [= <-]; repeat constructor; intros z [= <-]; lia.
Defined.

(** What a GraphQL response is worth to [fetchLanguages]: the repository
    nodes to accumulate, or nothing when the function throws. *)
Definition usable (r : Response GraphQLPayload) : option (list RepoNode) :=
  match r with
  | Http true _ _ _ (Some payload) =>
      match errors payload with
      | Some (_ :: _) => None
      | _ => Some (default [] (nodes payload))
      end
  | _ => None
  end.

(** X17. The badge script at large: it never touches the README or the
    commit cache; without a token it exits with code 0 having done nothing;
    with one it sends exactly one GraphQL request and then either writes the
    badge once, holding the SVG of the accumulated response, and exits with
    code 0, or (request failed, body unreadable, GraphQL errors) writes
    nothing and exits with code 1. *)
Theorem badge_main_discipline (fp : Arith) (cfg : Config) (w : World) :
  let out := Badge.main fp cfg w in
  readme (snd out) = readme w /\
  commitCache (snd out) = commitCache w /\
  (truthy (token cfg) = false -> out = (0, w)) /\
  (truthy (token cfg) = true ->
   requests (snd out)
   = requests w ++ [PostGraphQL (login cfg) (repoLimit cfg) (perRepoLanguageLimit cfg)] /\
   match usable (graphql_endpoint (server w) (length (requests w))
                   (login cfg) (repoLimit cfg) (perRepoLanguageLimit cfg)) with
   | Some repos =>
       fst out = 0 /\
       writes (snd out) = writes w ++ [(BadgeSvg, buildSvg fp cfg (accumulate repos))] /\
       badge (snd out) = Some (buildSvg fp cfg (accumulate repos))
   | None =>
       fst out = 1 /\ writes (snd out) = writes w /\ badge (snd out) = badge w
   end).
Proof.
  cbv zeta. unfold Badge.main.
  destruct (truthy (token cfg)) eqn:Htok; cbn [negb].
  2:{ repeat split; try reflexivity; discriminate. }
  unfold bind, fetchLanguages, fetch_graphql, bind.
  destruct (graphql_endpoint _ _ _ _ _) as [|ok status statusText text json]; cbn.
  { repeat split; try reflexivity; discriminate. }
  destruct ok; cbn; [|repeat split; try reflexivity; discriminate].
  destruct json as [payload|]; cbn; [|repeat split; try reflexivity; discriminate].
  destruct (errors payload) as [[|e es]|]; cbn; repeat split; try reflexivity; discriminate.
Qed.

End BadgeRunFacts.

(** ** The aggregation scenario *)
Module BadgeScenarioFacts.
Import JS JSFacts Badge BadgeFacts BadgeRunFacts.

(** A repository node reports a set of edges, in whatever order. *)
Definition reports (repo : RepoNode) (edges : list LanguageEdge) : Prop :=
  exists es, languages_edges repo = Some es /\ es ≡ₚ edges.

Lemma reports_two repo e1 e2 :
  reports repo [e1; e2] ->
  repo = {| languages_edges := Some [e1; e2] |} \/
  repo = {| languages_edges := Some [e2; e1] |}.
Proof.
  intros (es & Hes & Hperm). destruct repo as [edges]. simpl in Hes. subst edges.
  symmetry in Hperm. apply Permutation_length_2_inv in Hperm as [->| ->]; [now left|now right].
Qed.

(** C9. Two repositories reporting A:80, B:20 and A:20, C:20 (in whatever
    order each lists its two languages, and whatever their colours)
    accumulate to A:100, B:20, C:20; with a top limit of 2 the rendered
    entries are A and then B: the sort brings A to the front wherever it was
    met, B and C tie on size, and B, met in the first repository, stays in
    front while C is cut off. Were the repositories met in the other order,
    C would win the tie. In general: within the sizes binary64 adds exactly
    the accumulated size of a name is the sum of the sizes counted for it,
    the rendered entries are in descending order of size, entries of equal
    size keep their encounter order, and at most the top N are kept. *)
Theorem aggregation_scenario (fp : Arith) (cfg : Config) (cA cB cA' cC : option string)
    (first second : RepoNode) :
  topLanguagesLimit cfg = 2 ->
  reports first [edge "A" 80 cA; edge "B" 20 cB] ->
  reports second [edge "A" 20 cA'; edge "C" 20 cC] ->
  (map (fun kv => (fst kv, size (snd kv))) (accumulate [first; second])
     ≡ₚ [("A", 100); ("B", 20); ("C", 20)]) /\
  map fst (entriesOf cfg (accumulate [first; second])) = ["A"; "B"] /\
  (map row_name <$> rowsOf fp cfg (accumulate [first; second])) = Some ["A"; "B"] /\
  map fst (entriesOf cfg (accumulate [second; first])) = ["A"; "C"] /\
  (forall repos name, safe_sizes repos ->
     lookup_size (accumulate repos) name
     = sumZ (map (contribution name) (all_edges repos))) /\
  (forall cfg' languageMap,
     StronglySorted larger_first (entriesOf cfg' languageMap) /\
     (forall k, filter (fun e => size (snd e) = k) (entriesOf cfg' languageMap)
                  `prefix_of` filter (fun e => size (snd e) = k) languageMap) /\
     (0 <= topLanguagesLimit cfg' ->
      length (entriesOf cfg' languageMap)
      = Nat.min (length languageMap) (Z.to_nat (topLanguagesLimit cfg')))).
Proof.
  intros Htop H1 H2.
  assert (Hgeneral : forall cfg' languageMap,
     StronglySorted larger_first (entriesOf cfg' languageMap) /\
     (forall k, filter (fun e => size (snd e) = k) (entriesOf cfg' languageMap)
                  `prefix_of` filter (fun e => size (snd e) = k) languageMap) /\
     (0 <= topLanguagesLimit cfg' ->
      length (entriesOf cfg' languageMap)
      = Nat.min (length languageMap) (Z.to_nat (topLanguagesLimit cfg')))).
  { intros cfg' m. split; [apply entriesOf_sorted|].
    split; [intros k; apply entriesOf_stable|apply entriesOf_count]. }
  assert (Hsums : forall repos name, safe_sizes repos ->
     lookup_size (accumulate repos) name
     = sumZ (map (contribution name) (all_edges repos))).
  { intros repos name _. apply accumulate_lookup. }
  unfold rowsOf, entriesOf. rewrite Htop.
  apply reports_two in H1 as [-> | ->]; apply reports_two in H2 as [-> | ->];
    destruct cA as [[|? ?]|], cB as [[|? ?]|], cA' as [[|? ?]|], cC as [[|? ?]|];
    (split; [vm_compute; first [reflexivity|apply perm_swap]|
     split; [reflexivity|split; [reflexivity|split; [reflexivity|
     split; [exact Hsums|exact Hgeneral]]]]]).
Qed.

Lemma aggregation_scenario_witness :
  map fst (entriesOf (badge_config 2)
             (accumulate [ {| languages_edges := Some [edge "B" 20 None; edge "A" 80 None] |};
                           {| languages_edges := Some [edge "C" 20 None; edge "A" 20 None] |} ]))
  = ["A"; "B"].
Proof.
  refine (proj1 (proj2 (aggregation_scenario exact (badge_config 2) None None None None
                          _ _ _ _ _))).
  - reflexivity.
  - eexists. split; [reflexivity|apply perm_swap].
  - eexists. split; [reflexivity|apply perm_swap].
Defined.

End BadgeScenarioFacts.

(** ** The percentage labels *)
Module BadgeLabelFacts.
Import JS JSFacts Badge BadgeFacts BadgeRunFacts Float64Facts.

Lemma sumZ_perm (l l' : list Z) : l ≡ₚ l' -> sumZ l = sumZ l'.
Proof.
  induction 1 as [|x l l' _ IH|x y l|l l' l'' _ IH1 _ IH2]; simpl; lia.
Qed.

Lemma sumZ_take (n : nat) (l : list Z) :
  Forall (fun z => 0 < z) l -> sumZ (take n l) <= sumZ l.
Proof.
  intros Hl. revert n. induction Hl as [|z l Hz Hl IH]; intros [|n]; simpl; try lia.
  - assert (0 <= sumZ l).
    { clear -Hl. induction Hl as [|y l Hy Hl IH]; simpl; lia. }
    lia.
  - specialize (IH n). lia.
Qed.

(** What is drawn is part of the map: its sizes total no more. *)
Lemma entries_total_le cfg (languageMap : LanguageMap) :
  Forall (fun kv => 0 < size (snd kv)) languageMap ->
  sumZ (sizes (entriesOf cfg languageMap)) <= sumZ (sizes languageMap).
Proof.
  intros Hpos. unfold entriesOf. fold by_size.
  destruct (slice_list_0_take (sort by_size languageMap) (Some (topLanguagesLimit cfg)))
    as [n ->].
  unfold sizes. rewrite <- firstn_map.
  rewrite <- (sumZ_perm _ _ (Permutation_map _ (sort_perm by_size languageMap))).
  apply sumZ_take. apply Forall_fmap. apply sort_Forall. exact Hpos.
Qed.

(** C1 (as amended). When [buildSvg] renders, with a top limit of at least
    1, a non-empty aggregate whose byte sizes are positive and total less
    than 2^53, then in the engine's binary64 arithmetic there are labels,
    every percentage label is at least 1, and with [n] displayed entries
    twice the sum of the labels plus [n] is at least 200, that is, the
    labels sum to at least [100 - n/2] (not to at least 100). *)
Theorem percent_labels_bound (cfg : Config) (languageMap : LanguageMap) :
  languageMap <> [] ->
  Forall (fun kv => 0 < size (snd kv)) languageMap ->
  sumZ (sizes languageMap) < 2 ^ 53 ->
  1 <= topLanguagesLimit cfg ->
  percentLabels binary64 cfg languageMap <> [] /\
  Forall (fun p => 1 <= p) (percentLabels binary64 cfg languageMap) /\
  200 <= 2 * sumZ (percentLabels binary64 cfg languageMap)
         + Z.of_nat (length (percentLabels binary64 cfg languageMap)).
Proof.
  intros Hne Hpos Hsafe Hlim.
  assert (Hent : Forall (fun kv => 0 < size (snd kv)) (entriesOf cfg languageMap)).
  { unfold entriesOf. apply slice_list_Forall, sort_Forall. exact Hpos. }
  assert (Hsome : entriesOf cfg languageMap <> []).
  { intros E. apply (f_equal length) in E. rewrite entriesOf_count in E by lia.
    destruct languageMap as [|kv rest]; [congruence|]. cbn [length] in E.
    assert (0 < Z.to_nat (topLanguagesLimit cfg))%nat by lia.
    destruct (Z.to_nat (topLanguagesLimit cfg)); [lia|discriminate E]. }
  pose proof (totalOf_positive _ Hent Hsome) as Htot.
  pose proof (entries_total_le cfg languageMap Hpos) as Hle.
  assert (Hlabels : percentLabels binary64 cfg languageMap <> []).
  { unfold percentLabels, rowsOf.
    rewrite bool_decide_eq_false_2 by exact Hsome.
    replace (totalOf (entriesOf cfg languageMap) =? 0) with false by lia.
    cbn [orb]. rewrite imap_percent. unfold sizes. rewrite map_map.
    destruct (entriesOf cfg languageMap); [congruence|discriminate]. }
  split; [exact Hlabels|].
  apply percent_labels_bound_at; [|exact Hlabels].
  assert (Hs : Forall (fun z => 0 < z) (sizes (entriesOf cfg languageMap))).
  { unfold sizes. apply Forall_fmap. exact Hent. }
  rewrite totalOf_sum in *. apply Forall_forall. intros s Hin.
  pose proof (positive_le_sum _ s Hs Hin) as Hshare.
  rewrite Forall_forall in Hs. specialize (Hs s Hin).
  unfold accurate_at. apply scaled_quotient_lower; [lia|lia|].
  split; [lia|reflexivity].
Qed.

Lemma percent_labels_bound_witness :
  percentLabels binary64 (badge_config 6) (accumulate thirds) <> [] /\
  Forall (fun p => 1 <= p) (percentLabels binary64 (badge_config 6) (accumulate thirds)) /\
  200 <= 2 * sumZ (percentLabels binary64 (badge_config 6) (accumulate thirds))
         + Z.of_nat (length (percentLabels binary64 (badge_config 6) (accumulate thirds))).
Proof.
  apply (percent_labels_bound (badge_config 6) (accumulate thirds)).
  - vm_compute. discriminate.
  - repeat constructor.
  - vm_compute. reflexivity.
  - vm_compute. discriminate.
Defined.

End BadgeLabelFacts.
